(** * AI-Session-Management: the retrieval pipeline, embedded and verified

    A shallow embedding of the TypeScript sources of the session-search
    back end:

    - [TextChunker.chunkText], [highlightText], [extractSnippet] and
      [escapeRegex]                                (common/TextChunker.ts)
    - [AIRetryHelper.retry]                        (common/AIRetryHelper.ts)
    - [AIRateLimiter.checkRateLimit], [getRemainingRequests] and
      [reset]                                      (common/AIRateLimiter.ts)
    - [OpenAIEmbeddingService.generateEmbedding] and
      [cosineSimilarity]                           (services/OpenAIEmbeddingService.ts)
    - [OpenAISummaryService.generateSummary]       (services/OpenAISummaryService.ts)
    - [TranscriptChunkRepository.findSimilarChunks], the statement it
      builds, and its private [cosineSimilarity]   (repositories/TranscriptChunkRepository.ts)
    - [Database.convertPlaceholders]               (config/Database.ts)
    - [SessionService.searchSessions], [createSession], [getSession],
      [addSessionEntry], [getSessionSummary], [transcribeSession] and
      [embedSession]                               (services/SessionService.ts)

    Conventions of the embedding.

    - A JavaScript string is the list of its UTF-16 code units.
    - A JavaScript [number] that holds an index, a length or a time stamp is
      an integer of [Z] (exact below 2^53); one that holds a vector
      component or a similarity score is a binary64 float of [PrimFloat],
      with the IEEE operations JavaScript uses.
    - [maxRetries], [maxRequests], the [limit] of a query and
      [SEARCH_RESULTS_LIMIT] are counts and are natural numbers.
    - A thrown exception is a value of a sum type; a collaborator with
      effects threads an explicit world.
    - The methods of [SessionService] other than [searchSessions] are
      embedded over the interfaces of their collaborators; their
      properties are stated with collaborators that record each call in a
      log and answer from a table. *)

From Stdlib Require Import ZArith List Bool Lia String Ascii.
From Stdlib Require Import Sorted Permutation.
From Stdlib Require Import Floats Uint63.
From Stdlib Require Import DecimalString.
Import ListNotations.

Local Open Scope Z_scope.

(* ================================================================== *)
(** * JavaScript primitives used by the sources *)
(* ================================================================== *)

Module JS.

(** A UTF-16 code unit, and a string as the sequence of its code units. *)
Definition code_unit := N.
Definition jsstring := list code_unit.

(** The code units of an ASCII literal, to write examples. *)
Fixpoint lit (s : string) : jsstring :=
  match s with
  | EmptyString => []
  | String c s' => N_of_ascii c :: lit s'
  end.

Definition strlen (s : jsstring) : Z := Z.of_nat (List.length s).

(** [String.prototype.slice(start, end)] (and [Array.prototype.slice]):
    a negative index counts from the end, every index is clamped to
    [0, length], and an empty range yields the empty string. *)
Definition clampIndex (len i : Z) : Z :=
  if i <? 0 then Z.max (len + i) 0 else Z.min i len.

Definition slice {A : Type} (s : list A) (start end_ : Z) : list A :=
  let len := Z.of_nat (List.length s) in
  let from := clampIndex len start in
  let to := clampIndex len end_ in
  firstn (Z.to_nat (to - from)) (skipn (Z.to_nat from) s).

(** [s.lastIndexOf(c)] for a one-character search string: the greatest
    index holding [c], or [-1]. *)
Fixpoint lastIndexOf_from (c : code_unit) (s : jsstring) (i found : Z) : Z :=
  match s with
  | [] => found
  | x :: t => lastIndexOf_from c t (i + 1) (if N.eqb x c then i else found)
  end.

Definition lastIndexOf (c : code_unit) (s : jsstring) : Z :=
  lastIndexOf_from c s 0 (-1).

(** ECMAScript WhiteSpace and LineTerminator code points, the characters
    [String.prototype.trim] strips. *)
Definition isWhiteSpace (c : code_unit) : bool :=
  let at_ := N.eqb c in
  (at_ 9 || at_ 10 || at_ 11 || at_ 12 || at_ 13 || at_ 32 || at_ 160
   || at_ 5760 || (N.leb 8192 c && N.leb c 8202) || at_ 8232 || at_ 8233
   || at_ 8239 || at_ 8287 || at_ 12288 || at_ 65279)%bool%N.

Fixpoint trimStart (s : jsstring) : jsstring :=
  match s with
  | [] => []
  | c :: t => if isWhiteSpace c then trimStart t else s
  end.

Definition trimEnd (s : jsstring) : jsstring := rev (trimStart (rev s)).

Definition trim (s : jsstring) : jsstring := trimEnd (trimStart s).

Definition space : code_unit := 32%N.

(** An integer-valued [number] as the binary64 float that holds it
    (exact for magnitudes below 2^53). *)
Definition numberOfZ (z : Z) : float :=
  match z with
  | Z0 => 0%float
  | Zpos _ => PrimFloat.of_uint63 (Uint63.of_Z z)
  | Zneg p => PrimFloat.opp (PrimFloat.of_uint63 (Uint63.of_Z (Zpos p)))
  end.

Definition streq (a b : jsstring) : bool :=
  if list_eq_dec N.eq_dec a b then true else false.

(** [s.split(/\s+/)]: the fields between maximal runs of white space;
    a leading or trailing run leaves an empty first or last field. *)
Fixpoint splitFields (s : jsstring) (field : jsstring) (inRun : bool)
  : list jsstring :=
  match s with
  | [] => [rev field]
  | c :: t =>
      if isWhiteSpace c
      then if inRun then splitFields t field true
           else rev field :: splitFields t [] true
      else splitFields t (c :: field) false
  end.

Definition splitWhiteSpace (s : jsstring) : list jsstring :=
  splitFields s [] false.

(** An error object: its message and the three places a numeric status
    is looked up ([statusCode], [status], [response.status]). An absent
    property is [None]. *)
Record JsError := mkError {
  message : string;
  statusCode : option Z;
  status : option Z;
  responseStatus : option Z
}.

(** [new Error(message)]. *)
Definition Error (msg : string) : JsError := mkError msg None None None.

(** [new AppError(message, statusCode)] (common/ErrorHandler.ts). *)
Definition AppError (msg : string) (code : Z) : JsError :=
  mkError msg (Some code) None None.

(** The completion of a call: a value, or a thrown error (a rejected
    promise). *)
Inductive Outcome (A : Type) : Type :=
| Ok (value : A)
| Throw (error : JsError).
Arguments Ok {A} value.
Arguments Throw {A} error.

(** [Array.prototype.sort(compareFn)]. The comparator returns a number;
    [x] is moved behind [y] exactly when [compareFn(x, y) > 0], every
    other result (negative, zero, NaN) keeps [x] in front, and equal
    elements keep their order (the sort is stable). ECMAScript fixes the
    result for a consistent comparator; for an inconsistent one it is
    left to the engine, and this insertion order is the one taken. *)
Fixpoint insertBy {A : Type} (compareFn : A -> A -> float) (x : A)
         (l : list A) : list A :=
  match l with
  | [] => [x]
  | y :: t =>
      if PrimFloat.ltb 0 (compareFn x y)
      then y :: insertBy compareFn x t
      else x :: l
  end.

Definition sort {A : Type} (compareFn : A -> A -> float) (l : list A)
  : list A :=
  fold_right (insertBy compareFn) [] l.

(** [s] begins with the characters of [needle]. *)
Fixpoint startsWith (needle s : jsstring) : bool :=
  match needle, s with
  | [], _ => true
  | _ :: _, [] => false
  | n :: needle', c :: s' => N.eqb n c && startsWith needle' s'
  end.

(** [s.indexOf(needle)]: the least index at which [needle] occurs, or
    [-1]; the empty string occurs at index 0. *)
Fixpoint indexOf_from (needle s : jsstring) (i : Z) : Z :=
  match s with
  | [] => if startsWith needle [] then i else -1
  | _ :: t => if startsWith needle s then i else indexOf_from needle t (i + 1)
  end.

Definition indexOf (needle s : jsstring) : Z := indexOf_from needle s 0.

(** [`${n}`] for a count. *)
Definition decimal (n : nat) : jsstring :=
  lit (NilZero.string_of_uint (Nat.to_uint n)).

(** [parts.join(sep)]. *)
Fixpoint join (sep : jsstring) (parts : list jsstring) : jsstring :=
  match parts with
  | [] => []
  | part :: rest =>
      match rest with
      | [] => part
      | _ :: _ => part ++ sep ++ join sep rest
      end
  end.

End JS.

(* ================================================================== *)
(** * TextChunker.chunkText *)
(* ================================================================== *)

Module TextChunker.
Import JS.

Record Chunk := mkChunk {
  text : jsstring;
  startIndex : Z;
  endIndex : Z
}.

(** [lastSpaceIndex > chunkSize * 0.7], evaluated in binary64 as the
    source does; [0x1.6666666666666p-1] is the double nearest to 0.7. *)
Definition pastThreshold (lastSpaceIndex chunkSize : Z) : bool :=
  PrimFloat.ltb
    (PrimFloat.mul (numberOfZ chunkSize) 0x1.6666666666666p-1%float)
    (numberOfZ lastSpaceIndex).

(** One pass through the body of the [while] loop at [startIndex]: the
    chunk that is pushed and the next value of [startIndex]. *)
Definition window (txt : jsstring) (chunkSize overlap startIndex : Z)
  : Chunk * Z :=
  let endIndex := Z.min (startIndex + chunkSize) (strlen txt) in
  let chunkText := slice txt startIndex endIndex in
  if (endIndex <? strlen txt) && (strlen chunkText =? chunkSize) then
    let lastSpaceIndex := lastIndexOf space chunkText in
    if pastThreshold lastSpaceIndex chunkSize then
      (mkChunk (trim (slice chunkText 0 (lastSpaceIndex + 1)))
               startIndex (startIndex + lastSpaceIndex + 1),
       startIndex + lastSpaceIndex + 1 - overlap)
    else
      (mkChunk (trim chunkText) startIndex endIndex, endIndex - overlap)
  else
    (mkChunk (trim chunkText) startIndex endIndex, endIndex).

(** The [while (startIndex < text.length)] loop. Each turn pushes one
    chunk and leaves through [break] once more than 1000 chunks are
    held. [fuel] bounds the number of turns; [None] means the fuel ran
    out before the loop was left. *)
Fixpoint chunkLoop (fuel : nat) (txt : jsstring) (chunkSize overlap : Z)
         (startIndex : Z) (chunks : list Chunk) : option (list Chunk) :=
  match fuel with
  | O => None
  | S fuel' =>
      if startIndex <? strlen txt then
        let '(c, next) := window txt chunkSize overlap startIndex in
        let chunks' := chunks ++ [c] in
        if (1000 <? Z.of_nat (List.length chunks'))
        then Some chunks'
        else chunkLoop fuel' txt chunkSize overlap next chunks'
      else Some chunks
  end.

(** The array [chunks] when the loop is left, before the final filter. *)
Definition chunkWindowsFuel (fuel : nat) (txt : jsstring)
           (chunkSize overlap : Z) : option (list Chunk) :=
  if strlen txt =? 0 then Some []
  else chunkLoop fuel txt chunkSize overlap 0 [].

Definition nonEmptyText (c : Chunk) : bool := 0 <? strlen (text c).

Definition chunkTextFuel (fuel : nat) (txt : jsstring)
           (chunkSize overlap : Z) : option (list Chunk) :=
  option_map (filter nonEmptyText) (chunkWindowsFuel fuel txt chunkSize overlap).

(** The loop is left after at most 1001 turns, see [chunkText_returns]. *)
Definition loopFuel : nat := 1001.

Definition chunkWindows := chunkWindowsFuel loopFuel.
Definition chunkText := chunkTextFuel loopFuel.

(** ** escapeRegex, highlightText and extractSnippet *)

(** The characters of the class [[.*+?^${}()|[\]\\]]: the syntax
    characters of a pattern. *)
Definition isSyntaxCharacter (c : code_unit) : bool :=
  existsb (N.eqb c) [46; 42; 43; 63; 94; 36; 123; 125; 40; 41; 124; 91; 93; 92]%N.

Definition backslash : code_unit := 92%N.

(** [str.replace(/[.*+?^${}()|[\]\\]/g, '\\$&')]: a backslash is put
    before every syntax character. *)
Definition escapeRegex (str : jsstring) : jsstring :=
  flat_map (fun c => if isSyntaxCharacter c then [backslash; c] else [c]) str.

(** A pattern in which every syntax character is escaped and nothing
    else is, and the characters that such a pattern matches, one after
    the other. *)
Fixpoint wellEscaped (pattern : jsstring) : bool :=
  match pattern with
  | [] => true
  | c :: t =>
      if N.eqb c backslash then
        match t with
        | [] => false
        | d :: t' => isSyntaxCharacter d && wellEscaped t'
        end
      else negb (isSyntaxCharacter c) && wellEscaped t
  end.

Fixpoint unescape (pattern : jsstring) : jsstring :=
  match pattern with
  | [] => []
  | c :: t =>
      if N.eqb c backslash then
        match t with
        | [] => []
        | d :: t' => d :: unescape t'
        end
      else c :: unescape t
  end.

(** The result of [extractSnippet] when it is not [null]. *)
Record Extract := mkExtract {
  snippet : jsstring;
  snippetStartIndex : Z;
  snippetEndIndex : Z
}.

Section Highlight.
(** [String.prototype.toLowerCase], and the canonical form under which
    a pattern with the flag [i] compares two characters. *)
Variable toLowerCase : jsstring -> jsstring.
Variable canonicalize : code_unit -> code_unit.

(** The characters [literal] match a prefix of [s], each up to case. *)
Fixpoint matchesAt (literal s : jsstring) : bool :=
  match literal, s with
  | [], _ => true
  | _ :: _, [] => false
  | p :: literal', c :: s' =>
      N.eqb (canonicalize p) (canonicalize c) && matchesAt literal' s'
  end.

(** [s.replace(regex, replacer)] for the global, case-insensitive regex
    of the characters [literal] in one group: from left to right every
    match that does not overlap the one before is replaced by
    [replacer(match, p1, offset)]. [skip] counts the characters of the
    current match still to pass; the empty pattern matches before every
    character and at the end. *)
Fixpoint replaceFrom (literal : jsstring)
         (replacer : jsstring -> Z -> jsstring)
         (s : jsstring) (offset : Z) (skip : nat) : jsstring :=
  match s with
  | [] =>
      match skip, literal with
      | O, [] => replacer [] offset
      | _, _ => []
      end
  | c :: t =>
      match skip with
      | S skip' => replaceFrom literal replacer t (offset + 1) skip'
      | O =>
          if matchesAt literal s then
            replacer (firstn (List.length literal) s) offset
              ++ match literal with
                 | [] => c :: replaceFrom literal replacer t (offset + 1) 0
                 | _ :: more =>
                     replaceFrom literal replacer t (offset + 1)
                                 (List.length more)
                 end
          else c :: replaceFrom literal replacer t (offset + 1) 0
      end
  end.

Definition replaceAll (literal : jsstring)
           (replacer : jsstring -> Z -> jsstring) (s : jsstring) : jsstring :=
  replaceFrom literal replacer s 0 0.

(** One turn of the loop over the sorted terms. The regex is
    [new RegExp(`(${escapeRegex(lowerTerm)})`, 'gi')], which matches the
    characters [unescape (escapeRegex lowerTerm)]; the replacer reads the
    original [text] at the offset of the match in [highlighted]. *)
Definition highlightTerm (text : jsstring) (highlighted term : jsstring)
  : jsstring :=
  if (strlen term =? 0) || (strlen (trim term) =? 0) then highlighted
  else
    let lowerTerm := toLowerCase term in
    let literal := unescape (escapeRegex lowerTerm) in
    replaceAll literal
               (fun match_ offset =>
                  let originalMatch :=
                    slice text offset (offset + strlen match_) in
                  lit "<mark>" ++ originalMatch ++ lit "</mark>")
               highlighted.

Definition highlightText (text : jsstring) (queryTerms : list jsstring)
  : jsstring :=
  if (List.length queryTerms =? 0)%nat then text
  else
    let sortedTerms :=
      sort (fun a b => PrimFloat.sub (numberOfZ (strlen b))
                                     (numberOfZ (strlen a)))
           queryTerms in
    fold_left (highlightTerm text) sortedTerms text.

(** The loop of [extractSnippet] that looks for the first match. *)
Definition firstMatch (lowerText : jsstring) (queryTerms : list jsstring) : Z :=
  fold_left
    (fun matchIndex term =>
       if (strlen term =? 0) || (strlen (trim term) =? 0) then matchIndex
       else
         let index := indexOf (toLowerCase term) lowerText in
         if negb (index =? -1)
            && ((matchIndex =? -1) || (index <? matchIndex))
         then index else matchIndex)
    queryTerms (-1).

(** [extractSnippet]; [None] is [null]. *)
Definition extractSnippet (text : jsstring) (queryTerms : list jsstring)
           (snippetLength : Z) : option Extract :=
  if (strlen text =? 0) || (List.length queryTerms =? 0)%nat then None
  else
    let lowerText := toLowerCase text in
    let matchIndex := firstMatch lowerText queryTerms in
    if matchIndex =? -1 then
      Some (mkExtract
              (slice text 0 snippetLength
                 ++ (if snippetLength <? strlen text then lit "..." else []))
              0
              (Z.min snippetLength (strlen text)))
    else
      let halfLength := snippetLength / 2 in
      let startIndex := Z.max 0 (matchIndex - halfLength) in
      let endIndex := Z.min (strlen text) (matchIndex + halfLength) in
      let snippet0 := slice text startIndex endIndex in
      let snippet1 := if 0 <? startIndex then lit "..." ++ snippet0
                      else snippet0 in
      let snippet2 := if endIndex <? strlen text then snippet1 ++ lit "..."
                      else snippet1 in
      Some (mkExtract (highlightText snippet2 queryTerms) startIndex endIndex).

End Highlight.

End TextChunker.


(* ================================================================== *)
(** * AIRetryHelper.retry *)
(* ================================================================== *)

Module AIRetryHelper.
Import JS.

(** The options after destructuring, every default applied.
    [maxRetries] counts retries and is a natural number (the default is
    read with [parseInt] from [AI_RETRY_MAX_ATTEMPTS], or is 3). *)
Record RetryOptions := mkOptions {
  maxRetries : nat;
  initialDelay : Z;
  maxDelay : Z;
  backoffMultiplier : Z;
  retryableStatusCodes : list Z
}.

(** The defaults when the environment sets none of the variables. *)
Definition defaultOptions : RetryOptions :=
  mkOptions 3 1000 10000 2 [429; 500; 502; 503; 504].

(** JavaScript truthiness of an optional number, and [a || b]. *)
Definition truthy (x : option Z) : bool :=
  match x with
  | Some z => negb (z =? 0)
  | None => false
  end.

Definition orElse (a b : option Z) : option Z := if truthy a then a else b.

(** [error.statusCode || error.status || error.response?.status]. *)
Definition statusOf (error : JsError) : option Z :=
  orElse (orElse (statusCode error) (status error)) (responseStatus error).

(** [statusCode && retryableStatusCodes.includes(statusCode)]. *)
Definition isRetryable (opts : RetryOptions) (error : JsError) : bool :=
  match statusOf error with
  | Some code => truthy (Some code) && existsb (Z.eqb code) (retryableStatusCodes opts)
  | None => false
  end.

(** [Math.min(initialDelay * Math.pow(backoffMultiplier, attempt), maxDelay)]. *)
Definition backoffDelay (opts : RetryOptions) (attempt : nat) : Z :=
  Z.min (initialDelay opts * backoffMultiplier opts ^ Z.of_nat attempt)
        (maxDelay opts).

(** What [retry] does to the outside: it invokes the operation, and it
    sleeps ([Slept d] stands for a sleep of [d] plus a random jitter
    below [0.3 * d]). *)
Inductive Event := Invoked | Slept (delay : Z).

Definition invocations (trace : list Event) : nat :=
  List.length (filter (fun ev => match ev with Invoked => true | Slept _ => false end) trace).

Section Retry.
Context {W T : Type}.

(** The operation [fn]: a call acts on the world it runs in. *)
Variable fn : W -> Outcome T * W.
Variable opts : RetryOptions.

(** The [for] loop from [attempt], with [left = maxRetries - attempt]
    turns to go after this one; [left = 0] is [attempt === maxRetries].
    Every turn ends in [return], in [throw] or in the next turn, and the
    turn of [attempt === maxRetries] never ends in the next turn: the
    [throw lastError || new Error('Retry failed')] behind the loop is not
    reached for a natural [maxRetries]. *)
Fixpoint attemptLoop (left attempt : nat) (w : W)
  : Outcome T * W * list Event :=
  let '(result, w1) := fn w in
  match result with
  | Ok value => (Ok value, w1, [Invoked])
  | Throw error =>
      match left with
      | O => (Throw error, w1, [Invoked])
      | S left' =>
          if isRetryable opts error then
            let '(final, w2, trace) := attemptLoop left' (S attempt) w1 in
            (final, w2, Invoked :: Slept (backoffDelay opts attempt) :: trace)
          else (Throw error, w1, [Invoked])
      end
  end.

Definition retry (w : W) : Outcome T * W * list Event :=
  attemptLoop (maxRetries opts) 0 w.

(** The world in which the [k]-th invocation (from 0) runs when the
    operation is called over and over, and what that call does. *)
Fixpoint worldAt (k : nat) (w : W) : W :=
  match k with
  | O => w
  | S k' => worldAt k' (snd (fn w))
  end.

Definition callAt (k : nat) (w : W) : Outcome T := fst (fn (worldAt k w)).

End Retry.

End AIRetryHelper.

(* ================================================================== *)
(** * AIRateLimiter *)
(* ================================================================== *)

Module AIRateLimiter.
Import JS.

Record Limiter := mkLimiter {
  requestTimes : list Z;
  maxRequests : nat;
  windowMs : Z
}.

(** [new AIRateLimiter(maxRequests, windowMs)]. *)
Definition create (maxRequests : nat) (windowMs : Z) : Limiter :=
  mkLimiter [] maxRequests windowMs.

(** [time => now - time < this.windowMs]. *)
Definition inWindow (windowMs now time : Z) : bool := now - time <? windowMs.

Definition prune (l : Limiter) (now : Z) : Limiter :=
  mkLimiter (filter (inWindow (windowMs l) now) (requestTimes l))
            (maxRequests l) (windowMs l).

(** The thrown error carries the wait time
    [windowMs - (now - requestTimes[0])] ([None] when the array is empty). *)
Inductive Verdict := Allowed | RateLimited (waitTime : option Z).

(** [checkRateLimit()] when [Date.now()] returns [now]. *)
Definition checkRateLimit (l : Limiter) (now : Z) : Verdict * Limiter :=
  let l1 := prune l now in
  if (maxRequests l1 <=? List.length (requestTimes l1))%nat then
    (RateLimited
       (option_map (fun oldestRequest => windowMs l1 - (now - oldestRequest))
                   (hd_error (requestTimes l1))),
     l1)
  else
    (Allowed, mkLimiter (requestTimes l1 ++ [now]) (maxRequests l1) (windowMs l1)).

(** [getRemainingRequests()]. *)
Definition getRemainingRequests (l : Limiter) (now : Z) : Z * Limiter :=
  let l1 := prune l now in
  (Z.max 0 (Z.of_nat (maxRequests l1) - Z.of_nat (List.length (requestTimes l1))), l1).

(** [reset()]. *)
Definition reset (l : Limiter) : Limiter :=
  mkLimiter [] (maxRequests l) (windowMs l).

(** A use of the limiter, and a run of uses from a state. *)
Inductive Call :=
| CheckRateLimit (now : Z)
| GetRemainingRequests (now : Z)
| Reset.

Definition step (l : Limiter) (c : Call) : Limiter :=
  match c with
  | CheckRateLimit now => snd (checkRateLimit l now)
  | GetRemainingRequests now => snd (getRemainingRequests l now)
  | Reset => reset l
  end.

Definition run (l : Limiter) (calls : list Call) : Limiter :=
  fold_left step calls l.

(** The recorded requests that lie in the window that ends at [now]. *)
Definition recordedInWindow (l : Limiter) (now : Z) : nat :=
  List.length (filter (inWindow (windowMs l) now) (requestTimes l)).

End AIRateLimiter.

(* ================================================================== *)
(** * Entities *)
(* ================================================================== *)

Module Entities.
Import JS.

(** A [number[]]: an embedding. *)
Definition vector := list float.

(** [v[i]]; reading past the end gives [undefined], which arithmetic
    turns into NaN. *)
Definition item (v : vector) (i : nat) : float := nth i v PrimFloat.nan.

Record TranscriptChunk := mkTranscriptChunk {
  chunkId : jsstring;
  sessionId : jsstring;
  entryId : option jsstring;
  chunkText : jsstring;
  embedding : vector;
  startIndex : Z;
  endIndex : Z;
  timestamp : jsstring;
  createdAt : option jsstring
}.

Record Session := mkSession {
  id : jsstring;
  therapistId : jsstring;
  clientId : jsstring;
  startTime : jsstring;
  summary : option jsstring
}.

(** The two tables the search reads. A row of [transcript_chunks] holds
    its embedding as JSON text; [mapRowToChunk] parses it, and the table
    is kept here with the rows already mapped. *)
Record Database := mkDatabase {
  transcript_chunks : list TranscriptChunk;
  sessions : list Session
}.

End Entities.

(* ================================================================== *)
(** * OpenAIEmbeddingService.cosineSimilarity *)
(* ================================================================== *)

Module OpenAIEmbeddingService.
Import JS Entities.

(** The [for] loop: [n] turns to go from index [i], on the three
    running sums. *)
Fixpoint sumLoop (n i : nat) (vecA vecB : vector)
         (dotProduct normA normB : float) : float * float * float :=
  match n with
  | O => (dotProduct, normA, normB)
  | S n' =>
      sumLoop n' (S i) vecA vecB
              (dotProduct + item vecA i * item vecB i)%float
              (normA + item vecA i * item vecA i)%float
              (normB + item vecB i * item vecB i)%float
  end.

Definition cosineSimilarity (vecA vecB : vector) : Outcome float :=
  if negb (List.length vecA =? List.length vecB)%nat then
    Throw (Error "Vectors must have the same length")
  else
    let '(dotProduct, normA, normB) :=
      sumLoop (List.length vecA) 0 vecA vecB 0 0 0 in
    let denominator := (PrimFloat.sqrt normA * PrimFloat.sqrt normB)%float in
    Ok (if (denominator =? 0)%float then 0%float
        else (dotProduct / denominator)%float).

(** [generateEmbedding]: the blank check, the truncation to 8000
    characters, and the request to the provider under
    [AIRetryHelper.retry]. [request] stands for the body of the retried
    closure ([fetch], the status check and the decoding of the answer). *)
Section GenerateEmbedding.
Context {W : Type}.
Variable request : jsstring -> W -> Outcome vector * W.

Definition generateEmbedding (text : jsstring) (w : W)
  : Outcome vector * W :=
  if (strlen text =? 0) || (strlen (trim text) =? 0) then
    (Throw (Error "Text is required for embedding generation"), w)
  else
    let maxLength := 8000 in
    let truncatedText :=
      if maxLength <? strlen text then slice text 0 maxLength else text in
    let '(result, w', _) :=
      AIRetryHelper.retry (request truncatedText)
                          AIRetryHelper.defaultOptions w in
    (result, w').
End GenerateEmbedding.

(** The answer of [fetch] as far as the retried closure reads it:
    [response.ok], [response.status], the text that [JSON.stringify]
    gives for the body of an error answer, and what the body of a good
    answer holds at [data.data[0]?.embedding]: an array, or nothing that
    passes [!embedding || !Array.isArray(embedding)]; reading the body can
    throw an error of the run time. *)
Record Response := mkResponse {
  ok : bool;
  responseCode : Z;
  errorJson : string;
  embeddingField : Outcome (option vector)
}.

(** The template string [OpenAI API error: ${response.status} - ${...}]. *)
Definition apiErrorMessage (response : Response) : string :=
  ("OpenAI API error: "
   ++ NilZero.string_of_int (Z.to_int (responseCode response))
   ++ " - " ++ errorJson response)%string.

(** The closure handed to [AIRetryHelper.retry]: one [fetch] with the
    truncated text, the status check, and the decoding of the answer. *)
Section Request.
Context {W : Type}.
Variable fetch : jsstring -> W -> Outcome Response * W.

Definition requestEmbedding (truncatedText : jsstring) (w : W)
  : Outcome vector * W :=
  match fetch truncatedText w with
  | (Throw e, w1) => (Throw e, w1)
  | (Ok response, w1) =>
      if negb (ok response) then
        (Throw (Error (apiErrorMessage response)), w1)
      else
        match embeddingField response with
        | Throw e => (Throw e, w1)
        | Ok None =>
            (Throw (Error "Invalid embedding response from OpenAI"), w1)
        | Ok (Some embedding) => (Ok embedding, w1)
        end
  end.
End Request.

End OpenAIEmbeddingService.

(* ================================================================== *)
(** * TranscriptChunkRepository *)
(* ================================================================== *)

Module TranscriptChunkRepository.
Import JS Entities.

(** The private [cosineSimilarity] of the repository. *)
Fixpoint sumLoop (n i : nat) (vecA vecB : vector)
         (dotProduct normA normB : float) : float * float * float :=
  match n with
  | O => (dotProduct, normA, normB)
  | S n' =>
      sumLoop n' (S i) vecA vecB
              (dotProduct + item vecA i * item vecB i)%float
              (normA + item vecA i * item vecA i)%float
              (normB + item vecB i * item vecB i)%float
  end.

Definition cosineSimilarity (vecA vecB : vector) : float :=
  if negb (List.length vecA =? List.length vecB)%nat then 0%float
  else
    let '(dotProduct, normA, normB) :=
      sumLoop (List.length vecA) 0 vecA vecB 0 0 0 in
    let denominator := (PrimFloat.sqrt normA * PrimFloat.sqrt normB)%float in
    if (denominator =? 0)%float then 0%float
    else (dotProduct / denominator)%float.

(** Text comparison of the engine (code unit by code unit), for
    [ORDER BY timestamp DESC]. *)
Fixpoint textCompare (a b : jsstring) : comparison :=
  match a, b with
  | [], [] => Eq
  | [], _ :: _ => Lt
  | _ :: _, [] => Gt
  | x :: a', y :: b' =>
      match N.compare x y with
      | Eq => textCompare a' b'
      | c => c
      end
  end.

Fixpoint insertDesc (r : TranscriptChunk) (rows : list TranscriptChunk)
  : list TranscriptChunk :=
  match rows with
  | [] => [r]
  | r' :: rest =>
      match textCompare (timestamp r) (timestamp r') with
      | Lt => r' :: insertDesc r rest
      | _ => r :: rows
      end
  end.

Definition orderByTimestampDesc (rows : list TranscriptChunk)
  : list TranscriptChunk :=
  fold_right insertDesc [] rows.

(** The query text is [SELECT * FROM transcript_chunks], followed by
    [WHERE "sessionId" IN (...)] only when [sessionIds] is given and not
    empty, followed by [ORDER BY timestamp DESC]. *)
Definition selectChunks (db : Database) (sessionIds : option (list jsstring))
  : list TranscriptChunk :=
  let rows :=
    match sessionIds with
    | Some (s :: ids) =>
        filter (fun row => existsb (streq (sessionId row)) (s :: ids))
               (transcript_chunks db)
    | _ => transcript_chunks db
    end in
  orderByTimestampDesc rows.

Definition findSimilarChunks (db : Database) (queryEmbedding : vector)
           (sessionIds : option (list jsstring)) (limit : nat)
  : list TranscriptChunk :=
  let chunks := selectChunks db sessionIds in
  let chunksWithSimilarity :=
    map (fun chunk => (chunk, cosineSimilarity queryEmbedding (embedding chunk)))
        chunks in
  map fst
      (slice (sort (fun a b => (snd b - snd a)%float) chunksWithSimilarity)
             0 (Z.of_nat limit)).

End TranscriptChunkRepository.

(* ================================================================== *)
(** * SessionService.searchSessions *)
(* ================================================================== *)

Module SessionService.
Import JS Entities.

(** An asynchronous call of a collaborator: it runs in a world, completes
    with a value or an error, and leaves a world. *)
Definition M (W A : Type) : Type := W -> Outcome A * W.

Definition ret {W A : Type} (a : A) : M W A := fun w => (Ok a, w).

Definition throw {W A : Type} (e : JsError) : M W A := fun w => (Throw e, w).

Definition bind {W A B : Type} (m : M W A) (k : A -> M W B) : M W B :=
  fun w =>
    match m w with
    | (Ok a, w') => k a w'
    | (Throw e, w') => (Throw e, w')
    end.

Definition lift {W A : Type} (r : Outcome A) : M W A := fun w => (r, w).

Notation "x <- m ;; k" := (bind m (fun x => k))
  (at level 61, m at next level, right associativity).

(** The interfaces the service is injected with. *)
Record IEmbeddingService (W : Type) := {
  generateEmbedding : jsstring -> M W vector;
  cosineSimilarity : vector -> vector -> Outcome float
}.

Record ISessionRepository (W : Type) := {
  findById : jsstring -> M W (option Session);
  findByTherapistId : jsstring -> M W (list Session)
}.

Record ITranscriptChunkRepository (W : Type) := {
  findSimilarChunks :
    vector -> option (list jsstring) -> nat -> M W (list TranscriptChunk)
}.

Arguments generateEmbedding {W}.
Arguments cosineSimilarity {W}.
Arguments findById {W}.
Arguments findByTherapistId {W}.
Arguments findSimilarChunks {W}.

Record Snippet := mkSnippet {
  snippetText : jsstring;
  snippetTimestamp : jsstring;
  snippetSimilarity : float
}.

Record SessionResult := mkSessionResult {
  resultSessionId : jsstring;
  resultTherapistId : jsstring;
  resultClientId : jsstring;
  resultStartTime : jsstring;
  resultSummary : option jsstring;
  similarity : float;
  snippets : option (list Snippet)
}.

Record SearchResponse := mkSearchResponse {
  responseQuery : jsstring;
  results : list SessionResult
}.

(** A value of [sessionMap]. *)
Record SessionData := mkSessionData {
  dataSessionId : jsstring;
  chunks : list (TranscriptChunk * float);
  maxSimilarity : float
}.

(** A [Map] keyed by strings: its entries in insertion order. *)
Definition StringMap (V : Type) := list (jsstring * V).

Fixpoint mapGet {V : Type} (m : StringMap V) (key : jsstring) : option V :=
  match m with
  | [] => None
  | (k, v) :: rest => if streq k key then Some v else mapGet rest key
  end.

(** [m.set(key, value)]: a present key keeps its place. *)
Fixpoint mapSet {V : Type} (m : StringMap V) (key : jsstring) (value : V)
  : StringMap V :=
  match m with
  | [] => [(key, value)]
  | (k, v) :: rest =>
      if streq k key then (k, value) :: rest
      else (k, v) :: mapSet rest key value
  end.

Section Service.
Context {W : Type}.
Variable sessionRepository : ISessionRepository W.
Variable chunkRepository : ITranscriptChunkRepository W.
Variable embeddingService : IEmbeddingService W.

(** [EnvConfig.SEARCH_RESULTS_LIMIT]. *)
Variable SEARCH_RESULTS_LIMIT : nat.

(** [TextChunker.highlightText], which only fills the text of a
    snippet. *)
Variable highlightText : jsstring -> list jsstring -> jsstring.

(** The loop [for (const chunk of chunks)] that fills [sessionMap]. *)
Fixpoint groupBySession (queryEmbedding : vector)
         (fetched : list TranscriptChunk) (sessionMap : StringMap SessionData)
  : Outcome (StringMap SessionData) :=
  match fetched with
  | [] => Ok sessionMap
  | chunk :: rest =>
      match cosineSimilarity embeddingService queryEmbedding (embedding chunk) with
      | Throw e => Throw e
      | Ok sim =>
          (* [has] / [set] / [get]: the entry of the session, fresh
             (no chunk yet, [maxSimilarity = similarity]) when the
             key is new *)
          let sessionData :=
            match mapGet sessionMap (sessionId chunk) with
            | Some data => data
            | None => mkSessionData (sessionId chunk) [] sim
            end in
          let pushed := chunks sessionData ++ [(chunk, sim)] in
          let maxSim :=
            if (maxSimilarity sessionData <? sim)%float then sim
            else maxSimilarity sessionData in
          groupBySession queryEmbedding rest
            (mapSet sessionMap (sessionId chunk)
                    (mkSessionData (dataSessionId sessionData) pushed maxSim))
      end
  end.

(** The snippets of one session: its chunks sorted by similarity, the
    first three kept. *)
Definition buildSnippets (queryTerms : list jsstring)
           (sessionData : SessionData) : list Snippet :=
  let topChunks :=
    slice (sort (fun a b => (snd b - snd a)%float) (chunks sessionData)) 0 3 in
  map (fun '(chunk, sim) =>
         mkSnippet (highlightText (chunkText chunk) queryTerms)
                   (timestamp chunk) sim)
      topChunks.

(** The loop [for (const [sessionId, sessionData] of sessionMap.entries())]. *)
Fixpoint buildResults (queryTerms : list jsstring)
         (entries : StringMap SessionData) (acc : list SessionResult)
  : M W (list SessionResult) :=
  match entries with
  | [] => ret acc
  | (sid, sessionData) :: rest =>
      session <- findById sessionRepository sid ;;
      match session with
      | None => buildResults queryTerms rest acc
      | Some session =>
          let snips := buildSnippets queryTerms sessionData in
          buildResults queryTerms rest
            (acc ++ [mkSessionResult
                       (id session) (therapistId session) (clientId session)
                       (startTime session) (summary session)
                       (maxSimilarity sessionData)
                       (if (0 <? List.length snips)%nat then Some snips else None)])
      end
  end.

(** The search from the fetch of the chunks on. *)
Definition rankSessions (query : jsstring) (queryEmbedding : vector)
           (queryTerms : list jsstring) (sessionIds : option (list jsstring))
  : M W SearchResponse :=
  fetched <- findSimilarChunks chunkRepository queryEmbedding sessionIds
                               (SEARCH_RESULTS_LIMIT * 3) ;;
  sessionMap <- lift (groupBySession queryEmbedding fetched []) ;;
  built <- buildResults queryTerms sessionMap [] ;;
  let sorted := sort (fun a b => (similarity b - similarity a)%float) built in
  let limitedResults := slice sorted 0 (Z.of_nat SEARCH_RESULTS_LIMIT) in
  ret (mkSearchResponse query limitedResults).

Definition searchSessions (query : jsstring) (therapist : option jsstring)
  : M W SearchResponse :=
  if strlen query =? 0 then
    throw (AppError "Query parameter is required" 400)
  else
    queryEmbedding <- generateEmbedding embeddingService query ;;
    let queryTerms :=
      filter (fun term => 2 <? strlen term) (splitWhiteSpace query) in
    match therapist with
    | Some (c :: tid) =>
        therapistSessions <- findByTherapistId sessionRepository (c :: tid) ;;
        let sessionIds := map id therapistSessions in
        if (List.length sessionIds =? 0)%nat then
          ret (mkSearchResponse query [])
        else rankSessions query queryEmbedding queryTerms (Some sessionIds)
    | _ => rankSessions query queryEmbedding queryTerms None
    end.

End Service.

(** ** The collaborators the container wires in *)

(** The world of the wired service: the database, and the requests that
    reached the embedding provider. *)
Record World := mkWorld {
  database : Database;
  providerRequests : list jsstring
}.

Section Wiring.
(** The answer of the provider to a request. *)
Variable provider : jsstring -> Outcome vector.

Definition request (text : jsstring) (w : World) : Outcome vector * World :=
  (provider text, mkWorld (database w) (providerRequests w ++ [text])).

Definition openAIEmbeddingService : IEmbeddingService World :=
  {| generateEmbedding := OpenAIEmbeddingService.generateEmbedding request;
     cosineSimilarity := OpenAIEmbeddingService.cosineSimilarity |}.

(** [SELECT * FROM sessions WHERE id = ?] and
    [SELECT * FROM sessions WHERE "therapistId" = ? ORDER BY "startTime" DESC]
    (the order of the second is not used by the search). *)
Definition sessionRepository : ISessionRepository World :=
  {| findById := fun sid w =>
       (Ok (find (fun s => streq (id s) sid) (sessions (database w))), w);
     findByTherapistId := fun tid w =>
       (Ok (filter (fun s => streq (therapistId s) tid) (sessions (database w))), w) |}.

Definition transcriptChunkRepository : ITranscriptChunkRepository World :=
  {| findSimilarChunks := fun q ids limit w =>
       (Ok (TranscriptChunkRepository.findSimilarChunks (database w) q ids limit), w) |}.

Definition wiredSearch (limit : nat)
           (highlightText : jsstring -> list jsstring -> jsstring) :=
  searchSessions sessionRepository transcriptChunkRepository
                 openAIEmbeddingService limit highlightText.
End Wiring.

End SessionService.

(* ================================================================== *)
(** * Notions the properties are stated with *)
(* ================================================================== *)

Module Spec.
Import JS.

(** The characters of [s] from offset [a] up to offset [b]. *)
Definition sub {A : Type} (s : list A) (a b : Z) : list A :=
  firstn (Z.to_nat (b - a)) (skipn (Z.to_nat a) s).

(** The character of [s] at offset [i]. *)
Definition charAt (s : jsstring) (i : Z) : option code_unit :=
  if i <? 0 then None else nth_error s (Z.to_nat i).

(** Offset [i] lies in the span [startIndex, endIndex) of one of the
    chunks. *)
Definition covered (chunks : list TextChunker.Chunk) (i : Z) : Prop :=
  exists c, In c chunks /\
            TextChunker.startIndex c <= i < TextChunker.endIndex c.

(** The spans of the chunks cover every offset of the text. *)
Definition spansCoverText (txt : jsstring) (chunks : list TextChunker.Chunk)
  : Prop :=
  forall i, 0 <= i < strlen txt -> covered chunks i.

(** The spans cover every character of the text that is not white
    space. *)
Definition spansCoverWords (txt : jsstring) (chunks : list TextChunker.Chunk)
  : Prop :=
  forall i ch, charAt txt i = Some ch -> isWhiteSpace ch = false ->
               covered chunks i.

(** *** Chunk windows *)

(** Every window that is not the last one moves the start forward by at
    least [step] characters: a hard boundary moves it by
    [chunkSize - overlap], and every break position that the 0.7 threshold
    admits in a window of [chunkSize] characters moves it by
    [lastSpaceIndex + 1 - overlap]. *)
Definition advancesBy (step chunkSize overlap : Z) : bool :=
  (1 <=? step) && (step <=? chunkSize - overlap)
  && forallb (fun k => let lastSpaceIndex := Z.of_nat k - 1 in
                       implb (TextChunker.pastThreshold lastSpaceIndex chunkSize)
                             (overlap + step <=? lastSpaceIndex + 1))
             (seq 0 (Z.to_nat chunkSize + 1)).

(** The windows tile the text from [start] to [len]: each one starts where
    the tiling has come to and ends further on, the next one starts
    [overlap] characters before that end, and the last one ends at
    [len]. *)
Fixpoint tilesFrom (overlap len start : Z) (ws : list TextChunker.Chunk)
  : Prop :=
  match ws with
  | [] => start = len
  | c :: rest =>
      TextChunker.startIndex c = start /\
      start < TextChunker.endIndex c <= len /\
      ((rest = [] /\ TextChunker.endIndex c = len) \/
       (start < TextChunker.endIndex c - overlap < len /\
        tilesFrom overlap len (TextChunker.endIndex c - overlap) rest))
  end.

(** *** Highlights *)

(** [highlighted] is [text] with some of its substrings, each one
    satisfying [P], put between [<mark>] and [</mark>]. *)
Inductive marked (P : jsstring -> Prop) : jsstring -> jsstring -> Prop :=
| marked_nil : marked P [] []
| marked_char c text highlighted :
    marked P text highlighted -> marked P (c :: text) (c :: highlighted)
| marked_wrap m text highlighted :
    P m -> marked P text highlighted ->
    marked P (m ++ text) (lit "<mark>" ++ m ++ lit "</mark>" ++ highlighted).

(** A term that the loops over the query terms skip. *)
Definition blankTerm (term : jsstring) : bool :=
  (strlen term =? 0) || (strlen (trim term) =? 0).

(** [needle] occurs in [s] at offset [j]. *)
Definition occursAt (needle s : jsstring) (j : Z) : Prop :=
  0 <= j <= strlen s /\ startsWith needle (skipn (Z.to_nat j) s) = true.

(** *** Vectors *)

(** The dot product and the Euclidean norm, summed from the left in
    binary64. *)
Definition dot (a b : Entities.vector) : float :=
  fold_left (fun acc p => (acc + fst p * snd p)%float) (combine a b) 0%float.

Definition sumSquares (a : Entities.vector) : float :=
  fold_left (fun acc x => (acc + x * x)%float) a 0%float.

Definition norm (a : Entities.vector) : float := PrimFloat.sqrt (sumSquares a).

(** [dot(a,b) / (norm(a) * norm(b))], with 0 for a denominator that is
    exactly zero. *)
Definition cosine (a b : Entities.vector) : float :=
  if (norm a * norm b =? 0)%float then 0%float
  else (dot a b / (norm a * norm b))%float.

(** Every component is zero (of either sign). *)
Definition zeroVector (a : Entities.vector) : Prop :=
  Forall (fun x => (x =? 0)%float = true) a.

(** *** Rankings *)

Definition notNaN (x : float) : Prop := PrimFloat.is_nan x = false.

(** [l] is in non-increasing order of [key]: each element has a key at
    least as high as every element behind it. *)
Definition descending {A : Type} (key : A -> float) (l : list A) : Prop :=
  StronglySorted (fun x y => (key y <=? key x)%float = true) l.

(** *** Binary64 *)

(** A number of sign [s] that is not zero and not NaN. *)
Definition signedNonZero (s : bool) (x : spec_float) : Prop :=
  match x with
  | S754_finite s' _ _ => s' = s
  | S754_infinity s' => s' = s
  | _ => False
  end.

(** [m] is the greatest of [sims]: it is one of them, and none of them
    compares greater. *)
Definition greatestOf (m : float) (sims : list float) : Prop :=
  In m sims /\ Forall (fun s => (m <? s)%float = false) sims.

(** *** Search results *)

(** The similarity of a group of chunks is the greatest of theirs. *)
Definition groupedByMaximum (data : SessionService.SessionData) : Prop :=
  greatestOf (SessionService.maxSimilarity data)
             (map snd (SessionService.chunks data)).

(** A result built from the chunks of a session: its similarity is the
    greatest of theirs, and its snippets, when it has some, are built from
    them. *)
Definition builtFromSession (highlightText : jsstring -> list jsstring -> jsstring)
           (terms : list jsstring) (r : SessionService.SessionResult) : Prop :=
  exists data,
    groupedByMaximum data /\
    SessionService.similarity r = SessionService.maxSimilarity data /\
    forall sn, SessionService.snippets r = Some sn ->
               sn = SessionService.buildSnippets highlightText terms data.

(** An entry of [sessionMap] under the key [fst e]: its chunks are
    fetched chunks of that session, each with its similarity to the query,
    and the similarity of the entry is one of theirs. *)
Definition groupOf (similarityTo : Entities.TranscriptChunk -> Outcome float)
           (fetched : list Entities.TranscriptChunk)
           (e : jsstring * SessionService.SessionData) : Prop :=
  Forall (fun p => In (fst p) fetched /\
                   Entities.sessionId (fst p) = fst e /\
                   similarityTo (fst p) = Ok (snd p))
         (SessionService.chunks (snd e)) /\
  In (SessionService.maxSimilarity (snd e))
     (map snd (SessionService.chunks (snd e))).

(** The result pushed for an entry of [sessionMap] whose session is
    found. *)
Definition resultFor (highlightText : jsstring -> list jsstring -> jsstring)
           (terms : list jsstring) (session : Entities.Session)
           (data : SessionService.SessionData) : SessionService.SessionResult :=
  let snips := SessionService.buildSnippets highlightText terms data in
  SessionService.mkSessionResult
    (Entities.id session) (Entities.therapistId session)
    (Entities.clientId session) (Entities.startTime session)
    (Entities.summary session) (SessionService.maxSimilarity data)
    (if (0 <? List.length snips)%nat then Some snips else None).

(** The results of an entry of [sessionMap]: one when
    [SELECT * FROM sessions WHERE id = ?] finds its session, none when it
    does not. *)
Definition storedResult (highlightText : jsstring -> list jsstring -> jsstring)
           (terms : list jsstring) (db : Entities.Database)
           (e : jsstring * SessionService.SessionData)
  : list SessionService.SessionResult :=
  match find (fun s => streq (Entities.id s) (fst e)) (Entities.sessions db) with
  | Some session => [resultFor highlightText terms session (snd e)]
  | None => []
  end.

(** The words of the query that are highlighted. *)
Definition queryTermsOf (query : jsstring) : list jsstring :=
  filter (fun term => 2 <? strlen term) (splitWhiteSpace query).

(** *** Retries *)

(** A call that fails with an error that [retry] retries. *)
Definition retryableFailure {T : Type} (opts : AIRetryHelper.RetryOptions)
           (r : Outcome T) : bool :=
  match r with
  | Throw e => AIRetryHelper.isRetryable opts e
  | Ok _ => false
  end.

(** The trace of [k + 1] invocations: before each one but the first, a
    sleep of the backoff delay of the attempt that failed. *)
Definition retryTrace (opts : AIRetryHelper.RetryOptions) (k : nat)
  : list AIRetryHelper.Event :=
  AIRetryHelper.Invoked
    :: flat_map (fun attempt =>
                   [AIRetryHelper.Slept (AIRetryHelper.backoffDelay opts attempt);
                    AIRetryHelper.Invoked])
                (seq 0 k).

(** The delays slept in a trace, jitter apart. *)
Definition sleeps (trace : list AIRetryHelper.Event) : list Z :=
  flat_map (fun ev => match ev with
                      | AIRetryHelper.Slept d => [d]
                      | AIRetryHelper.Invoked => []
                      end) trace.

(** *** Rate limiter *)

(** The verdicts of successive calls of [checkRateLimit] at the given
    times. *)
Fixpoint verdicts (l : AIRateLimiter.Limiter) (times : list Z)
  : list AIRateLimiter.Verdict :=
  match times with
  | [] => []
  | now :: rest =>
      fst (AIRateLimiter.checkRateLimit l now)
        :: verdicts (snd (AIRateLimiter.checkRateLimit l now)) rest
  end.

(** *** Embedding requests *)

(** The text handed to the provider: the first [maxLength] characters. *)
Definition firstCharacters (maxLength : Z) (text : jsstring) : jsstring :=
  if maxLength <? strlen text then slice text 0 maxLength else text.

Definition isAllowed (v : AIRateLimiter.Verdict) : bool :=
  match v with
  | AIRateLimiter.Allowed => true
  | AIRateLimiter.RateLimited _ => false
  end.


End Spec.

(* ================================================================== *)
(** * Sample data *)
(* ================================================================== *)

Module Samples.
Import JS Entities.

(** An operation that counts its calls, fails with status 429 on the
    first two and succeeds from the third on. *)
Definition flakyOperation (calls : nat) : Outcome nat * nat :=
  (if (calls <? 2)%nat
   then Throw (mkError "Too Many Requests" None (Some 429) None)
   else Ok calls,
   S calls).

(** Three chunks of three sessions, stored in the order C, A, B and read
    back by [ORDER BY timestamp DESC] in the order A, B, C. Against the
    query [2, 0] the similarity of A is 0.707..., that of C is 1, and that
    of B, whose first component is 2^1023, is NaN (infinity divided by
    infinity). *)
Definition chunkA : TranscriptChunk :=
  mkTranscriptChunk (lit "chunk-a") (lit "session-a") None (lit "breathing exercises")
                    [1; 1]%float 0 19 (lit "2024-03-01T10:00:00Z") None.

Definition chunkB : TranscriptChunk :=
  mkTranscriptChunk (lit "chunk-b") (lit "session-b") None (lit "sleep routine")
                    [0x1p+1023; 0]%float 0 13 (lit "2024-02-01T10:00:00Z") None.

Definition chunkC : TranscriptChunk :=
  mkTranscriptChunk (lit "chunk-c") (lit "session-c") None (lit "anxiety at work")
                    [1; 0]%float 0 15 (lit "2024-01-01T10:00:00Z") None.

Definition sampleQuery : vector := [2; 0]%float.

Definition sessionOf (sid : string) : Session :=
  mkSession (lit sid) (lit "therapist-1") (lit "client-1")
            (lit "2024-01-01T09:00:00Z") None.

Definition sampleDatabase : Database :=
  mkDatabase [chunkC; chunkA; chunkB]
             [sessionOf "session-a"; sessionOf "session-b"; sessionOf "session-c"].

(** The same store without the chunk of the huge component. *)
Definition plainDatabase : Database :=
  mkDatabase [chunkC; chunkA]
             [sessionOf "session-a"; sessionOf "session-c"].

(** The world of the samples, a provider that answers every request with
    the sample query vector, and a highlighter that leaves the text as it
    is. *)
Definition sampleWorld : SessionService.World :=
  SessionService.mkWorld sampleDatabase [].

Definition sampleProvider (text : jsstring) : Outcome vector := Ok sampleQuery.

Definition plainText (text : jsstring) (terms : list jsstring) : jsstring := text.

(** Lower case and the canonical form of the flag [i], for texts of
    ASCII characters. *)
Definition asciiLowerCase (s : jsstring) : jsstring :=
  map (fun c => if (N.leb 65 c && N.leb c 90)%bool then (c + 32)%N else c) s.

Definition asciiCanonical (c : code_unit) : code_unit :=
  if (N.leb 97 c && N.leb c 122)%bool then (c - 32)%N else c.

(** An embedding service that hands every text to the provider. *)
Definition forwardingEmbeddingService
  : SessionService.IEmbeddingService SessionService.World :=
  {| SessionService.generateEmbedding := SessionService.request sampleProvider;
     SessionService.cosineSimilarity := OpenAIEmbeddingService.cosineSimilarity |}.

End Samples.

(* ================================================================== *)
(** * SessionService: the other methods *)
(* ================================================================== *)

(** ** Entities (entities/SessionEntry.ts, entities/Session.ts,
       entities/TranscriptChunk.ts) *)

Module SessionEntry.
Import JS.
Record t := mk {
  id : jsstring;
  sessionId : jsstring;
  speaker : jsstring;
  content : option jsstring;
  audioReference : option jsstring;
  transcript : option jsstring;
  timestamp : jsstring;
  createdAt : option jsstring
}.
End SessionEntry.

(** A field of a DTO that the request may leave out is [None]. *)
Module CreateSessionEntryDto.
Import JS.
Record t := mk {
  speaker : option jsstring;
  content : option jsstring;
  audioReference : option jsstring;
  transcript : option jsstring;
  timestamp : option jsstring
}.
End CreateSessionEntryDto.

Module CreateSessionDto.
Import JS.
Record t := mk {
  therapistId : option jsstring;
  clientId : option jsstring;
  startTime : option jsstring
}.
End CreateSessionDto.

Module CreateTranscriptChunkDto.
Import JS Entities.
Record t := mk {
  sessionId : jsstring;
  entryId : option jsstring;
  chunkText : jsstring;
  embedding : vector;
  startIndex : Z;
  endIndex : Z;
  timestamp : jsstring
}.
End CreateTranscriptChunkDto.

Module TranscriptionEntry.
Import JS.
Record t := mk {
  speaker : jsstring;
  content : jsstring;
  timestamp : jsstring
}.
End TranscriptionEntry.

Module TranscriptionResult.
Import JS.
Record t := mk {
  entries : list TranscriptionEntry.t;
  fullTranscript : jsstring
}.
End TranscriptionResult.

(** ** The interfaces in full (repositories/I*.ts, services/I*.ts) *)

Module ISessionRepository.
Import JS Entities SessionService.
Record t (W : Type) := mk {
  create : CreateSessionDto.t -> M W jsstring;
  findById : jsstring -> M W (option Session);
  findByTherapistId : jsstring -> M W (list Session);
  updateSummary : jsstring -> jsstring -> M W unit;
  updateEmbedding : jsstring -> vector -> M W unit;
  findAllWithEmbeddings : M W (list Session);
  findByTherapistWithEmbeddings : jsstring -> M W (list Session)
}.
Arguments create {W}.
Arguments findById {W}.
Arguments findByTherapistId {W}.
Arguments updateSummary {W}.
Arguments updateEmbedding {W}.
Arguments findAllWithEmbeddings {W}.
Arguments findByTherapistWithEmbeddings {W}.
End ISessionRepository.

Module ISessionEntryRepository.
Import JS Entities SessionService.
Record t (W : Type) := mk {
  create : CreateSessionEntryDto.t -> jsstring -> M W jsstring;
  findBySessionId : jsstring -> M W (list SessionEntry.t);
  findBySessionIdAndSpeaker : jsstring -> jsstring -> M W (list SessionEntry.t);
  sessionExists : jsstring -> M W bool
}.
Arguments create {W}.
Arguments findBySessionId {W}.
Arguments findBySessionIdAndSpeaker {W}.
Arguments sessionExists {W}.
End ISessionEntryRepository.

Module ITranscriptChunkRepository.
Import JS Entities SessionService.
Record t (W : Type) := mk {
  create : CreateTranscriptChunkDto.t -> M W jsstring;
  findBySessionId : jsstring -> M W (list TranscriptChunk);
  findSimilarChunks :
    vector -> option (list jsstring) -> nat -> M W (list TranscriptChunk);
  deleteBySessionId : jsstring -> M W unit
}.
Arguments create {W}.
Arguments findBySessionId {W}.
Arguments findSimilarChunks {W}.
Arguments deleteBySessionId {W}.
End ITranscriptChunkRepository.

Module ISummaryService.
Import JS SessionService.
Record t (W : Type) := mk {
  generateSummary : list SessionEntry.t -> M W jsstring
}.
Arguments generateSummary {W}.
End ISummaryService.

Module ITranscriptionService.
Import JS SessionService.
Record t (W : Type) := mk {
  transcribeAudio : option (list N) -> M W TranscriptionResult.t
}.
Arguments transcribeAudio {W}.
End ITranscriptionService.

(** ** createSession, getSession, addSessionEntry, getSessionSummary,
       transcribeSession and embedSession (services/SessionService.ts) *)

Module SessionServiceMethods.
Import JS Entities SessionService.

(** Truthiness of a string that may be missing: [undefined], [null] and
    the empty string are falsy. *)
Definition truthy (s : option jsstring) : bool :=
  match s with
  | Some (_ :: _) => true
  | _ => false
  end.

(** [a || b] on such strings. *)
Definition orElse (a b : option jsstring) : option jsstring :=
  if truthy a then a else b.

Definition doubleQuote : string := String (ascii_of_nat 34) EmptyString.

(** The message [Speaker must be either "therapist" or "client"]. *)
Definition speakerMessage : string :=
  ("Speaker must be either " ++ doubleQuote ++ "therapist" ++ doubleQuote
   ++ " or " ++ doubleQuote ++ "client" ++ doubleQuote)%string.

(** The chunks of a transcript; [TextChunker.chunkText] always returns
    (see [chunkText_returns]). *)
Definition chunksOf (transcript : jsstring) (chunkSize overlap : Z)
  : list TextChunker.Chunk :=
  match TextChunker.chunkText transcript chunkSize overlap with
  | Some chunks => chunks
  | None => []
  end.

Record EntryView := mkEntryView {
  viewId : jsstring;
  viewSpeaker : jsstring;
  viewContent : option jsstring;
  viewAudioReference : option jsstring;
  viewTranscript : option jsstring;
  viewTimestamp : jsstring
}.

Record SessionWithEntries := mkSessionWithEntries {
  withSessionId : jsstring;
  withTherapistId : jsstring;
  withClientId : jsstring;
  withStartTime : jsstring;
  withEntries : list EntryView
}.

Record TranscribeResult := mkTranscribeResult {
  transcribeMessage : jsstring;
  createdEntries : list jsstring;
  fullTranscript : jsstring
}.

Record EmbedResult := mkEmbedResult {
  embedMessage : jsstring;
  embeddingDimensions : Z
}.

Section Methods.
Context {W : Type}.
Variable sessionRepository : ISessionRepository.t W.
Variable entryRepository : ISessionEntryRepository.t W.
Variable chunkRepository : ITranscriptChunkRepository.t W.
Variable summaryService : ISummaryService.t W.
Variable embeddingService : IEmbeddingService W.
Variable transcriptionService : ITranscriptionService.t W.

(** [EnvConfig.CHUNK_SIZE] and [EnvConfig.CHUNK_OVERLAP]. *)
Variable CHUNK_SIZE : Z.
Variable CHUNK_OVERLAP : Z.

Definition createSession (dto : CreateSessionDto.t) : M W jsstring :=
  if negb (truthy (CreateSessionDto.therapistId dto))
     || negb (truthy (CreateSessionDto.clientId dto))
     || negb (truthy (CreateSessionDto.startTime dto))
  then throw (AppError "Missing required fields: therapistId, clientId, startTime"
                       400)
  else ISessionRepository.create sessionRepository dto.

Definition getSession (sessionId : jsstring) : M W SessionWithEntries :=
  session <- ISessionRepository.findById sessionRepository sessionId ;;
  match session with
  | None => throw (AppError "Session not found" 404)
  | Some session =>
      entries <- ISessionEntryRepository.findBySessionId entryRepository
                   sessionId ;;
      ret (mkSessionWithEntries
             (id session) (therapistId session) (clientId session)
             (startTime session)
             (map (fun entry =>
                     mkEntryView (SessionEntry.id entry)
                                 (SessionEntry.speaker entry)
                                 (SessionEntry.content entry)
                                 (SessionEntry.audioReference entry)
                                 (SessionEntry.transcript entry)
                                 (SessionEntry.timestamp entry))
                  entries))
  end.

Definition addSessionEntry (sessionId : jsstring)
           (dto : CreateSessionEntryDto.t) : M W jsstring :=
  if negb (truthy (CreateSessionEntryDto.speaker dto))
     || negb (truthy (CreateSessionEntryDto.timestamp dto))
  then throw (AppError "Missing required fields: speaker, timestamp" 400)
  else
    let isTherapist :=
      match CreateSessionEntryDto.speaker dto with
      | Some s => streq s (lit "therapist")
      | None => false
      end in
    let isClient :=
      match CreateSessionEntryDto.speaker dto with
      | Some s => streq s (lit "client")
      | None => false
      end in
    if negb isTherapist && negb isClient
    then throw (AppError speakerMessage 400)
    else
      session <- ISessionRepository.findById sessionRepository sessionId ;;
      match session with
      | None => throw (AppError "Session not found" 404)
      | Some _ =>
          if negb (truthy (CreateSessionEntryDto.content dto))
             && negb (truthy (CreateSessionEntryDto.audioReference dto))
             && negb (truthy (CreateSessionEntryDto.transcript dto))
          then throw (AppError
                        "Either content or audioReference/transcript must be provided"
                        400)
          else ISessionEntryRepository.create entryRepository dto sessionId
      end.

Definition getSessionSummary (sessionId : jsstring) : M W jsstring :=
  session <- ISessionRepository.findById sessionRepository sessionId ;;
  match session with
  | None => throw (AppError "Session not found" 404)
  | Some session =>
      if truthy (summary session) then
        match summary session with
        | Some existing => ret existing
        | None => ret []
        end
      else
        entries <- ISessionEntryRepository.findBySessionId entryRepository
                     sessionId ;;
        generated <- ISummaryService.generateSummary summaryService entries ;;
        _ <- ISessionRepository.updateSummary sessionRepository
               sessionId generated ;;
        ret generated
  end.

(** The loop [for (const entry of transcription.entries)]. *)
Fixpoint createTranscribed (sessionId : jsstring)
         (entries : list TranscriptionEntry.t) (createdEntries : list jsstring)
  : M W (list jsstring) :=
  match entries with
  | [] => ret createdEntries
  | entry :: rest =>
      result <- ISessionEntryRepository.create entryRepository
                  (CreateSessionEntryDto.mk
                     (Some (TranscriptionEntry.speaker entry))
                     (Some (TranscriptionEntry.content entry))
                     None
                     (Some (TranscriptionEntry.content entry))
                     (Some (TranscriptionEntry.timestamp entry)))
                  sessionId ;;
      createTranscribed sessionId rest (createdEntries ++ [result])
  end.

Definition transcribeSession (sessionId : jsstring)
           (audioBuffer : option (list N)) : M W TranscribeResult :=
  session <- ISessionRepository.findById sessionRepository sessionId ;;
  match session with
  | None => throw (AppError "Session not found" 404)
  | Some _ =>
      transcription <- ITranscriptionService.transcribeAudio
                         transcriptionService audioBuffer ;;
      created <- createTranscribed sessionId
                   (TranscriptionResult.entries transcription) [] ;;
      ret (mkTranscribeResult (lit "Audio transcribed successfully") created
                              (TranscriptionResult.fullTranscript transcription))
  end.

(** The loop [for (const chunk of chunks)] of [embedSession]. *)
Fixpoint embedChunks (sessionId : jsstring) (entry : SessionEntry.t)
         (chunks : list TextChunker.Chunk) (chunkCount : nat) : M W nat :=
  match chunks with
  | [] => ret chunkCount
  | chunk :: rest =>
      chunkEmbedding <- generateEmbedding embeddingService
                          (TextChunker.text chunk) ;;
      _ <- ITranscriptChunkRepository.create chunkRepository
             (CreateTranscriptChunkDto.mk
                sessionId (Some (SessionEntry.id entry))
                (TextChunker.text chunk) chunkEmbedding
                (TextChunker.startIndex chunk) (TextChunker.endIndex chunk)
                (SessionEntry.timestamp entry)) ;;
      embedChunks sessionId entry rest (S chunkCount)
  end.

(** The loop [for (const entry of entries)] of [embedSession]. *)
Fixpoint embedEntries (sessionId : jsstring) (entries : list SessionEntry.t)
         (chunkCount : nat) : M W nat :=
  match entries with
  | [] => ret chunkCount
  | entry :: rest =>
      let transcript :=
        orElse (SessionEntry.transcript entry) (SessionEntry.content entry) in
      match transcript with
      | Some (c :: t) =>
          count <- embedChunks sessionId entry
                     (chunksOf (c :: t) CHUNK_SIZE CHUNK_OVERLAP) chunkCount ;;
          embedEntries sessionId rest count
      | _ => embedEntries sessionId rest chunkCount
      end
  end.

Definition embedSession (sessionId : jsstring) : M W EmbedResult :=
  session <- ISessionRepository.findById sessionRepository sessionId ;;
  match session with
  | None => throw (AppError "Session not found" 404)
  | Some session =>
      summaryText <-
        (if truthy (summary session) then
           match summary session with
           | Some existing => ret existing
           | None => ret []
           end
         else
           entries <- ISessionEntryRepository.findBySessionId entryRepository
                        sessionId ;;
           generated <- ISummaryService.generateSummary summaryService
                          entries ;;
           _ <- ISessionRepository.updateSummary sessionRepository
                  sessionId generated ;;
           ret generated) ;;
      embedding <- generateEmbedding embeddingService summaryText ;;
      _ <- ISessionRepository.updateEmbedding sessionRepository
             sessionId embedding ;;
      entries <- ISessionEntryRepository.findBySessionId entryRepository
                   sessionId ;;
      _ <- ITranscriptChunkRepository.deleteBySessionId chunkRepository
             sessionId ;;
      chunkCount <- embedEntries sessionId entries 0 ;;
      ret (mkEmbedResult
             (lit "Embedding generated and stored successfully. "
                ++ decimal chunkCount ++ lit " transcript chunks embedded.")
             (Z.of_nat (List.length embedding)))
  end.

End Methods.

End SessionServiceMethods.

(** ** Collaborators that record their calls *)

(** Each collaborator is played by a recorder: it appends the call to a
    log and answers from a table of answers. *)
Module Recorder.
Import JS Entities SessionService.

Inductive Call :=
| SessionCreate (dto : CreateSessionDto.t)
| SessionFindById (sessionId : jsstring)
| SessionUpdateSummary (sessionId summary : jsstring)
| SessionUpdateEmbedding (sessionId : jsstring) (embedding : vector)
| EntryCreate (dto : CreateSessionEntryDto.t) (sessionId : jsstring)
| EntryFindBySessionId (sessionId : jsstring)
| ChunkCreate (dto : CreateTranscriptChunkDto.t)
| ChunkDeleteBySessionId (sessionId : jsstring)
| GenerateSummary (entries : list SessionEntry.t)
| GenerateEmbedding (text : jsstring)
| TranscribeAudio (audioBuffer : option (list N))
| Other (method : string).

Definition Log := list Call.

Record Answers := mkAnswers {
  sessionOf : jsstring -> option Session;
  entriesOf : jsstring -> list SessionEntry.t;
  summaryOf : list SessionEntry.t -> Outcome jsstring;
  embeddingOf : jsstring -> Outcome vector;
  transcriptionOf : option (list N) -> Outcome TranscriptionResult.t;
  idOf : nat -> jsstring
}.

Definition record {A : Type} (call : Call) (answer : Outcome A) : M Log A :=
  fun log => (answer, log ++ [call]).

Section Recorders.
Variable answers : Answers.

(** The id of a created row: [randomUUID()], here told by the number of
    calls recorded before. *)
Definition sessionRepository : ISessionRepository.t Log :=
  ISessionRepository.mk Log
    (fun dto log =>
       (Ok (idOf answers (List.length log)), log ++ [SessionCreate dto]))
    (fun sessionId =>
       record (SessionFindById sessionId) (Ok (sessionOf answers sessionId)))
    (fun therapist => record (Other "findByTherapistId") (Ok []))
    (fun sessionId summary =>
       record (SessionUpdateSummary sessionId summary) (Ok tt))
    (fun sessionId embedding =>
       record (SessionUpdateEmbedding sessionId embedding) (Ok tt))
    (record (Other "findAllWithEmbeddings") (Ok []))
    (fun therapist => record (Other "findByTherapistWithEmbeddings") (Ok [])).

Definition entryRepository : ISessionEntryRepository.t Log :=
  ISessionEntryRepository.mk Log
    (fun dto sessionId log =>
       (Ok (idOf answers (List.length log)),
        log ++ [EntryCreate dto sessionId]))
    (fun sessionId =>
       record (EntryFindBySessionId sessionId)
              (Ok (entriesOf answers sessionId)))
    (fun sessionId speaker =>
       record (Other "findBySessionIdAndSpeaker") (Ok []))
    (fun sessionId => record (Other "sessionExists") (Ok false)).

Definition chunkRepository : ITranscriptChunkRepository.t Log :=
  ITranscriptChunkRepository.mk Log
    (fun dto log =>
       (Ok (idOf answers (List.length log)), log ++ [ChunkCreate dto]))
    (fun sessionId => record (Other "findBySessionId") (Ok []))
    (fun queryEmbedding sessionIds limit =>
       record (Other "findSimilarChunks") (Ok []))
    (fun sessionId => record (ChunkDeleteBySessionId sessionId) (Ok tt)).

Definition summaryService : ISummaryService.t Log :=
  ISummaryService.mk Log
    (fun entries => record (GenerateSummary entries) (summaryOf answers entries)).

Definition embeddingService : IEmbeddingService Log :=
  {| generateEmbedding := fun text =>
       record (GenerateEmbedding text) (embeddingOf answers text);
     cosineSimilarity := OpenAIEmbeddingService.cosineSimilarity |}.

Definition transcriptionService : ITranscriptionService.t Log :=
  ITranscriptionService.mk Log
    (fun audioBuffer =>
       record (TranscribeAudio audioBuffer) (transcriptionOf answers audioBuffer)).

End Recorders.

End Recorder.

(** ** Notions the properties of the methods are stated with *)

Module ServiceSpec.
Import JS Entities SessionServiceMethods.

(** The transcript of an entry that [embedSession] chunks:
    [entry.transcript || entry.content], when it is not empty. *)
Definition transcriptOf (entry : SessionEntry.t) : option jsstring :=
  match orElse (SessionEntry.transcript entry) (SessionEntry.content entry) with
  | Some (c :: t) => Some (c :: t)
  | _ => None
  end.

(** The chunk rows of a session: for each entry with a transcript, in
    order, one row for each chunk of the transcript. *)
Definition chunkRows (embed : jsstring -> vector) (chunkSize overlap : Z)
           (sessionId : jsstring) (entries : list SessionEntry.t)
  : list CreateTranscriptChunkDto.t :=
  flat_map
    (fun entry =>
       match transcriptOf entry with
       | Some transcript =>
           map (fun chunk =>
                  CreateTranscriptChunkDto.mk
                    sessionId (Some (SessionEntry.id entry))
                    (TextChunker.text chunk) (embed (TextChunker.text chunk))
                    (TextChunker.startIndex chunk) (TextChunker.endIndex chunk)
                    (SessionEntry.timestamp entry))
               (chunksOf transcript chunkSize overlap)
       | None => []
       end)
    entries.

(** The texts of these chunks. *)
Definition chunkTexts (chunkSize overlap : Z) (entries : list SessionEntry.t)
  : list jsstring :=
  flat_map
    (fun entry =>
       match transcriptOf entry with
       | Some transcript =>
           map TextChunker.text (chunksOf transcript chunkSize overlap)
       | None => []
       end)
    entries.

(** The calls that store one chunk row. *)
Definition storeCalls (dto : CreateTranscriptChunkDto.t) : list Recorder.Call :=
  [Recorder.GenerateEmbedding (CreateTranscriptChunkDto.chunkText dto);
   Recorder.ChunkCreate dto].

(** What the validation of [addSessionEntry] asks of the DTO before the
    session is looked up, and after. *)
Definition speakerGiven (dto : CreateSessionEntryDto.t) : bool :=
  truthy (CreateSessionEntryDto.speaker dto)
  && truthy (CreateSessionEntryDto.timestamp dto).

Definition speakerKnown (dto : CreateSessionEntryDto.t) : bool :=
  match CreateSessionEntryDto.speaker dto with
  | Some s => streq s (lit "therapist") || streq s (lit "client")
  | None => false
  end.

Definition contentGiven (dto : CreateSessionEntryDto.t) : bool :=
  truthy (CreateSessionEntryDto.content dto)
  || truthy (CreateSessionEntryDto.audioReference dto)
  || truthy (CreateSessionEntryDto.transcript dto).

(** A chunk row as [embedSession] builds it from an entry of the
    session: it names the session and the entry, holds the text and the
    span of a chunk of the entry's transcript, the timestamp of the entry,
    and the embedding the provider answered for its text. *)
Definition storedRow (answers : Recorder.Answers) (chunkSize overlap : Z)
           (sessionId : jsstring) (entries : list SessionEntry.t)
           (dto : CreateTranscriptChunkDto.t) : Prop :=
  CreateTranscriptChunkDto.sessionId dto = sessionId /\
  CreateTranscriptChunkDto.chunkText dto <> [] /\
  trim (CreateTranscriptChunkDto.chunkText dto)
  = CreateTranscriptChunkDto.chunkText dto /\
  Recorder.embeddingOf answers (CreateTranscriptChunkDto.chunkText dto)
  = Ok (CreateTranscriptChunkDto.embedding dto) /\
  exists entry transcript,
    In entry entries /\
    transcriptOf entry = Some transcript /\
    CreateTranscriptChunkDto.entryId dto = Some (SessionEntry.id entry) /\
    CreateTranscriptChunkDto.timestamp dto = SessionEntry.timestamp entry /\
    In (TextChunker.mkChunk (CreateTranscriptChunkDto.chunkText dto)
                            (CreateTranscriptChunkDto.startIndex dto)
                            (CreateTranscriptChunkDto.endIndex dto))
       (chunksOf transcript chunkSize overlap).

(** The calls of [embedSession] between the summary and the chunks. *)
Definition embeddingCalls (sessionId text : jsstring) (embedding : vector)
  : list Recorder.Call :=
  [Recorder.GenerateEmbedding text;
   Recorder.SessionUpdateEmbedding sessionId embedding;
   Recorder.EntryFindBySessionId sessionId;
   Recorder.ChunkDeleteBySessionId sessionId].

(** A DTO that [addSessionEntry] accepts for a session. *)
Definition acceptedEntry (answers : Recorder.Answers) (sessionId : jsstring)
           (dto : CreateSessionEntryDto.t) : bool :=
  speakerGiven dto && speakerKnown dto
  && match Recorder.sessionOf answers sessionId with
     | Some _ => true
     | None => false
     end
  && contentGiven dto.

(** The row [transcribeSession] creates for an entry of a transcription. *)
Definition transcribedEntry (entry : TranscriptionEntry.t)
  : CreateSessionEntryDto.t :=
  CreateSessionEntryDto.mk
    (Some (TranscriptionEntry.speaker entry))
    (Some (TranscriptionEntry.content entry))
    None
    (Some (TranscriptionEntry.content entry))
    (Some (TranscriptionEntry.timestamp entry)).

(** The ids the recorders give to [n] rows created one after the other
    when [first] calls were recorded before. *)
Definition createdIds (answers : Recorder.Answers) (first n : nat)
  : list jsstring :=
  map (Recorder.idOf answers) (seq first n).

End ServiceSpec.

(** ** The service wired with the recorders *)

Module RecordedService.
Import JS Entities SessionService Recorder.

Section Service.
Variable answers : Answers.
Variables CHUNK_SIZE CHUNK_OVERLAP : Z.

Definition createSession :=
  SessionServiceMethods.createSession (sessionRepository answers).

Definition getSession :=
  SessionServiceMethods.getSession
    (sessionRepository answers) (entryRepository answers).

Definition addSessionEntry :=
  SessionServiceMethods.addSessionEntry
    (sessionRepository answers) (entryRepository answers).

Definition getSessionSummary :=
  SessionServiceMethods.getSessionSummary
    (sessionRepository answers) (entryRepository answers)
    (summaryService answers).

Definition transcribeSession :=
  SessionServiceMethods.transcribeSession
    (sessionRepository answers) (entryRepository answers)
    (transcriptionService answers).

Definition embedSession :=
  SessionServiceMethods.embedSession
    (sessionRepository answers) (entryRepository answers)
    (chunkRepository answers) (summaryService answers)
    (embeddingService answers) CHUNK_SIZE CHUNK_OVERLAP.

End Service.

End RecordedService.

(** ** Sample answers *)

Module ServiceSamples.
Import JS Entities Recorder.

Definition storedSession : Session :=
  mkSession (lit "session-1") (lit "therapist-1") (lit "client-1")
            (lit "2024-01-01T09:00:00Z") (Some (lit "Talked about sleep.")).

Definition newSession : Session :=
  mkSession (lit "session-2") (lit "therapist-1") (lit "client-2")
            (lit "2024-01-02T09:00:00Z") None.

Definition storedEntry : SessionEntry.t :=
  SessionEntry.mk (lit "entry-1") (lit "session-1") (lit "client")
                  (Some (lit "The quick brown fox jumps")) None None
                  (lit "2024-01-01T09:05:00Z") None.

(** An embedding that tells the length of the text. *)
Definition lengthEmbedding (text : jsstring) : vector :=
  [numberOfZ (strlen text); 1%float].

Definition sampleTranscription : TranscriptionResult.t :=
  TranscriptionResult.mk
    [TranscriptionEntry.mk (lit "therapist") (lit "How did you sleep?")
                           (lit "2024-01-01T09:00:05Z");
     TranscriptionEntry.mk (lit "client") (lit "Badly.")
                           (lit "2024-01-01T09:00:09Z")]
    (lit "How did you sleep? Badly.").

Definition sampleSessions (sessionId : jsstring) : option Session :=
  if streq sessionId (lit "session-1") then Some storedSession
  else if streq sessionId (lit "session-2") then Some newSession
  else None.

Definition sampleEntries (sessionId : jsstring) : list SessionEntry.t :=
  if streq sessionId (lit "session-1") then [storedEntry] else [].

Definition sampleId (n : nat) : jsstring :=
  lit "id-" ++ decimal n.

Definition sampleAnswers : Answers :=
  mkAnswers sampleSessions sampleEntries
            (fun entries => Ok (lit "A summary."))
            (fun text => Ok (lengthEmbedding text))
            (fun audioBuffer => Ok sampleTranscription)
            sampleId.

(** The same answers with a provider that fails on one chunk text. *)
Definition failingAnswers : Answers :=
  mkAnswers sampleSessions sampleEntries
            (fun entries => Ok (lit "A summary."))
            (fun text =>
               if streq text (lit "k brown fo")
               then Throw (Error "OpenAI API error: 500")
               else Ok (lengthEmbedding text))
            (fun audioBuffer => Ok sampleTranscription)
            sampleId.

End ServiceSamples.

(* ================================================================== *)
(** * Database.convertPlaceholders and the statement of findSimilarChunks *)
(* ================================================================== *)

(** ** config/Database.ts *)

Module DatabaseConfig.
Import JS.

Definition questionMark : code_unit := 63%N.
Definition dollar : code_unit := 36%N.

(** [sql.replace(/\?/g, () => `$${paramIndex++}`)]: the text is read
    from the left; each question mark is replaced by what the callback
    returns for it, a dollar sign and the counter, which the callback
    then advances. The result is the new text and the counter. *)
Fixpoint replaceQuestionMarks (sql : jsstring) (paramIndex : nat)
  : jsstring * nat :=
  match sql with
  | [] => ([], paramIndex)
  | c :: rest =>
      if N.eqb c questionMark then
        let (converted, last) := replaceQuestionMarks rest (S paramIndex) in
        (dollar :: decimal paramIndex ++ converted, last)
      else
        let (converted, last) := replaceQuestionMarks rest paramIndex in
        (c :: converted, last)
  end.

(** The result [{ sql, paramIndex }] as a pair. *)
Definition convertPlaceholders (dbType : string) (sql : jsstring)
  : jsstring * nat :=
  if negb (String.eqb dbType "postgres") then (sql, 0%nat)
  else
    let (converted, paramIndex) := replaceQuestionMarks sql 1 in
    (converted, (paramIndex - 1)%nat).

End DatabaseConfig.

(** ** The statement and the parameters of
       [TranscriptChunkRepository.findSimilarChunks] *)

Module ChunkStatements.
Import JS.

Definition quoted (name : string) : jsstring :=
  lit (SessionServiceMethods.doubleQuote ++ name
       ++ SessionServiceMethods.doubleQuote)%string.

(** [query] and [params] as [findSimilarChunks] hands them to
    [db.query]. *)
Definition findSimilarChunks (sessionIds : option (list jsstring))
  : jsstring * list jsstring :=
  let query := lit "SELECT * FROM transcript_chunks" in
  let '(query, params) :=
    match sessionIds with
    | Some (first :: others) =>
        let placeholders :=
          join (lit ",") (map (fun _ => lit "?") (first :: others)) in
        (query ++ lit " WHERE " ++ quoted "sessionId" ++ lit " IN ("
               ++ placeholders ++ lit ")",
         first :: others)
    | _ => (query, [])
    end in
  (query ++ lit " ORDER BY timestamp DESC", params).

End ChunkStatements.

(* ================================================================== *)
(** * OpenAISummaryService.generateSummary *)
(* ================================================================== *)

Module OpenAISummaryService.
Import JS.

(** The answer of [fetch] as far as the retried closure reads it:
    [response.ok], [response.status], the text that [JSON.stringify]
    gives for the body of an error answer, and what the body of a good
    answer holds at [data.choices[0]?.message?.content]: a string, or
    nothing; reading the body can throw an error of the run time. *)
Record Response := mkResponse {
  ok : bool;
  responseCode : Z;
  errorJson : string;
  contentField : Outcome (option jsstring)
}.

(** The template string [OpenAI API error: ${response.status} - ${...}]. *)
Definition apiErrorMessage (response : Response) : string :=
  ("OpenAI API error: "
   ++ NilZero.string_of_int (Z.to_int (responseCode response))
   ++ " - " ++ errorJson response)%string.

Definition newline : code_unit := 10%N.

(** [`${role}: ${content}`] for one entry. *)
Definition line (entry : SessionEntry.t) : jsstring :=
  let role :=
    if streq (SessionEntry.speaker entry) (lit "therapist")
    then lit "Therapist" else lit "Client" in
  let content :=
    match SessionServiceMethods.orElse (SessionEntry.content entry)
                                       (SessionEntry.transcript entry) with
    | Some (c :: t) => c :: t
    | _ => []
    end in
  role ++ lit ": " ++ content.

Definition conversation (entries : list SessionEntry.t) : jsstring :=
  join [newline; newline] (map line entries).

Definition prompt (entries : list SessionEntry.t) : jsstring :=
  lit "Summarize the following therapy session conversation. Focus on key themes, emotions, and progress:"
    ++ [newline; newline] ++ conversation entries
    ++ [newline; newline] ++ lit "Summary:".

Section Request.
Context {W : Type}.

(** [fetch] with the prompt as the content of the user message. *)
Variable fetch : jsstring -> W -> Outcome Response * W.

(** The closure handed to [AIRetryHelper.retry]. *)
Definition requestSummary (userContent : jsstring) (w : W)
  : Outcome jsstring * W :=
  match fetch userContent w with
  | (Throw e, w1) => (Throw e, w1)
  | (Ok response, w1) =>
      if negb (ok response) then
        (Throw (Error (apiErrorMessage response)), w1)
      else
        match contentField response with
        | Throw e => (Throw e, w1)
        | Ok (Some (c :: t)) => (Ok (c :: t), w1)
        | Ok _ => (Ok (lit "Unable to generate summary."), w1)
        end
  end.

Definition generateSummary (entries : list SessionEntry.t) (w : W)
  : Outcome jsstring * W :=
  match entries with
  | [] => (Ok (lit "No session entries available for summarization."), w)
  | _ :: _ =>
      let '(result, w', _) :=
        AIRetryHelper.retry (requestSummary (prompt entries))
                            AIRetryHelper.defaultOptions w in
      (result, w')
  end.

End Request.

End OpenAISummaryService.

(** A provider of summaries that counts the requests and answers every
    one with a body without content. *)
Module SummarySamples.
Import JS.


End SummarySamples.

(** ** Notions the properties of the statements are stated with *)

Module StatementSpec.
Import JS DatabaseConfig.

(** The pieces of a text between its question marks. *)
Fixpoint pieces (sql : jsstring) : list jsstring :=
  match sql with
  | [] => [[]]
  | c :: rest =>
      if N.eqb c questionMark then [] :: pieces rest
      else match pieces rest with
           | [] => [[c]]
           | piece :: others => (c :: piece) :: others
           end
  end.

(** The pieces put together again with the placeholders [$k], [$k+1],
    ... between them. *)
Fixpoint numbered (parts : list jsstring) (k : nat) : jsstring :=
  match parts with
  | [] => []
  | part :: rest =>
      match rest with
      | [] => part
      | _ :: _ => part ++ dollar :: decimal k ++ numbered rest (S k)
      end
  end.

(** The placeholders [$first], ..., [$(first + n - 1)]. *)
Definition placeholders (first n : nat) : list jsstring :=
  map (fun k => dollar :: decimal k) (seq first n).

End StatementSpec.

(* ================================================================== *)
(** * Strings: slice, trim, lastIndexOf *)
(* ================================================================== *)

Section StringFacts.
Import JS Spec.

Lemma slice_sub {A : Type} (s : list A) (a b : Z) :
  0 <= a <= Z.of_nat (List.length s) ->
  0 <= b <= Z.of_nat (List.length s) ->
  slice s a b = sub s a b.
Proof.
  intros Ha Hb. unfold slice, sub, clampIndex.
  destruct (Z.ltb_spec a 0); [lia|].
  destruct (Z.ltb_spec b 0); [lia|].
  rewrite !Z.min_l by lia. reflexivity.
Qed.

Lemma sub_length {A : Type} (s : list A) (a b : Z) :
  0 <= a -> a <= b -> b <= Z.of_nat (List.length s) ->
  Z.of_nat (List.length (sub s a b)) = b - a.
Proof.
  intros. unfold sub. rewrite length_firstn, length_skipn. lia.
Qed.

Lemma sub_sub {A : Type} (s : list A) (a b c : Z) :
  0 <= a -> 0 <= c -> a + c <= b ->
  sub (sub s a b) 0 c = sub s a (a + c).
Proof.
  intros. unfold sub. simpl skipn.
  replace (Z.to_nat (c - 0)) with (Z.to_nat c) by lia.
  replace (Z.to_nat (a + c - a)) with (Z.to_nat c) by lia.
  rewrite firstn_firstn. f_equal. lia.
Qed.

Lemma sub_In (s : jsstring) (a b i : Z) (ch : code_unit) :
  0 <= a -> a <= i < b -> charAt s i = Some ch -> In ch (sub s a b).
Proof.
  intros Ha Hi Hc. unfold charAt in Hc.
  destruct (Z.ltb_spec i 0); [lia|].
  unfold sub.
  assert (Hn : nth_error (firstn (Z.to_nat (b - a)) (skipn (Z.to_nat a) s))
                         (Z.to_nat (i - a)) = Some ch).
  { rewrite nth_error_firstn.
    destruct (Nat.ltb_spec (Z.to_nat (i - a)) (Z.to_nat (b - a))); [|lia].
    rewrite nth_error_skipn.
    replace (Z.to_nat a + Z.to_nat (i - a))%nat with (Z.to_nat i) by lia.
    exact Hc. }
  eapply nth_error_In; eauto.
Qed.

Lemma lastIndexOf_from_bounds c s i found :
  found < i ->
  found <= lastIndexOf_from c s i found < i + Z.of_nat (List.length s).
Proof.
  revert i found. induction s as [|x t IH]; intros i found H; simpl.
  - lia.
  - destruct (N.eqb x c).
    + specialize (IH (i + 1) i ltac:(lia)). lia.
    + specialize (IH (i + 1) found ltac:(lia)). lia.
Qed.

Lemma lastIndexOf_bounds c s :
  -1 <= lastIndexOf c s < Z.of_nat (List.length s).
Proof.
  unfold lastIndexOf.
  pose proof (lastIndexOf_from_bounds c s 0 (-1) ltac:(lia)). lia.
Qed.

(** *** trim *)

Lemma trimStart_head s :
  match trimStart s with
  | [] => True
  | c :: _ => isWhiteSpace c = false
  end.
Proof.
  induction s as [|c t IH]; simpl; [exact I|].
  destruct (isWhiteSpace c) eqn:E; [exact IH | exact E].
Qed.

Lemma trimStart_fixed s :
  match s with [] => True | c :: _ => isWhiteSpace c = false end ->
  trimStart s = s.
Proof.
  destruct s as [|c t]; simpl; [reflexivity|]. intros ->. reflexivity.
Qed.

Lemma trimStart_idem s : trimStart (trimStart s) = trimStart s.
Proof. apply trimStart_fixed, trimStart_head. Qed.

Lemma trimStart_In s ch :
  In ch s -> isWhiteSpace ch = false -> In ch (trimStart s).
Proof.
  induction s as [|c t IH]; simpl; [tauto|].
  intros [->|H] Hw.
  - rewrite Hw. left. reflexivity.
  - destruct (isWhiteSpace c); [auto | right; exact H].
Qed.

Lemma trimStart_app_keep s t c :
  isWhiteSpace c = false -> trimStart (s ++ c :: t) = trimStart (s ++ [c]) ++ t.
Proof.
  intros Hc. induction s as [|x s IH]; simpl.
  - rewrite Hc. reflexivity.
  - destruct (isWhiteSpace x); [exact IH | ].
    simpl. rewrite <- app_assoc. reflexivity.
Qed.

Lemma trimEnd_In s ch :
  In ch s -> isWhiteSpace ch = false -> In ch (trimEnd s).
Proof.
  intros H Hw. unfold trimEnd. apply in_rev. rewrite rev_involutive.
  apply trimStart_In; [apply in_rev; rewrite rev_involutive; exact H | exact Hw].
Qed.

Lemma trim_In s ch :
  In ch s -> isWhiteSpace ch = false -> In ch (trim s).
Proof.
  intros. unfold trim. apply trimEnd_In; [apply trimStart_In|]; assumption.
Qed.

Lemma trimEnd_idem s : trimEnd (trimEnd s) = trimEnd s.
Proof.
  unfold trimEnd. rewrite rev_involutive, trimStart_idem. reflexivity.
Qed.

(** Stripping the end keeps a first character that is not white space. *)
Lemma trimEnd_head s :
  match s with [] => True | c :: _ => isWhiteSpace c = false end ->
  match trimEnd s with [] => True | c :: _ => isWhiteSpace c = false end.
Proof.
  destruct s as [|c t]; [intros _; exact I|]. intros Hc.
  unfold trimEnd. simpl rev.
  rewrite trimStart_app_keep with (t := []) by exact Hc.
  rewrite app_nil_r.
  assert (Hin : In c (trimStart (rev t ++ [c]))).
  { apply trimStart_In; [apply in_or_app; right; left; reflexivity | exact Hc]. }
  pose proof (trimStart_head (rev t ++ [c])) as Hh.
  remember (trimStart (rev t ++ [c])) as u eqn:Eu.
  assert (Hlast : exists v, u = v ++ [c]).
  { clear Hh Hin. subst u. induction (rev t) as [|x r IH]; simpl.
    - rewrite Hc. exists []. reflexivity.
    - destruct (isWhiteSpace x); [exact IH|]. exists (x :: r). reflexivity. }
  destruct Hlast as [v ->]. rewrite rev_app_distr. simpl. exact Hc.
Qed.

Lemma trim_idem s : trim (trim s) = trim s.
Proof.
  unfold trim.
  rewrite (trimStart_fixed (trimEnd (trimStart s))).
  - apply trimEnd_idem.
  - apply trimEnd_head, trimStart_head.
Qed.

End StringFacts.

(* ================================================================== *)
(** * TextChunker: the loop and what it emits *)
(* ================================================================== *)

Section ChunkerFacts.
Import JS Spec TextChunker.

Variable txt : jsstring.
Variables chunkSize overlap : Z.

(** The span of a pushed chunk is never wider than [chunkSize], and its
    text is the result of a [trim]. *)
Lemma window_span start c next :
  window txt chunkSize overlap start = (c, next) ->
  endIndex c - startIndex c <= chunkSize /\ exists s, text c = trim s.
Proof.
  unfold window.
  set (e := Z.min (start + chunkSize) (strlen txt)).
  set (ct := slice txt start e).
  destruct ((e <? strlen txt) && (strlen ct =? chunkSize)) eqn:Hc.
  - apply andb_true_iff in Hc. destruct Hc as [_ Hlen].
    apply Z.eqb_eq in Hlen.
    pose proof (lastIndexOf_bounds space ct) as Hb. unfold strlen in Hlen.
    destruct (pastThreshold (lastIndexOf space ct) chunkSize);
      intros [= <- <-]; simpl; (split; [lia | eexists; reflexivity]).
  - intros [= <- <-]; simpl. split; [lia | eexists; reflexivity].
Qed.

(** A window that starts inside the text: its chunk holds the trimmed
    characters of its span, and the next window starts at the end of the
    span or [overlap] before it. *)
Lemma window_inside start c next :
  window txt chunkSize overlap start = (c, next) ->
  0 <= start < strlen txt -> 0 < chunkSize ->
  startIndex c = start /\
  endIndex c <= strlen txt /\
  text c = trim (sub txt start (endIndex c)) /\
  (next = endIndex c \/ next = endIndex c - overlap).
Proof.
  intros Hw Hs Hcs. unfold window in Hw. unfold strlen in *.
  set (e := Z.min (start + chunkSize) (Z.of_nat (List.length txt))) in *.
  assert (He : start <= e <= Z.of_nat (List.length txt)) by lia.
  assert (Hct : slice txt start e = sub txt start e)
    by (apply slice_sub; lia).
  rewrite Hct in Hw.
  assert (Hlen : Z.of_nat (List.length (sub txt start e)) = e - start)
    by (apply sub_length; lia).
  destruct ((e <? Z.of_nat (List.length txt))
            && (Z.of_nat (List.length (sub txt start e)) =? chunkSize)) eqn:Hc.
  - apply andb_true_iff in Hc. destruct Hc as [_ Hfull].
    apply Z.eqb_eq in Hfull.
    pose proof (lastIndexOf_bounds space (sub txt start e)) as Hb.
    destruct (pastThreshold (lastIndexOf space (sub txt start e)) chunkSize).
    + injection Hw as <- <-. simpl.
      repeat split; try lia.
      rewrite slice_sub by lia.
      rewrite sub_sub by lia.
      do 2 f_equal. lia.
    + injection Hw as <- <-. simpl. repeat split; lia.
  - injection Hw as <- <-. simpl. repeat split; lia.
Qed.

(** The loop only appends to the chunks it holds. *)
Lemma chunkLoop_extends fuel : forall start acc ws,
  chunkLoop fuel txt chunkSize overlap start acc = Some ws ->
  exists more, ws = acc ++ more.
Proof.
  induction fuel as [|fuel IH]; intros start acc ws; simpl; [discriminate|].
  destruct (start <? strlen txt).
  - destruct (window txt chunkSize overlap start) as [c next].
    destruct (1000 <? Z.of_nat (List.length (acc ++ [c]))).
    + intros [= <-]. exists [c]. reflexivity.
    + intros H. apply IH in H. destruct H as [more ->].
      exists (c :: more). rewrite <- app_assoc. reflexivity.
  - intros [= <-]. exists []. rewrite app_nil_r. reflexivity.
Qed.

(** A property of every pushed chunk holds of every chunk held when the
    loop is left. *)
Lemma chunkLoop_Forall (P : Chunk -> Prop) :
  (forall start c next,
      window txt chunkSize overlap start = (c, next) -> P c) ->
  forall fuel start acc ws,
    chunkLoop fuel txt chunkSize overlap start acc = Some ws ->
    Forall P acc -> Forall P ws.
Proof.
  intros HP. induction fuel as [|fuel IH]; intros start acc ws; simpl;
    [discriminate|].
  destruct (start <? strlen txt).
  - destruct (window txt chunkSize overlap start) as [c next] eqn:Hw.
    assert (Hacc : Forall P acc -> Forall P (acc ++ [c])).
    { intros Ha. apply Forall_app. split; [exact Ha|].
      constructor; [eapply HP; eauto | constructor]. }
    destruct (1000 <? Z.of_nat (List.length (acc ++ [c]))).
    + intros [= <-] Ha. auto.
    + intros H Ha. eapply IH; eauto.
  - intros [= <-] Ha. exact Ha.
Qed.

(** The loop is left before the fuel runs out, holding at most 1001
    chunks. *)
Lemma chunkLoop_leaves fuel : forall start acc,
  (List.length acc <= 1000)%nat ->
  (1001 <= fuel + List.length acc)%nat ->
  exists ws, chunkLoop fuel txt chunkSize overlap start acc = Some ws /\
             (List.length ws <= 1001)%nat.
Proof.
  induction fuel as [|fuel IH]; intros start acc Hacc Hfuel; [lia|].
  simpl. destruct (start <? strlen txt).
  - destruct (window txt chunkSize overlap start) as [c next].
    assert (Hlen : List.length (acc ++ [c]) = S (List.length acc))
      by (rewrite length_app; simpl; lia).
    destruct (Z.ltb_spec 1000 (Z.of_nat (List.length (acc ++ [c])))).
    + eexists. split; [reflexivity | lia].
    + apply IH; lia.
  - eexists. split; [reflexivity | lia].
Qed.

(** More fuel does not change what the loop returns. *)
Lemma chunkLoop_more_fuel fuel : forall start acc ws extra,
  chunkLoop fuel txt chunkSize overlap start acc = Some ws ->
  chunkLoop (fuel + extra) txt chunkSize overlap start acc = Some ws.
Proof.
  induction fuel as [|fuel IH]; intros start acc ws extra; simpl;
    [discriminate|].
  destruct (start <? strlen txt); [|auto].
  destruct (window txt chunkSize overlap start) as [c next].
  destruct (1000 <? Z.of_nat (List.length (acc ++ [c]))); [auto|].
  apply IH.
Qed.

Lemma filter_covered (acc : list Chunk) c i :
  covered (filter nonEmptyText acc) i ->
  covered (filter nonEmptyText (acc ++ [c])) i.
Proof.
  intros [c' [Hin Hi]]. exists c'. split; [|exact Hi].
  rewrite filter_app. apply in_or_app. left. exact Hin.
Qed.

(** When the loop is left with the text exhausted and every window
    started at an offset that is not negative, each character that is
    not white space lies in the span of a chunk that survives the
    filter. *)
Lemma chunkLoop_covers fuel : forall start acc ws,
  chunkLoop fuel txt chunkSize overlap start acc = Some ws ->
  (List.length ws <= 1000)%nat ->
  Forall (fun c => 0 <= startIndex c) ws ->
  0 <= overlap -> 0 < chunkSize ->
  (forall i ch, i < start -> charAt txt i = Some ch ->
                isWhiteSpace ch = false ->
                covered (filter nonEmptyText acc) i) ->
  spansCoverWords txt (filter nonEmptyText ws).
Proof.
  induction fuel as [|fuel IH]; intros start acc ws Hrun Hcap Hpos Hov Hcs Hinv;
    simpl in Hrun; [discriminate|].
  destruct (Z.ltb_spec start (strlen txt)) as [Hlt|Hge].
  - destruct (window txt chunkSize overlap start) as [c next] eqn:Hw.
    destruct (Z.ltb_spec 1000 (Z.of_nat (List.length (acc ++ [c])))) as [Hfull|Hroom].
    + injection Hrun as <-. lia.
    + destruct (chunkLoop_extends _ _ _ _ Hrun) as [more Hmore].
      assert (Hc0 : 0 <= startIndex c).
      { rewrite Forall_forall in Hpos. apply Hpos. rewrite Hmore.
        apply in_or_app. left. apply in_or_app. right. left. reflexivity. }
      assert (Hstart : startIndex c = start).
      { unfold window in Hw.
        destruct (_ && _); [destruct (pastThreshold _ _)|];
          injection Hw as <- _; reflexivity. }
      destruct (window_inside _ _ _ Hw ltac:(lia) Hcs)
        as [_ [Hend [Htext Hnext]]].
      eapply IH; eauto.
      intros i ch Hi Hch Hws.
      destruct (Z.ltb_spec i start) as [Hold|Hnew].
      * apply filter_covered. eauto.
      * assert (Hi0 : 0 <= i)
          by (unfold charAt in Hch; destruct (Z.ltb_spec i 0);
              [discriminate | lia]).
        exists c. split; [|lia].
        rewrite filter_app. apply in_or_app. right. simpl.
        assert (Hne : nonEmptyText c = true).
        { unfold nonEmptyText, strlen. rewrite Htext.
          assert (Hin : In ch (trim (sub txt start (endIndex c)))).
          { apply trim_In; [|exact Hws].
            eapply sub_In; eauto; lia. }
          destruct (trim (sub txt start (endIndex c)));
            [destruct Hin | reflexivity]. }
        rewrite Hne. left. reflexivity.
  - injection Hrun as <-.
    intros i ch Hch Hws. eapply Hinv; eauto.
    unfold charAt in Hch. destruct (Z.ltb_spec i 0); [discriminate|].
    assert (Hn : nth_error txt (Z.to_nat i) <> None) by congruence.
    apply nth_error_Some in Hn. unfold strlen in Hge. lia.
Qed.

(** *** Windows that move forward *)

Variable step : Z.
Hypothesis Hoverlap : 0 <= overlap.
Hypothesis Hadvances : advancesBy step chunkSize overlap = true.

Lemma advancesBy_step : 1 <= step <= chunkSize - overlap.
Proof.
  unfold advancesBy in Hadvances.
  apply andb_true_iff in Hadvances. destruct Hadvances as [H _].
  apply andb_true_iff in H. destruct H as [H1 H2].
  apply Z.leb_le in H1, H2. lia.
Qed.

Lemma advancesBy_break lastSpaceIndex :
  -1 <= lastSpaceIndex < chunkSize ->
  pastThreshold lastSpaceIndex chunkSize = true ->
  overlap + step <= lastSpaceIndex + 1.
Proof.
  intros Hrange Hpast. unfold advancesBy in Hadvances.
  apply andb_true_iff in Hadvances. destruct Hadvances as [_ Hall].
  rewrite forallb_forall in Hall.
  specialize (Hall (Z.to_nat (lastSpaceIndex + 1))).
  replace (Z.of_nat (Z.to_nat (lastSpaceIndex + 1)) - 1) with lastSpaceIndex
    in Hall by lia.
  cbv zeta in Hall. rewrite Hpast in Hall. simpl in Hall.
  apply Z.leb_le. apply Hall. apply in_seq. lia.
Qed.

(** A window inside the text is followed by a window at least [step]
    characters further on, or ends the text. *)
Lemma window_advances start c next :
  window txt chunkSize overlap start = (c, next) ->
  0 <= start < strlen txt ->
  start + step <= next \/ next = strlen txt.
Proof.
  intros Hw Hs. pose proof advancesBy_step as Hstep.
  unfold window in Hw. unfold strlen in *.
  set (e := Z.min (start + chunkSize) (Z.of_nat (List.length txt))) in *.
  assert (Hct : slice txt start e = sub txt start e)
    by (apply slice_sub; lia).
  rewrite Hct in Hw.
  assert (Hlen : Z.of_nat (List.length (sub txt start e)) = e - start)
    by (apply sub_length; lia).
  destruct (Z.ltb_spec e (Z.of_nat (List.length txt))) as [Hin|Hend];
    cbn [andb] in Hw.
  - destruct (Z.eqb_spec (Z.of_nat (List.length (sub txt start e))) chunkSize)
      as [Hfull|Hshort]; [|exfalso; apply Hshort; rewrite Hlen; unfold e; lia].
    pose proof (lastIndexOf_bounds space (sub txt start e)) as Hb.
    destruct (pastThreshold (lastIndexOf space (sub txt start e)) chunkSize)
      eqn:Hpast; injection Hw as <- <-.
    + assert (overlap + step <= lastIndexOf space (sub txt start e) + 1)
        by (apply advancesBy_break; auto; lia).
      left. lia.
    + left. lia.
  - injection Hw as <- <-. right. unfold e in *. lia.
Qed.

(** Then no window starts before offset 0, and [step] characters are left
    behind for every chunk that is pushed but the last one. *)
Lemma chunkLoop_advancing fuel : forall start acc ws,
  chunkLoop fuel txt chunkSize overlap start acc = Some ws ->
  0 <= start ->
  Forall (fun c => 0 <= startIndex c) acc ->
  Forall (fun c => 0 <= startIndex c) ws /\
  step * (Z.of_nat (List.length ws) - Z.of_nat (List.length acc))
  <= Z.max 0 (strlen txt - start + step - 1).
Proof.
  pose proof advancesBy_step as Hstep.
  induction fuel as [|fuel IH]; intros start acc ws Hrun Hs Hacc;
    simpl in Hrun; [discriminate|].
  destruct (Z.ltb_spec start (strlen txt)) as [Hlt|Hge].
  - destruct (window txt chunkSize overlap start) as [c next] eqn:Hw.
    pose proof (window_advances _ _ _ Hw ltac:(lia)) as Hnext.
    destruct (window_inside _ _ _ Hw ltac:(lia) ltac:(lia)) as [Hstart _].
    assert (Hacc' : Forall (fun c => 0 <= startIndex c) (acc ++ [c])).
    { apply Forall_app. split; [exact Hacc|].
      constructor; [lia | constructor]. }
    assert (Hlen : Z.of_nat (List.length (acc ++ [c]))
                   = Z.of_nat (List.length acc) + 1)
      by (rewrite length_app; simpl; lia).
    destruct (Z.ltb_spec 1000 (Z.of_nat (List.length (acc ++ [c])))).
    + injection Hrun as <-. split; [exact Hacc'|]. rewrite Hlen. lia.
    + destruct (IH next (acc ++ [c]) ws Hrun ltac:(lia) Hacc')
        as [Hpos Hcount].
      split; [exact Hpos|]. rewrite Hlen in Hcount.
      destruct Hnext as [Hfar|Hlast]; [nia|].
      subst next. rewrite Z.max_r in Hcount by lia.
      assert (Z.of_nat (List.length ws) - (Z.of_nat (List.length acc) + 1) <= 0)
        by nia.
      nia.
  - injection Hrun as <-. split; [exact Hacc | lia].
Qed.

End ChunkerFacts.

Section ChunkerClaims.
Import JS Spec TextChunker.

(** [chunkText] always returns: whatever the text, the size and the
    overlap, the loop is left within the 1001 turns of [loopFuel], and
    any larger fuel yields the same chunks. *)
Lemma chunkText_returns txt chunkSize overlap :
  exists windows,
    chunkWindows txt chunkSize overlap = Some windows /\
    (List.length windows <= 1001)%nat /\
    chunkText txt chunkSize overlap = Some (filter nonEmptyText windows) /\
    forall extra,
      chunkTextFuel (loopFuel + extra) txt chunkSize overlap
      = Some (filter nonEmptyText windows).
Proof.
  unfold chunkText, chunkTextFuel, chunkWindows, chunkWindowsFuel.
  destruct (strlen txt =? 0).
  - exists []. repeat split; simpl; auto; lia.
  - destruct (chunkLoop_leaves txt chunkSize overlap loopFuel 0 [])
      as [ws [Hrun Hlen]]; [simpl; lia | unfold loopFuel; simpl; lia |].
    exists ws. rewrite Hrun. repeat split; auto.
    intros extra.
    rewrite (chunkLoop_more_fuel _ _ _ _ _ _ _ extra Hrun). reflexivity.
Qed.

(** C2 as amended. For every text, chunk size and overlap (degenerate
    ones included) [chunkText] terminates and emits at most 1001 chunks:
    the loop is left through [break] when it holds more than 1000
    chunks, which is at the 1001st. *)
Theorem chunkText_terminates_at_most_1001 :
  forall txt chunkSize overlap,
  exists chunks,
    chunkText txt chunkSize overlap = Some chunks /\
    (List.length chunks <= 1001)%nat /\
    forall extra,
      chunkTextFuel (loopFuel + extra) txt chunkSize overlap = Some chunks.
Proof.
  intros txt chunkSize overlap.
  destruct (chunkText_returns txt chunkSize overlap)
    as [ws [_ [Hlen [Hres Hfuel]]]].
  exists (filter nonEmptyText ws). repeat split; auto.
  pose proof (filter_length_le nonEmptyText ws). lia.
Qed.

(** C2 as stated fails: a text of 1500 letters cut with
    [chunkSize = 2] and [overlap = 1] yields 1001 chunks. *)
Lemma chunkText_emits_1001 :
  0 < 1 < 2 /\
  option_map (@List.length Chunk) (chunkText (repeat 97%N 1500) 2 1)
  = Some 1001%nat /\
  ~ (1001 <= 1000)%nat.
Proof.
  split; [lia|]. split; [vm_compute; reflexivity | lia].
Qed.

(** The same with the degenerate [overlap = chunkSize], where the
    window never moves. *)
Example chunkText_stuck_window :
  option_map (@List.length Chunk) (chunkText (lit "ab") 1 1) = Some 1001%nat.
Proof. vm_compute. reflexivity. Qed.

(** The windows of a run and the chunks it returns. *)
Lemma chunkText_windows txt chunkSize overlap chunks :
  chunkText txt chunkSize overlap = Some chunks ->
  exists windows,
    chunkWindows txt chunkSize overlap = Some windows /\
    chunks = filter nonEmptyText windows.
Proof.
  intros Hres. unfold chunkText, chunkTextFuel in Hres.
  fold (chunkWindows txt chunkSize overlap) in Hres.
  destruct (chunkWindows txt chunkSize overlap) as [ws|]; [|discriminate].
  injection Hres as <-. exists ws. split; reflexivity.
Qed.

(** No emitted span is wider than [chunkSize], and every emitted text is
    trimmed and not empty. *)
Lemma chunkText_chunks_trimmed txt chunkSize overlap chunks :
  0 < overlap < chunkSize ->
  chunkText txt chunkSize overlap = Some chunks ->
  forall c, In c chunks ->
            endIndex c - startIndex c <= chunkSize /\
            text c <> [] /\ trim (text c) = text c.
Proof.
  intros Hov Hres c Hin.
  destruct (chunkText_windows _ _ _ _ Hres) as [ws [Hws ->]].
  apply filter_In in Hin. destruct Hin as [Hin Hne].
  assert (Hall : Forall (fun c => endIndex c - startIndex c <= chunkSize
                                  /\ exists s, text c = trim s) ws).
  { unfold chunkWindows, chunkWindowsFuel in Hws.
    destruct (strlen txt =? 0).
    - injection Hws as <-. constructor.
    - eapply chunkLoop_Forall; [|exact Hws|constructor].
      intros start c' next Hw. eapply window_span; eauto. }
  rewrite Forall_forall in Hall. destruct (Hall c Hin) as [Hspan [s Hs]].
  split; [exact Hspan|]. split.
  - unfold nonEmptyText, strlen in Hne. intros E. rewrite E in Hne.
    discriminate.
  - rewrite Hs. apply trim_idem.
Qed.

(** A run that is left before the cap and has no window at a negative
    offset covers every character that is not white space. *)
Lemma chunkText_covers_words txt chunkSize overlap windows :
  0 < overlap < chunkSize ->
  chunkWindows txt chunkSize overlap = Some windows ->
  (List.length windows <= 1000)%nat ->
  Forall (fun c => 0 <= startIndex c) windows ->
  spansCoverWords txt (filter nonEmptyText windows).
Proof.
  intros Hov Hws Hcap Hpos.
  unfold chunkWindows, chunkWindowsFuel in Hws.
  destruct (Z.eqb_spec (strlen txt) 0) as [Hz|Hnz].
  - injection Hws as <-. intros i ch Hch _. exfalso.
    unfold charAt in Hch. destruct (i <? 0); [discriminate|].
    unfold strlen in Hz. destruct txt; [|simpl in Hz; lia].
    destruct (Z.to_nat i); discriminate.
  - eapply chunkLoop_covers; eauto; try lia.
    intros i ch Hi Hch _. exfalso.
    unfold charAt in Hch. destruct (Z.ltb_spec i 0); [discriminate|lia].
Qed.

(** When every window moves forward by at least [step] characters, a
    text of at most [1000 * step] characters is cut before the cap and
    into windows at offsets that are not negative. *)
Lemma chunkText_advancing txt chunkSize overlap step windows :
  0 < overlap < chunkSize ->
  advancesBy step chunkSize overlap = true ->
  strlen txt <= 1000 * step ->
  chunkWindows txt chunkSize overlap = Some windows ->
  (List.length windows <= 1000)%nat /\
  Forall (fun c => 0 <= startIndex c) windows.
Proof.
  intros Hov Hstep Hlen Hws.
  unfold chunkWindows, chunkWindowsFuel in Hws.
  destruct (Z.eqb_spec (strlen txt) 0) as [Hz|Hnz].
  - injection Hws as <-. split; [simpl; lia | constructor].
  - pose proof (advancesBy_step chunkSize overlap step Hstep) as Hs.
    destruct (chunkLoop_advancing txt chunkSize overlap step ltac:(lia) Hstep
                _ _ _ _ Hws ltac:(lia) ltac:(constructor))
      as [Hpos Hcount].
    split; [|exact Hpos].
    simpl List.length in Hcount. unfold strlen in *. nia.
Qed.

(** C1 as amended. For [0 < overlap < chunkSize], [chunkText] returns
    chunks of which no span is wider than [chunkSize] and every text is
    trimmed and not empty. When the loop is left before the cap (at most
    1000 windows) and no window starts at a negative offset, every
    character of the text that is not white space lies in the span of an
    emitted chunk. Both conditions hold when every window moves forward
    by at least [step] characters and the text has at most [1000 * step]
    characters. *)
Theorem chunkText_spans_and_words :
  forall txt chunkSize overlap,
    0 < overlap < chunkSize ->
    exists chunks,
      chunkText txt chunkSize overlap = Some chunks /\
      (forall c, In c chunks ->
                 endIndex c - startIndex c <= chunkSize /\
                 text c <> [] /\ trim (text c) = text c) /\
      (forall windows,
          chunkWindows txt chunkSize overlap = Some windows ->
          (List.length windows <= 1000)%nat ->
          Forall (fun c => 0 <= startIndex c) windows ->
          spansCoverWords txt chunks) /\
      (forall step,
          advancesBy step chunkSize overlap = true ->
          strlen txt <= 1000 * step ->
          spansCoverWords txt chunks).
Proof.
  intros txt chunkSize overlap Hov.
  destruct (chunkText_returns txt chunkSize overlap)
    as [ws [Hws [_ [Hres _]]]].
  exists (filter nonEmptyText ws). split; [exact Hres|].
  split; [|split].
  - apply (chunkText_chunks_trimmed txt chunkSize overlap _ Hov Hres).
  - intros windows Hwindows. rewrite Hws in Hwindows.
    injection Hwindows as <-.
    apply (chunkText_covers_words txt chunkSize overlap ws Hov Hws).
  - intros step Hstep Hlen.
    destruct (chunkText_advancing txt chunkSize overlap step ws
                Hov Hstep Hlen Hws) as [Hcap Hpos].
    apply (chunkText_covers_words txt chunkSize overlap ws Hov Hws Hcap Hpos).
Qed.

Lemma chunkText_spans_and_words_witness :
  exists chunks,
    chunkText (lit "The quick brown fox jumps") 10 2 = Some chunks /\
    (forall c, In c chunks ->
               endIndex c - startIndex c <= 10 /\
               text c <> [] /\ trim (text c) = text c) /\
    spansCoverWords (lit "The quick brown fox jumps") chunks /\
    advancesBy 7 10 2 = true.
Proof.
  destruct (chunkText_spans_and_words
              (lit "The quick brown fox jumps") 10 2 ltac:(lia))
    as [chunks [Hres [Hspan [_ Hstep]]]].
  assert (Hadv : advancesBy 7 10 2 = true) by (vm_compute; reflexivity).
  exists chunks. split; [exact Hres|]. split; [exact Hspan|].
  split; [|exact Hadv].
  apply (Hstep 7 Hadv). vm_compute. discriminate.
Defined.

(** The default configuration, [chunkSize = 500] and [overlap = 50]:
    every window moves forward by at least 302 characters, and the words
    of any text of up to 302000 characters are covered. *)
Example chunkText_default_configuration :
  advancesBy 302 500 50 = true /\
  forall txt, strlen txt <= 302000 ->
              exists chunks,
                chunkText txt 500 50 = Some chunks /\
                spansCoverWords txt chunks.
Proof.
  assert (Hstep : advancesBy 302 500 50 = true) by (vm_compute; reflexivity).
  split; [exact Hstep|]. intros txt Hlen.
  destruct (chunkText_returns txt 500 50) as [ws [Hws [_ [Hres _]]]].
  exists (filter nonEmptyText ws). split; [exact Hres|].
  destruct (chunkText_advancing txt 500 50 302 ws ltac:(lia) Hstep
              ltac:(lia) Hws) as [Hcap Hpos].
  apply (chunkText_covers_words txt 500 50 ws ltac:(lia) Hws Hcap Hpos).
Qed.

(** C1 as stated fails: the windows that hold only white space are
    dropped, and their offsets are covered by no emitted span. *)
Lemma chunkText_drops_white_space :
  0 < 1 < 4 /\
  chunkText (lit "ab        cd") 4 1
  = Some [mkChunk (lit "ab") 0 4; mkChunk (lit "cd") 9 12] /\
  ~ spansCoverText (lit "ab        cd")
      [mkChunk (lit "ab") 0 4; mkChunk (lit "cd") 9 12].
Proof.
  split; [lia|]. split; [vm_compute; reflexivity|].
  intros H. destruct (H 5 ltac:(unfold strlen; simpl; lia)) as [c [Hin Hc]].
  simpl in Hin. destruct Hin as [<-|[<-|[]]]; simpl in Hc; lia.
Qed.

(** A word-boundary break can fall at or before [overlap] characters
    into the window: the next window then starts at or before the
    current one, and the text beyond is reached only by the cap. Here
    the window stays at offset 0 and "bbbbbbbbbb" is never emitted. *)
Example chunkText_window_stalls :
  0 < 9 < 10 /\
  chunkText (lit "aaaaaaaa bbbbbbbbbb") 10 9
  = Some (repeat (mkChunk (lit "aaaaaaaa") 0 9) 1001).
Proof. split; [lia | vm_compute; reflexivity]. Qed.

(** A break at the word boundary can move the start before offset 0,
    where [slice] counts from the end of the text: the window at -27
    holds no text and is dropped, and the letter at offset 72 is covered
    by no emitted span although the loop ends at the end of the text. *)
Example chunkText_negative_start :
  let txt := repeat 97%N 71 ++ [space] ++ repeat 98%N 40 in
  0 < 99 < 100 /\
  chunkWindows txt 100 99
  = Some [mkChunk (repeat 97%N 71) 0 72; mkChunk [] (-27) 73;
          mkChunk (repeat 98%N 39) 73 112] /\
  charAt txt 72 = Some 98%N /\
  ~ spansCoverWords txt
      [mkChunk (repeat 97%N 71) 0 72; mkChunk (repeat 98%N 39) 73 112].
Proof.
  split; [lia|]. split; [vm_compute; reflexivity|].
  split; [reflexivity|].
  intros H. destruct (H 72 98%N eq_refl eq_refl) as [c [Hin Hc]].
  simpl in Hin. destruct Hin as [<-|[<-|[]]]; simpl in Hc; lia.
Qed.

End ChunkerClaims.

(* ================================================================== *)
(** * AIRetryHelper.retry: how often the operation is invoked *)
(* ================================================================== *)

Section RetryFacts.
Import JS AIRetryHelper.
Context {W T : Type}.
Variable fn : W -> Outcome T * W.
Variable opts : RetryOptions.

Lemma callAt_succ k w : callAt fn (S k) w = callAt fn k (snd (fn w)).
Proof. reflexivity. Qed.

Lemma invocations_cons_Invoked trace :
  invocations (Invoked :: trace) = S (invocations trace).
Proof. reflexivity. Qed.

Lemma invocations_cons_Slept d trace :
  invocations (Slept d :: trace) = invocations trace.
Proof. reflexivity. Qed.

(** The shape of a run of the loop that makes [n] invocations: the first
    [n - 1] fail with a retryable error, the last one decides the result,
    and a retryable failure ends the run only when the turns are used up. *)
Lemma attemptLoop_shape left : forall attempt w result w' trace,
  attemptLoop fn opts left attempt w = (result, w', trace) ->
  (1 <= invocations trace <= left + 1)%nat /\
  (forall k, (S k < invocations trace)%nat ->
             exists e, callAt fn k w = Throw e /\ isRetryable opts e = true) /\
  result = callAt fn (invocations trace - 1) w /\
  (forall e, result = Throw e -> isRetryable opts e = true ->
             invocations trace = S left).
Proof.
  assert (Hone : forall (r : Outcome T) w w1 left,
             fn w = (r, w1) ->
             (forall e, r = Throw e -> isRetryable opts e = true -> left = 0%nat) ->
             (1 <= invocations [Invoked] <= left + 1)%nat /\
             (forall k, (S k < invocations [Invoked])%nat ->
                        exists e, callAt fn k w = Throw e /\
                                  isRetryable opts e = true) /\
             r = callAt fn (invocations [Invoked] - 1) w /\
             (forall e, r = Throw e -> isRetryable opts e = true ->
                        invocations [Invoked] = S left)).
  { intros r w w1 left' Hfn Hlast.
    rewrite invocations_cons_Invoked. change (invocations []) with 0%nat.
    split; [lia|]. split; [intros k Hk; lia|]. split.
    - unfold callAt. simpl. rewrite Hfn. reflexivity.
    - intros e He Hr. rewrite (Hlast e He Hr). reflexivity. }
  induction left as [|left IH]; intros attempt w result w' trace;
    cbn [attemptLoop].
  - destruct (fn w) as [[v|e] w1] eqn:Hfn; intros [= <- <- <-];
      apply (Hone _ w w1 0%nat Hfn); auto.
  - destruct (fn w) as [[v|e] w1] eqn:Hfn.
    + intros [= <- <- <-]. apply (Hone _ w w1 (S left) Hfn).
      intros; discriminate.
    + destruct (isRetryable opts e) eqn:Hre.
      * destruct (attemptLoop fn opts left (S attempt) w1)
          as [[final w2] tr] eqn:Hrec.
        intros [= <- <- <-].
        destruct (IH _ _ _ _ _ Hrec) as [Hn [Hfail [Hres Hlast]]].
        rewrite invocations_cons_Invoked, invocations_cons_Slept.
        split; [lia|]. split; [|split].
        -- intros [|k] Hk.
           ++ exists e. unfold callAt. simpl. rewrite Hfn. auto.
           ++ destruct (Hfail k ltac:(lia)) as [e' [He' Hr']].
              exists e'. split; [|exact Hr'].
              rewrite callAt_succ, Hfn. exact He'.
        -- rewrite Hres.
           replace (S (invocations tr) - 1)%nat
             with (S (invocations tr - 1)) by lia.
           rewrite callAt_succ, Hfn. reflexivity.
        -- intros e' He' Hr'. f_equal. eapply Hlast; eauto.
      * intros [= <- <- <-]. apply (Hone _ w w1 (S left) Hfn).
        intros e' [= <-] Hr'. congruence.
Qed.

End RetryFacts.

Section RetryClaims.
Import JS AIRetryHelper Samples.

(** C3. [retry] invokes the operation at most [maxRetries + 1] times; an
    invocation that fails with an error whose status is absent or not
    among the retryable ones is the last one, and its error is the
    result; failures with status 429 on invocations 1 and 2 followed by
    a success on invocation 3, under [maxRetries = 3], give that success
    after exactly 3 invocations. *)
Theorem retry_invocations :
  forall (W T : Type) (fn : W -> Outcome T * W) (opts : RetryOptions)
         (w : W) result w' trace,
    retry fn opts w = (result, w', trace) ->
    (invocations trace <= maxRetries opts + 1)%nat /\
    (forall k e,
        (k < invocations trace)%nat ->
        callAt fn k w = Throw e ->
        (statusOf e = None \/
         exists code, statusOf e = Some code /\
                      ~ In code (retryableStatusCodes opts)) ->
        result = Throw e /\ invocations trace = S k) /\
    (forall e1 e2 v,
        maxRetries opts = 3%nat ->
        In 429 (retryableStatusCodes opts) ->
        callAt fn 0 w = Throw e1 -> statusOf e1 = Some 429 ->
        callAt fn 1 w = Throw e2 -> statusOf e2 = Some 429 ->
        callAt fn 2 w = Ok v ->
        result = Ok v /\ invocations trace = 3%nat).
Proof.
  intros W T fn opts w result w' trace Hrun. unfold retry in Hrun.
  destruct (attemptLoop_shape fn opts _ _ _ _ _ _ Hrun)
    as [Hn [Hfail [Hres Hlast]]].
  split; [lia|]. split.
  - intros k e Hk Hcall Hstatus.
    assert (Hnr : isRetryable opts e = false).
    { unfold isRetryable. destruct Hstatus as [-> | [code [-> Hnot]]]; [reflexivity|].
      apply andb_false_iff. right.
      destruct (existsb (Z.eqb code) (retryableStatusCodes opts)) eqn:Ex;
        [|reflexivity].
      apply existsb_exists in Ex. destruct Ex as [c [Hin Heq]].
      apply Z.eqb_eq in Heq. subst c. contradiction. }
    destruct (Nat.eq_dec (S k) (invocations trace)) as [Heq|Hne].
    + split; [|auto]. rewrite Hres, <- Heq.
      replace (S k - 1)%nat with k by lia. exact Hcall.
    + destruct (Hfail k ltac:(lia)) as [e' [He' Hr']]. congruence.
  - intros e1 e2 v Hmax H429 Hc0 Hs1 Hc1 Hs2 Hc2.
    assert (Hretry : forall e, statusOf e = Some 429 -> isRetryable opts e = true).
    { intros e He. unfold isRetryable. rewrite He. simpl.
      apply existsb_exists. exists 429. split; [exact H429 | reflexivity]. }
    rewrite Hmax in *.
    assert (Hthree : invocations trace = 3%nat).
    { destruct (invocations trace) as [|[|[|[|n]]]] eqn:En; try lia.
      - simpl in Hres. rewrite Hc0 in Hres.
        specialize (Hlast e1 Hres (Hretry _ Hs1)). lia.
      - simpl in Hres. rewrite Hc1 in Hres.
        specialize (Hlast e2 Hres (Hretry _ Hs2)). lia.
      - destruct (Hfail 2%nat ltac:(lia)) as [e' [He' _]]. congruence. }
    split; [|exact Hthree].
    rewrite Hres, Hthree. exact Hc2.
Qed.

Lemma retry_invocations_witness :
  retry flakyOperation defaultOptions 0%nat
  = (Ok 2%nat, 3%nat, [Invoked; Slept 1000; Invoked; Slept 2000; Invoked]) /\
  (invocations [Invoked; Slept 1000; Invoked; Slept 2000; Invoked] <= 3 + 1)%nat /\
  (Ok 2%nat = Ok 2%nat /\
   invocations [Invoked; Slept 1000; Invoked; Slept 2000; Invoked] = 3%nat).
Proof.
  split; [reflexivity|].
  destruct (retry_invocations nat nat flakyOperation defaultOptions 0%nat
              _ _ _ eq_refl) as [Hmost [_ Hscenario]].
  split; [exact Hmost|].
  eapply Hscenario; try reflexivity. simpl. auto.
Defined.

(** A failure without a retryable status ends the run at once. *)
Example retry_bad_request :
  retry (fun n : nat => (@Throw nat (AppError "Bad Request" 400), S n))
        defaultOptions 0%nat
  = (Throw (AppError "Bad Request" 400), 1%nat, [Invoked]).
Proof. reflexivity. Qed.

End RetryClaims.

(* ================================================================== *)
(** * AIRateLimiter: the sliding window *)
(* ================================================================== *)

Section RateLimiterClaims.
Import JS AIRateLimiter.

Lemma step_keeps_settings l c :
  maxRequests (step l c) = maxRequests l /\ windowMs (step l c) = windowMs l.
Proof.
  destruct c; simpl; auto.
  unfold checkRateLimit.
  destruct (maxRequests (prune l now) <=? _)%nat; simpl; auto.
Qed.

Lemma step_keeps_bound l c :
  (List.length (requestTimes l) <= maxRequests l)%nat ->
  (List.length (requestTimes (step l c)) <= maxRequests (step l c))%nat.
Proof.
  intros H. destruct c; simpl; try lia.
  - unfold checkRateLimit.
    pose proof (filter_length_le (inWindow (windowMs l) now) (requestTimes l)).
    destruct (Nat.leb_spec (maxRequests (prune l now))
                           (List.length (requestTimes (prune l now))));
      simpl in *; [lia|].
    rewrite length_app. simpl. lia.
  - pose proof (filter_length_le (inWindow (windowMs l) now) (requestTimes l)).
    lia.
Qed.

Lemma run_invariant calls : forall l,
  (List.length (requestTimes l) <= maxRequests l)%nat ->
  let l' := run l calls in
  maxRequests l' = maxRequests l /\ windowMs l' = windowMs l /\
  (List.length (requestTimes l') <= maxRequests l')%nat.
Proof.
  induction calls as [|c calls IH]; intros l H; simpl; [auto|].
  destruct (step_keeps_settings l c) as [Hm Hw].
  destruct (IH (step l c) (step_keeps_bound l c H)) as [Hm' [Hw' Hb]].
  unfold run in *. simpl. repeat split; congruence.
Qed.

(** C10. From a fresh limiter and after any run of calls, a call of
    [checkRateLimit] at time [now] leaves at most [maxRequests] recorded
    requests in the window (whenever the window is looked at); a
    rejected call records nothing (it only prunes), an accepted one
    records [now]; and the call is rejected exactly when [maxRequests]
    or more recorded requests lie in the window that ends at [now]. *)
Theorem checkRateLimit_sliding_window :
  forall (limit : nat) (window : Z) (calls : list Call) (now : Z),
    let before := run (create limit window) calls in
    let verdict := fst (checkRateLimit before now) in
    let after := snd (checkRateLimit before now) in
    (forall t, (recordedInWindow after t <= limit)%nat) /\
    (verdict <> Allowed ->
     requestTimes after = filter (inWindow window now) (requestTimes before)) /\
    (verdict = Allowed ->
     requestTimes after
     = filter (inWindow window now) (requestTimes before) ++ [now]) /\
    (verdict <> Allowed <-> (limit <= recordedInWindow before now)%nat).
Proof.
  intros limit window calls now before verdict after.
  destruct (run_invariant calls (create limit window) ltac:(simpl; lia))
    as [Hm [Hw Hb]].
  fold before in Hm, Hw, Hb. simpl in Hm, Hw.
  assert (Hafter : (List.length (requestTimes after) <= limit)%nat).
  { pose proof (step_keeps_bound before (CheckRateLimit now) Hb) as H.
    destruct (step_keeps_settings before (CheckRateLimit now)) as [Hm' _].
    simpl in H, Hm'. fold after in H, Hm'. lia. }
  split.
  { intros t. unfold recordedInWindow.
    pose proof (filter_length_le (inWindow (windowMs after) t) (requestTimes after)).
    lia. }
  subst verdict after. unfold checkRateLimit, recordedInWindow.
  simpl. rewrite Hm, Hw.
  destruct (Nat.leb_spec limit
              (List.length (filter (inWindow window now) (requestTimes before))));
    simpl; repeat split; auto; try congruence; try lia; intros; try discriminate.
Qed.

(** Two requests a second apart fill a limiter of two per minute; the
    third is rejected and leaves the record as it was, and a request a
    minute later is accepted again. *)
Example checkRateLimit_run :
  let l := run (create 2 60000) [CheckRateLimit 1000; CheckRateLimit 2000] in
  requestTimes l = [1000; 2000] /\
  checkRateLimit l 3000 = (RateLimited (Some 58000), l) /\
  fst (checkRateLimit l 61000) = Allowed /\
  requestTimes (snd (checkRateLimit l 61000)) = [2000; 61000].
Proof. repeat split. Qed.

End RateLimiterClaims.

(* ================================================================== *)
(** * Binary64: comparisons and the sign of a difference *)
(* ================================================================== *)

Section Binary64Order.

(** [SFcompare] read the other way round. *)
Lemma SFcompare_swap x y :
  SFcompare y x = option_map CompOpp (SFcompare x y).
Proof.
  destruct x as [[]|[]| |[] mx ex], y as [[]|[]| |[] my ey]; simpl; try reflexivity;
    change (Pos.compare_cont Eq) with Pos.compare;
    rewrite (Z.compare_antisym ex ey), (Pos.compare_antisym mx my);
    destruct (ex ?= ey); simpl; try reflexivity;
    destruct (mx ?= my)%positive; reflexivity.
Qed.

Lemma SFltb_SFleb x y : SFltb x y = true -> SFleb x y = true.
Proof. unfold SFltb, SFleb. destruct (SFcompare x y) as [[]|]; auto. Qed.

Lemma SFleb_total x y :
  x <> S754_nan -> y <> S754_nan -> SFltb x y = false -> SFleb y x = true.
Proof.
  intros Hx Hy. unfold SFltb, SFleb. rewrite (SFcompare_swap x y).
  destruct (SFcompare x y) as [[]|] eqn:E; simpl; auto; try discriminate.
  destruct x as [[]|[]| |[] mx ex], y as [[]|[]| |[] my ey]; simpl in E;
    congruence.
Qed.

Lemma SFleb_trans x y z :
  SFleb x y = true -> SFleb y z = true -> SFleb x z = true.
Proof.
  unfold SFleb.
  destruct x as [[]|[]| |[] mx ex], y as [[]|[]| |[] my ey],
           z as [[]|[]| |[] mz ez]; simpl; try reflexivity; try discriminate;
    change (Pos.compare_cont Eq) with Pos.compare;
    destruct (Z.compare_spec ex ey), (Z.compare_spec ey ez),
             (Z.compare_spec ex ez); simpl; try reflexivity; try discriminate;
      try lia;
    destruct (Pos.compare_spec mx my), (Pos.compare_spec my mz),
             (Pos.compare_spec mx mz); simpl; try reflexivity;
      try discriminate; try lia.
Qed.

Lemma SFltb_trans x y z :
  SFltb x y = true -> SFltb y z = true -> SFltb x z = true.
Proof.
  unfold SFltb.
  destruct x as [[]|[]| |[] mx ex], y as [[]|[]| |[] my ey],
           z as [[]|[]| |[] mz ez]; simpl; try reflexivity; try discriminate;
    change (Pos.compare_cont Eq) with Pos.compare;
    destruct (Z.compare_spec ex ey), (Z.compare_spec ey ez),
             (Z.compare_spec ex ez); simpl; try reflexivity; try discriminate;
      try lia;
    destruct (Pos.compare_spec mx my), (Pos.compare_spec my mz),
             (Pos.compare_spec mx mz); simpl; try reflexivity;
      try discriminate; try lia.
Qed.

Lemma SFltb_irrefl x : SFltb x x = false.
Proof.
  unfold SFltb.
  destruct x as [[]|[]| |[] mx ex]; simpl; try reflexivity;
    change (Pos.compare_cont Eq) with Pos.compare;
    rewrite Z.compare_refl, Pos.compare_refl; reflexivity.
Qed.

End Binary64Order.

Section Binary64Sub.
Import Spec.

Lemma fexp64 x : fexp prec emax x = Z.max (x - 53) (-1074).
Proof. reflexivity. Qed.

Lemma digits2_pos_size p : digits2_pos p = Pos.size p.
Proof. induction p; simpl; congruence. Qed.

Lemma digits2_bounds p :
  2 ^ (Zpos (digits2_pos p) - 1) <= Zpos p < 2 ^ Zpos (digits2_pos p).
Proof.
  rewrite digits2_pos_size.
  pose proof (Pos.size_gt p) as Hgt. pose proof (Pos.size_le p) as Hle.
  assert (Hpow : Zpos (2 ^ Pos.size p) = 2 ^ Zpos (Pos.size p))
    by (rewrite Pos2Z.inj_pow; reflexivity).
  split.
  - assert (2 ^ Zpos (Pos.size p) = 2 * 2 ^ (Zpos (Pos.size p) - 1)).
    { rewrite <- Z.pow_succ_r by lia. f_equal. lia. }
    assert (2 ^ Zpos (Pos.size p) <= 2 * Zpos p) by (rewrite <- Hpow; exact Hle).
    lia.
  - rewrite <- Hpow. exact Hgt.
Qed.

(** *** Shifting a mantissa to the right *)

Lemma shr_1_m mrs : 0 <= shr_m mrs -> shr_m (shr_1 mrs) = shr_m mrs / 2.
Proof.
  destruct mrs as [m r s]; simpl. intros Hm.
  destruct m as [|[p|p|]|p]; simpl; try lia; try reflexivity.
  - rewrite Pos2Z.inj_xI. apply Z.div_unique with (r := 1); lia.
  - rewrite Pos2Z.inj_xO. apply Z.div_unique with (r := 0); lia.
Qed.

Lemma pow2_xO n : 2 ^ Zpos n~0 = 2 ^ Zpos n * 2 ^ Zpos n.
Proof. rewrite Pos2Z.inj_xO, <- Z.pow_add_r by lia. f_equal. lia. Qed.

Lemma pow2_xI n : 2 ^ Zpos n~1 = 2 * (2 ^ Zpos n * 2 ^ Zpos n).
Proof.
  rewrite Pos2Z.inj_xI, <- Z.pow_add_r, <- Z.pow_succ_r by lia. f_equal. lia.
Qed.

Lemma iter_shr_1_m n : forall mrs,
  0 <= shr_m mrs ->
  shr_m (iter_pos shr_1 n mrs) = shr_m mrs / 2 ^ Zpos n.
Proof.
  assert (Hdiv : forall a b c, 0 < b -> 0 < c -> a / b / c = a / (b * c))
    by (intros; apply Z.div_div; lia).
  assert (Hnn : forall a b, 0 <= a -> 0 < b -> 0 <= a / b)
    by (intros; apply Z.div_pos; lia).
  induction n as [n IH|n IH|]; intros mrs Hm; cbn [iter_pos].
  - assert (H1 : 0 <= shr_m (shr_1 mrs))
      by (rewrite shr_1_m by auto; apply Hnn; lia).
    assert (H2 : 0 <= shr_m (iter_pos shr_1 n (shr_1 mrs)))
      by (rewrite IH by auto; apply Hnn; lia).
    rewrite IH, IH, shr_1_m by auto.
    rewrite !Hdiv by lia. f_equal. rewrite pow2_xI. ring.
  - assert (H2 : 0 <= shr_m (iter_pos shr_1 n mrs))
      by (rewrite IH by auto; apply Hnn; lia).
    rewrite IH, IH by auto.
    rewrite Hdiv by lia. f_equal. rewrite pow2_xO. ring.
  - rewrite shr_1_m by auto. reflexivity.
Qed.

Lemma shr_record_of_loc_m m l : shr_m (shr_record_of_loc m l) = m.
Proof. destruct l as [|[]]; reflexivity. Qed.

(** Bringing a positive mantissa to the exponent of the format leaves it
    positive: at most the digits beyond the 53rd are shifted out. *)
Lemma shr_fexp_positive m e l :
  -1074 <= e ->
  0 < shr_m (fst (shr_fexp prec emax (Zpos m) e l)) /\
  -1074 <= snd (shr_fexp prec emax (Zpos m) e l).
Proof.
  intros He. unfold shr_fexp, shr. rewrite fexp64. cbn [Zdigits2].
  pose proof (digits2_bounds m) as [Hlow _].
  destruct (Z.max (Zpos (digits2_pos m) + e - 53) (-1074) - e) as [|p|p] eqn:En;
    cbn [fst snd]; rewrite ?shr_record_of_loc_m; try lia.
  rewrite iter_shr_1_m by (rewrite shr_record_of_loc_m; lia).
  rewrite shr_record_of_loc_m. split; [|lia].
  apply Z.div_str_pos. split; [apply Z.pow_pos_nonneg; lia|].
  apply Z.le_trans with (2 ^ (Zpos (digits2_pos m) - 1)); [|exact Hlow].
  apply Z.pow_le_mono_r; lia.
Qed.

Lemma round_nearest_even_positive m l : 0 < m -> 0 < round_nearest_even m l.
Proof.
  intros Hm. destruct l as [|[]]; simpl; try lia.
  destruct (Z.even m); lia.
Qed.

(** Rounding a positive mantissa at an exponent of the format gives a
    number of the wanted sign that is not zero: a finite one or an
    infinity. *)
Lemma binary_round_aux_nonzero s m e l :
  -1074 <= e -> signedNonZero s (binary_round_aux prec emax s (Zpos m) e l).
Proof.
  intros He. unfold binary_round_aux.
  destruct (shr_fexp_positive m e l He) as [Hm1 He1].
  destruct (shr_fexp prec emax (Zpos m) e l) as [mrs1 e1]. cbn [fst snd] in *.
  pose proof (round_nearest_even_positive (shr_m mrs1) (loc_of_shr_record mrs1) Hm1)
    as Hm2.
  destruct (round_nearest_even (shr_m mrs1) (loc_of_shr_record mrs1))
    as [|m2|m2]; try lia.
  destruct (shr_fexp_positive m2 e1 loc_Exact He1) as [Hm3 _].
  destruct (shr_fexp prec emax (Zpos m2) e1 loc_Exact) as [mrs3 e3].
  cbn [fst snd] in *.
  destruct (shr_m mrs3) as [|m3|m3]; try lia.
  destruct (e3 <=? emax - prec); reflexivity.
Qed.

Lemma binary_round_nonzero s m e :
  -1074 <= e -> signedNonZero s (binary_round prec emax s m e).
Proof.
  intros He. unfold binary_round, shl_align. rewrite fexp64.
  destruct (Z.max (Zpos (digits2_pos m) + e - 53) (-1074) - e) eqn:En;
    apply binary_round_aux_nonzero; lia.
Qed.

(** The sign of a rounded integer is the sign of the integer. *)
Lemma binary_normalize_sign d e :
  -1074 <= e ->
  SFltb (S754_zero false) (binary_normalize prec emax d e false) = (0 <? d).
Proof.
  intros He. destruct d as [|p|p]; simpl; [reflexivity| |].
  - pose proof (binary_round_nonzero false p e He) as H.
    destruct (binary_round prec emax false p e) as [|[]| |[] ? ?];
      simpl in H; try contradiction; try discriminate; reflexivity.
  - pose proof (binary_round_nonzero true p e He) as H.
    destruct (binary_round prec emax true p e) as [|[]| |[] ? ?];
      simpl in H; try contradiction; try discriminate; reflexivity.
Qed.

(** *** Aligning two mantissas *)

Lemma iter_xO_pow m d : Zpos (Pos.iter xO m d) = Zpos m * 2 ^ Zpos d.
Proof.
  change (Pos.iter xO m d) with (Zpower.shift_pos d m).
  rewrite Zpower.shift_pos_correct, Zpower.Zpower_pos_nat, Zpower.Zpower_nat_Z.
  rewrite positive_nat_Z. ring.
Qed.

Lemma shl_align_value m e ez :
  ez <= e -> Zpos (fst (shl_align m e ez)) = Zpos m * 2 ^ (e - ez).
Proof.
  intros Hle. unfold shl_align.
  destruct (ez - e) as [|d|d] eqn:Ed; cbn [fst]; try lia.
  - replace (e - ez) with 0 by lia. simpl. lia.
  - rewrite iter_xO_pow. f_equal. f_equal. lia.
Qed.

(** Of two numbers of the format, the one with the smaller exponent has the
    smaller magnitude. *)
Lemma bounded_exponent_order m1 e1 m2 e2 :
  bounded prec emax m1 e1 = true -> bounded prec emax m2 e2 = true ->
  e1 < e2 -> Zpos m1 < Zpos m2 * 2 ^ (e2 - e1).
Proof.
  unfold bounded, canonical_mantissa. rewrite !fexp64.
  intros H1 H2 Hlt.
  apply andb_true_iff in H1, H2. destruct H1 as [H1 _], H2 as [H2 _].
  apply Z.eqb_eq in H1, H2.
  pose proof (digits2_bounds m1) as [_ Hup].
  pose proof (digits2_bounds m2) as [Hlow _].
  assert (Hd1 : Zpos (digits2_pos m1) <= 53) by lia.
  assert (Hd2 : Zpos (digits2_pos m2) = 53) by lia.
  rewrite Hd2 in Hlow.
  assert (Zpos m1 < 2 ^ 53).
  { apply Z.lt_le_trans with (2 ^ Zpos (digits2_pos m1)); [exact Hup|].
    apply Z.pow_le_mono_r; lia. }
  assert (2 ^ 1 <= 2 ^ (e2 - e1)) by (apply Z.pow_le_mono_r; lia).
  change (2 ^ 53) with (2 ^ (53 - 1) * 2 ^ 1) in H.
  nia.
Qed.

(** *** The sign of a difference *)

Ltac solve_ltb := first [ apply Z.ltb_lt; lia | apply Z.ltb_ge; lia ].

Lemma SFsub_sign x y :
  valid_binary x = true -> valid_binary y = true ->
  SFltb (S754_zero false) (SF64sub y x) = SFltb x y.
Proof.
  intros Vx Vy.
  destruct x as [sx|sx| |sx mx ex], y as [sy|sy| |sy my ey];
    try reflexivity;
    try (destruct sx; try reflexivity; destruct sy; reflexivity);
    try (destruct sy; reflexivity).
  assert (Hex : -1074 <= ex).
  { simpl in Vx. unfold bounded, canonical_mantissa in Vx. rewrite fexp64 in Vx.
    apply andb_true_iff in Vx. destruct Vx as [Vx _]. apply Z.eqb_eq in Vx. lia. }
  assert (Hey : -1074 <= ey).
  { simpl in Vy. unfold bounded, canonical_mantissa in Vy. rewrite fexp64 in Vy.
    apply andb_true_iff in Vy. destruct Vy as [Vy _]. apply Z.eqb_eq in Vy. lia. }
  unfold SF64sub, SFsub.
  rewrite binary_normalize_sign by lia.
  rewrite !shl_align_value by lia.
  unfold SFltb, SFcompare. change (Pos.compare_cont Eq) with Pos.compare.
  simpl in Vx, Vy.
  assert (Hpx : 0 < Zpos mx * 2 ^ (ex - Z.min ey ex))
    by (apply Z.mul_pos_pos; [lia | apply Z.pow_pos_nonneg; lia]).
  assert (Hpy : 0 < Zpos my * 2 ^ (ey - Z.min ey ex))
    by (apply Z.mul_pos_pos; [lia | apply Z.pow_pos_nonneg; lia]).
  assert (Hpow0 : 2 ^ 0 = 1) by reflexivity.
  destruct sx, sy; unfold cond_Zopp.
  - (* both negative *)
    destruct (Z.compare_spec ex ey) as [Heq|Hlt|Hgt].
    + subst ey. rewrite Z.min_id, Z.sub_diag, Hpow0, !Z.mul_1_r.
      destruct (Pos.compare_spec mx my) as [E|L|G];
        cbv beta iota delta [CompOpp]; solve_ltb.
    + pose proof (bounded_exponent_order _ _ _ _ Vx Vy Hlt).
      rewrite Z.min_r, Z.sub_diag, Hpow0, Z.mul_1_r by lia. solve_ltb.
    + pose proof (bounded_exponent_order _ _ _ _ Vy Vx Hgt).
      rewrite Z.min_l, Z.sub_diag, Hpow0, Z.mul_1_r by lia. solve_ltb.
  - solve_ltb.
  - solve_ltb.
  - (* both positive *)
    destruct (Z.compare_spec ex ey) as [Heq|Hlt|Hgt].
    + subst ey. rewrite Z.min_id, Z.sub_diag, Hpow0, !Z.mul_1_r.
      destruct (Pos.compare_spec mx my) as [E|L|G];
        cbv beta iota; solve_ltb.
    + pose proof (bounded_exponent_order _ _ _ _ Vx Vy Hlt).
      rewrite Z.min_r, Z.sub_diag, Hpow0, Z.mul_1_r by lia. solve_ltb.
    + pose proof (bounded_exponent_order _ _ _ _ Vy Vx Hgt).
      rewrite Z.min_l, Z.sub_diag, Hpow0, Z.mul_1_r by lia. solve_ltb.
Qed.

End Binary64Sub.

Section FloatOrder.
Local Open Scope float_scope.

Lemma Prim2SF_zero : Prim2SF 0 = S754_zero false.
Proof. reflexivity. Qed.

Lemma is_nan_Prim2SF x : is_nan x = false <-> Prim2SF x <> S754_nan.
Proof.
  unfold is_nan. rewrite FloatAxioms.eqb_spec. unfold SFeqb.
  destruct (Prim2SF x) as [[]|[]| |[] m e]; simpl;
    rewrite ?Z.compare_refl, ?Pos.compare_cont_refl; simpl;
    split; intros; congruence.
Qed.

(** The comparator [b - a] is positive exactly when [a < b]; with a NaN on
    either side both are false. *)
Lemma float_sub_positive x y : (0 <? y - x) = (x <? y).
Proof.
  rewrite !FloatAxioms.ltb_spec, FloatAxioms.sub_spec, Prim2SF_zero.
  apply SFsub_sign; apply Prim2SF_valid.
Qed.

Lemma float_ltb_leb x y : (x <? y) = true -> (x <=? y) = true.
Proof. rewrite FloatAxioms.ltb_spec, FloatAxioms.leb_spec. apply SFltb_SFleb. Qed.

Lemma float_leb_total x y :
  is_nan x = false -> is_nan y = false -> (x <? y) = false -> (y <=? x) = true.
Proof.
  rewrite !is_nan_Prim2SF, FloatAxioms.ltb_spec, FloatAxioms.leb_spec. apply SFleb_total.
Qed.

Lemma float_leb_trans x y z :
  (x <=? y) = true -> (y <=? z) = true -> (x <=? z) = true.
Proof. rewrite !FloatAxioms.leb_spec. apply SFleb_trans. Qed.

Lemma float_ltb_trans x y z :
  (x <? y) = true -> (y <? z) = true -> (x <? z) = true.
Proof. rewrite !FloatAxioms.ltb_spec. apply SFltb_trans. Qed.

Lemma float_ltb_irrefl x : (x <? x) = false.
Proof. rewrite FloatAxioms.ltb_spec. apply SFltb_irrefl. Qed.

End FloatOrder.

(* ================================================================== *)
(** * Array.prototype.sort and slice *)
(* ================================================================== *)

Section SortFacts.
Import JS Spec.
Context {A : Type}.

Lemma slice_firstn (l : list A) (n : nat) : slice l 0 (Z.of_nat n) = firstn n l.
Proof.
  unfold slice, clampIndex. change (0 <? 0) with false. cbv iota.
  destruct (Z.ltb_spec (Z.of_nat n) 0) as [Hneg|_]; [lia|].
  rewrite (Z.min_l 0) by lia. simpl skipn.
  destruct (Nat.le_gt_cases n (List.length l)).
  - rewrite Z.min_l by lia. f_equal. lia.
  - rewrite Z.min_r by lia. rewrite Z.sub_0_r, Nat2Z.id.
    rewrite !firstn_all2 by lia. reflexivity.
Qed.

Lemma firstn_In (n : nat) (l : list A) (x : A) : In x (firstn n l) -> In x l.
Proof.
  intros H. rewrite <- (firstn_skipn n l). apply in_or_app. left. exact H.
Qed.

Lemma skipn_In (n : nat) (l : list A) (x : A) : In x (skipn n l) -> In x l.
Proof.
  intros H. rewrite <- (firstn_skipn n l). apply in_or_app. right. exact H.
Qed.

Lemma StronglySorted_app (R : A -> A -> Prop) (a b : list A) :
  StronglySorted R (a ++ b) <->
  StronglySorted R a /\ StronglySorted R b /\
  (forall x y, In x a -> In y b -> R x y).
Proof.
  induction a as [|h a IH]; simpl.
  - split; [intros H; repeat split; [constructor | exact H | tauto]|tauto].
  - split.
    + intros H. inversion H as [|? ? Hs Hf]; subst.
      apply IH in Hs. destruct Hs as [Ha [Hb Hab]].
      rewrite Forall_app in Hf. destruct Hf as [Hfa Hfb].
      repeat split; auto.
      * constructor; auto.
      * intros x y [<-|Hx] Hy; [|auto].
        rewrite Forall_forall in Hfb. auto.
    + intros [Ha [Hb Hab]]. inversion Ha as [|? ? Hs Hf]; subst.
      constructor.
      * apply IH. repeat split; auto.
      * rewrite Forall_app. split; [exact Hf|].
        rewrite Forall_forall. intros y Hy. apply Hab; auto.
Qed.

Variable compareFn : A -> A -> float.

Lemma insertBy_perm x l : Permutation (insertBy compareFn x l) (x :: l).
Proof.
  induction l as [|y t IH]; simpl; [reflexivity|].
  destruct (0 <? compareFn x y)%float; [|reflexivity].
  rewrite IH. apply perm_swap.
Qed.

Lemma sort_perm l : Permutation (sort compareFn l) l.
Proof.
  induction l as [|x t IH]; simpl; [reflexivity|].
  rewrite insertBy_perm. constructor. exact IH.
Qed.

(** Where [insertBy] puts [x]: behind the elements it is moved behind,
    in front of the first one it is not. *)
Lemma insertBy_split x l :
  exists l1 l2,
    l = l1 ++ l2 /\
    insertBy compareFn x l = l1 ++ x :: l2 /\
    Forall (fun y => (0 <? compareFn x y)%float = true) l1 /\
    match l2 with
    | [] => True
    | z :: _ => (0 <? compareFn x z)%float = false
    end.
Proof.
  induction l as [|y t IH]; simpl.
  - exists [], []. repeat split; auto.
  - destruct (0 <? compareFn x y)%float eqn:E.
    + destruct IH as [l1 [l2 [Ht [Hins [Hall Hhd]]]]].
      exists (y :: l1), l2. subst t. rewrite Hins. repeat split; auto.
    + exists [], (y :: t). repeat split; auto.
Qed.

(** Sorting with a comparator that orders the elements of a set [good]
    (and may be inconsistent elsewhere): every prefix of the result made
    of good elements is in order. *)
Section Ordered.
Variable good : A -> Prop.
Variable ge : A -> A -> Prop.
Hypothesis behind_ge :
  forall x y, good x -> good y -> (0 <? compareFn x y)%float = true -> ge y x.
Hypothesis front_ge :
  forall x y, good x -> good y -> (0 <? compareFn x y)%float = false -> ge x y.
Hypothesis ge_trans :
  forall x y z, good x -> good y -> good z -> ge x y -> ge y z -> ge x z.

Lemma insertBy_good_prefix x l :
  (forall p r, l = p ++ r -> Forall good p -> StronglySorted ge p) ->
  forall p r, insertBy compareFn x l = p ++ r -> Forall good p ->
              StronglySorted ge p.
Proof.
  intros Hl p r Hpr Hgood.
  destruct (insertBy_split x l) as [l1 [l2 [Hsplit [Hins [Hbehind Hfront]]]]].
  rewrite Hins in Hpr.
  apply app_eq_app in Hpr. destruct Hpr as [m [[H1 H2]|[H1 H2]]].
  - (* [p] ends before [x] *)
    apply (Hl p (m ++ l2)); [|exact Hgood].
    subst l l1. rewrite <- app_assoc. reflexivity.
  - destruct m as [|x' m].
    + apply (Hl p l2); [|exact Hgood].
      rewrite app_nil_r in H1. subst. reflexivity.
    + injection H2 as <- Hl2. subst p.
      rewrite Forall_app in Hgood. destruct Hgood as [Hg1 Hgx].
      inversion Hgx as [|? ? Hx Hgm]; subst.
      assert (Hsorted : StronglySorted ge (l1 ++ m)).
      { apply (Hl (l1 ++ m) r).
        - rewrite <- app_assoc. reflexivity.
        - rewrite Forall_app. auto. }
      apply StronglySorted_app in Hsorted.
      destruct Hsorted as [Hs1 [Hsm H1m]].
      rewrite Forall_forall in Hg1, Hgm, Hbehind.
      apply StronglySorted_app. split; [exact Hs1|]. split.
      * constructor; [exact Hsm|].
        destruct m as [|z m']; [constructor|].
        simpl in Hfront.
        assert (Hxz : ge x z)
          by (apply front_ge; auto; apply Hgm; left; reflexivity).
        constructor; [exact Hxz|].
        inversion Hsm as [|? ? _ Hzm]; subst.
        rewrite Forall_forall in Hzm |- *. intros b Hb.
        apply ge_trans with z; auto.
        -- apply Hgm. left. reflexivity.
        -- apply Hgm. right. exact Hb.
      * intros a b Ha [<-|Hb]; [|auto].
        apply behind_ge; auto.
Qed.

Lemma sort_good_prefix l :
  forall p r, sort compareFn l = p ++ r -> Forall good p -> StronglySorted ge p.
Proof.
  induction l as [|x t IH]; simpl.
  - intros p r H _. symmetry in H. apply app_eq_nil in H.
    destruct H as [-> _]. constructor.
  - apply insertBy_good_prefix. exact IH.
Qed.

End Ordered.

End SortFacts.

Section RankingFacts.
Import JS Spec.
Context {A : Type}.
Variable key : A -> float.

(** Sorting by the comparator [(a, b) => key(b) - key(a)]: every prefix of
    the result without a NaN key is in non-increasing order of [key]. *)
Lemma sort_descending_prefix (l p r : list A) :
  sort (fun a b => (key b - key a)%float) l = p ++ r ->
  Forall (fun a => notNaN (key a)) p ->
  descending key p.
Proof.
  apply sort_good_prefix.
  - intros x y _ _. rewrite float_sub_positive. apply float_ltb_leb.
  - intros x y Hx Hy. rewrite float_sub_positive. apply float_leb_total; auto.
  - intros x y z _ _ _ Hxy Hyz. eapply float_leb_trans; eauto.
Qed.

Lemma descending_map {B : Type} (f : A -> B) (keyB : B -> float) (l : list A) :
  (forall a, In a l -> keyB (f a) = key a) ->
  descending key l -> descending keyB (map f l).
Proof.
  unfold descending. intros Hkey Hs.
  induction Hs as [|a l Hs IH Hf]; simpl; constructor.
  - apply IH. intros b Hb. apply Hkey. right. exact Hb.
  - rewrite Forall_forall in Hf |- *. intros b Hb.
    apply in_map_iff in Hb. destruct Hb as [a' [<- Ha']].
    rewrite !Hkey by (simpl; auto). auto.
Qed.

End RankingFacts.

(* ================================================================== *)
(** * Cosine similarity *)
(* ================================================================== *)

Section CosineFacts.
Import JS Entities Spec.
Local Open Scope float_scope.

Lemma item_middle (pre : vector) (x : float) (post : vector) :
  item (pre ++ x :: post) (List.length pre) = x.
Proof. unfold item. apply nth_middle. Qed.

(** The loop of the embedding service computes the three sums. *)
Lemma service_sumLoop_sums : forall (restA restB preA preB : vector) d na nb,
  List.length preA = List.length preB ->
  List.length restA = List.length restB ->
  OpenAIEmbeddingService.sumLoop
    (List.length restA) (List.length preA) (preA ++ restA) (preB ++ restB) d na nb
  = (fold_left (fun acc p => acc + fst p * snd p) (combine restA restB) d,
     fold_left (fun acc x => acc + x * x) restA na,
     fold_left (fun acc x => acc + x * x) restB nb).
Proof.
  induction restA as [|x restA IH]; intros [|y restB] preA preB d na nb Hpre Hrest;
    try discriminate; [reflexivity|].
  simpl List.length. cbn [OpenAIEmbeddingService.sumLoop].
  assert (Ea : item (preA ++ x :: restA) (List.length preA) = x)
    by apply item_middle.
  assert (Eb : item (preB ++ y :: restB) (List.length preA) = y)
    by (rewrite Hpre; apply item_middle).
  rewrite Ea, Eb.
  specialize (IH restB (preA ++ [x]) (preB ++ [y])).
  rewrite !length_app, <- !app_assoc in IH. simpl in IH.
  replace (S (List.length preA)) with (List.length preA + 1)%nat by lia.
  rewrite IH by (simpl in Hrest; lia). reflexivity.
Qed.

(** So does the loop of the repository. *)
Lemma repository_sumLoop_sums : forall (restA restB preA preB : vector) d na nb,
  List.length preA = List.length preB ->
  List.length restA = List.length restB ->
  TranscriptChunkRepository.sumLoop
    (List.length restA) (List.length preA) (preA ++ restA) (preB ++ restB) d na nb
  = (fold_left (fun acc p => acc + fst p * snd p) (combine restA restB) d,
     fold_left (fun acc x => acc + x * x) restA na,
     fold_left (fun acc x => acc + x * x) restB nb).
Proof.
  induction restA as [|x restA IH]; intros [|y restB] preA preB d na nb Hpre Hrest;
    try discriminate; [reflexivity|].
  simpl List.length. cbn [TranscriptChunkRepository.sumLoop].
  assert (Ea : item (preA ++ x :: restA) (List.length preA) = x)
    by apply item_middle.
  assert (Eb : item (preB ++ y :: restB) (List.length preA) = y)
    by (rewrite Hpre; apply item_middle).
  rewrite Ea, Eb.
  specialize (IH restB (preA ++ [x]) (preB ++ [y])).
  rewrite !length_app, <- !app_assoc in IH. simpl in IH.
  replace (S (List.length preA)) with (List.length preA + 1)%nat by lia.
  rewrite IH by (simpl in Hrest; lia). reflexivity.
Qed.

Lemma repository_cosine (a b : vector) :
  List.length a = List.length b ->
  TranscriptChunkRepository.cosineSimilarity a b = cosine a b.
Proof.
  intros Hlen. unfold TranscriptChunkRepository.cosineSimilarity.
  rewrite Hlen, Nat.eqb_refl. cbn [negb]. rewrite <- Hlen.
  pose proof (repository_sumLoop_sums a b [] [] 0 0 0 eq_refl Hlen) as Hsums.
  cbn [app List.length] in Hsums. rewrite Hsums. reflexivity.
Qed.

Lemma service_cosine (a b : vector) :
  List.length a = List.length b ->
  OpenAIEmbeddingService.cosineSimilarity a b = Ok (cosine a b).
Proof.
  intros Hlen. unfold OpenAIEmbeddingService.cosineSimilarity.
  rewrite Hlen, Nat.eqb_refl. cbn [negb]. rewrite <- Hlen.
  pose proof (service_sumLoop_sums a b [] [] 0 0 0 eq_refl Hlen) as Hsums.
  cbn [app List.length] in Hsums. rewrite Hsums. reflexivity.
Qed.

(** *** Zero norms *)

Lemma eqb_zero_Prim2SF x :
  (x =? 0) = true <-> exists s, Prim2SF x = S754_zero s.
Proof.
  rewrite FloatAxioms.eqb_spec, Prim2SF_zero. unfold SFeqb.
  destruct (Prim2SF x) as [s|[]| |[] m e]; simpl; split;
    try discriminate; try (intros [s' H]; discriminate); eauto.
Qed.

Lemma is_finite_Prim2SF x :
  is_finite x = true ->
  match Prim2SF x with
  | S754_zero _ | S754_finite _ _ _ => True
  | _ => False
  end.
Proof.
  unfold is_finite, is_nan, is_infinity.
  rewrite !FloatAxioms.eqb_spec, FloatAxioms.abs_spec.
  change (Prim2SF infinity) with (S754_infinity false).
  destruct (Prim2SF x) as [s|[]| |[] m e]; simpl; auto; discriminate.
Qed.

(** Zero times a finite number is zero. *)
Lemma mul_zero_finite x y :
  (x =? 0) = true -> is_finite y = true -> (x * y =? 0) = true.
Proof.
  intros Hx Hy. apply eqb_zero_Prim2SF in Hx. destruct Hx as [s Hx].
  apply is_finite_Prim2SF in Hy. apply eqb_zero_Prim2SF.
  rewrite FloatAxioms.mul_spec, Hx. unfold SF64mul.
  destruct (Prim2SF y) as [s'|[]| |s' m e]; simpl; try contradiction; eauto.
Qed.

Lemma mul_finite_zero x y :
  is_finite x = true -> (y =? 0) = true -> (x * y =? 0) = true.
Proof.
  intros Hx Hy. apply eqb_zero_Prim2SF in Hy. destruct Hy as [s Hy].
  apply is_finite_Prim2SF in Hx. apply eqb_zero_Prim2SF.
  rewrite FloatAxioms.mul_spec, Hy. unfold SF64mul.
  destruct (Prim2SF x) as [s'|[]| |s' m e]; simpl; try contradiction; eauto.
Qed.

(** The squares of a vector of zeros sum to [+0]. *)
Lemma sumSquares_zeroVector a : zeroVector a -> sumSquares a = 0.
Proof.
  unfold sumSquares. generalize (eq_refl 0).
  generalize 0 at 1 3 as acc.
  induction a as [|x a IH]; intros acc Hacc Hz; simpl; [exact Hacc|].
  inversion Hz as [|? ? Hx Ha]; subst.
  apply IH; [|exact Ha].
  apply eqb_zero_Prim2SF in Hx. destruct Hx as [s Hx].
  apply FloatAxioms.Prim2SF_inj. rewrite FloatAxioms.add_spec, FloatAxioms.mul_spec, Hx, Prim2SF_zero.
  destruct s; reflexivity.
Qed.

Lemma norm_zeroVector a : zeroVector a -> (norm a =? 0) = true.
Proof.
  intros Hz. unfold norm. rewrite (sumSquares_zeroVector a Hz). reflexivity.
Qed.

End CosineFacts.

Section CosineClaims.
Import JS Entities Spec.
Local Open Scope float_scope.

(** C5. On vectors of unequal length the embedding service throws its
    dimension error and the repository returns 0; on vectors of equal
    length the two return the same number. *)
Theorem cosineSimilarity_two_policies :
  forall a b : vector,
    (List.length a <> List.length b ->
     OpenAIEmbeddingService.cosineSimilarity a b
     = Throw (Error "Vectors must have the same length") /\
     TranscriptChunkRepository.cosineSimilarity a b = 0) /\
    (List.length a = List.length b ->
     OpenAIEmbeddingService.cosineSimilarity a b
     = Ok (TranscriptChunkRepository.cosineSimilarity a b)).
Proof.
  intros a b. split.
  - intros Hne. apply Nat.eqb_neq in Hne.
    unfold OpenAIEmbeddingService.cosineSimilarity,
           TranscriptChunkRepository.cosineSimilarity.
    rewrite Hne. split; reflexivity.
  - intros Hlen. rewrite service_cosine, repository_cosine by exact Hlen.
    reflexivity.
Qed.

Lemma cosineSimilarity_two_policies_witness :
  (OpenAIEmbeddingService.cosineSimilarity [1; 2] [1]
   = Throw (Error "Vectors must have the same length") /\
   TranscriptChunkRepository.cosineSimilarity [1; 2] [1] = 0) /\
  OpenAIEmbeddingService.cosineSimilarity [3; 4] [4; 3]
  = Ok (TranscriptChunkRepository.cosineSimilarity [3; 4] [4; 3]).
Proof.
  split.
  - apply (proj1 (cosineSimilarity_two_policies [1; 2] [1])). simpl. lia.
  - apply (proj2 (cosineSimilarity_two_policies [3; 4] [4; 3])). reflexivity.
Defined.

(** C6 as amended. For vectors of equal length both implementations
    return [dot(a,b) / (norm(a) * norm(b))], or 0 when that denominator is
    exactly zero, and the embedding service does not throw. When one
    vector has norm exactly 0 (as every vector of zeros has) and the norm
    of the other is finite, the result is exactly [+0]. *)
Theorem cosineSimilarity_formula_and_zero_norm :
  forall a b : vector,
    List.length a = List.length b ->
    TranscriptChunkRepository.cosineSimilarity a b = cosine a b /\
    OpenAIEmbeddingService.cosineSimilarity a b = Ok (cosine a b) /\
    ((norm a =? 0) = true -> is_finite (norm b) = true -> cosine a b = 0) /\
    (is_finite (norm a) = true -> (norm b =? 0) = true -> cosine a b = 0) /\
    (zeroVector a -> (norm a =? 0) = true) /\
    (zeroVector b -> (norm b =? 0) = true).
Proof.
  intros a b Hlen.
  split; [apply repository_cosine; exact Hlen|].
  split; [apply service_cosine; exact Hlen|].
  repeat split.
  - intros Ha Hb. unfold cosine. rewrite (mul_zero_finite _ _ Ha Hb). reflexivity.
  - intros Ha Hb. unfold cosine. rewrite (mul_finite_zero _ _ Ha Hb). reflexivity.
  - apply norm_zeroVector.
  - apply norm_zeroVector.
Qed.

Lemma cosineSimilarity_formula_and_zero_norm_witness :
  TranscriptChunkRepository.cosineSimilarity [0; 0] [3; 4] = 0 /\
  OpenAIEmbeddingService.cosineSimilarity [0; 0] [3; 4] = Ok 0 /\
  TranscriptChunkRepository.cosineSimilarity [3; 4] [3; 4] = 1.
Proof.
  destruct (cosineSimilarity_formula_and_zero_norm [0; 0] [3; 4] eq_refl)
    as [Hrepo [Hservice [Hzero _]]].
  rewrite Hrepo, Hservice, (Hzero eq_refl eq_refl).
  repeat split.
Defined.

(** C6 as stated fails: the square of a component as large as 2^600
    is infinite, zero times infinity is NaN, NaN is not [=== 0], and the
    result is [0 / NaN]. *)
Lemma cosineSimilarity_zero_norm_against_overflow :
  let a := [0] in
  let b := [0x1p+600] in
  List.length a = List.length b /\
  (norm a =? 0) = true /\
  norm b = infinity /\
  TranscriptChunkRepository.cosineSimilarity a b = nan /\
  OpenAIEmbeddingService.cosineSimilarity a b = Ok nan /\
  (nan =? 0) = false.
Proof. vm_compute. repeat split. Qed.

End CosineClaims.

(* ================================================================== *)
(** * TranscriptChunkRepository.findSimilarChunks *)
(* ================================================================== *)

Section RepositoryFacts.
Import JS Entities Spec TranscriptChunkRepository.

Lemma streq_eq a b : streq a b = true <-> a = b.
Proof.
  unfold streq. destruct (list_eq_dec N.eq_dec a b); split; intros;
    congruence.
Qed.

Lemma insertDesc_perm r rows : Permutation (insertDesc r rows) (r :: rows).
Proof.
  induction rows as [|r' rest IH]; simpl; [reflexivity|].
  destruct (textCompare (timestamp r) (timestamp r')); try reflexivity.
  rewrite IH. apply perm_swap.
Qed.

Lemma orderByTimestampDesc_perm rows :
  Permutation (orderByTimestampDesc rows) rows.
Proof.
  induction rows as [|r rest IH]; simpl; [reflexivity|].
  rewrite insertDesc_perm. constructor. exact IH.
Qed.

Variable db : Database.
Variable queryEmbedding : vector.

Let sim (c : TranscriptChunk) : float :=
  cosineSimilarity queryEmbedding (embedding c).

Let scored (sessionIds : option (list jsstring)) :=
  sort (fun a b : TranscriptChunk * float => (snd b - snd a)%float)
       (map (fun chunk => (chunk, sim chunk)) (selectChunks db sessionIds)).

Lemma findSimilarChunks_scored sessionIds limit :
  findSimilarChunks db queryEmbedding sessionIds limit
  = map fst (firstn limit (scored sessionIds)).
Proof. unfold findSimilarChunks. rewrite slice_firstn. reflexivity. Qed.

Lemma scored_perm sessionIds :
  Permutation (map fst (scored sessionIds)) (selectChunks db sessionIds).
Proof.
  unfold scored. rewrite sort_perm, map_map. simpl. rewrite map_id. reflexivity.
Qed.

Lemma scored_In sessionIds p :
  In p (scored sessionIds) ->
  In (fst p) (selectChunks db sessionIds) /\ snd p = sim (fst p).
Proof.
  intros Hp. unfold scored in Hp.
  apply (Permutation_in _ (sort_perm _ _)) in Hp.
  apply in_map_iff in Hp. destruct Hp as [c [<- Hc]]. auto.
Qed.

Lemma selectChunks_stored sessionIds c :
  In c (selectChunks db sessionIds) ->
  In c (transcript_chunks db) /\
  (forall s ids, sessionIds = Some (s :: ids) -> In (sessionId c) (s :: ids)).
Proof.
  unfold selectChunks. intros Hc.
  apply (Permutation_in _ (orderByTimestampDesc_perm _)) in Hc.
  destruct sessionIds as [[|s ids]|].
  - split; [exact Hc | discriminate].
  - apply filter_In in Hc. destruct Hc as [Hin Hex]. split; [exact Hin|].
    intros s' ids' [= <- <-].
    apply existsb_exists in Hex. destruct Hex as [sid [Hsid Heq]].
    apply streq_eq in Heq. rewrite Heq. exact Hsid.
  - split; [exact Hc | discriminate].
Qed.

End RepositoryFacts.

Section RepositoryClaims.
Import JS Entities Spec TranscriptChunkRepository Samples.
Local Open Scope float_scope.

(** C7 as amended. [findSimilarChunks] returns at most [limit] chunks, all
    taken from the store and, under a filter that is not empty, from the
    sessions of the filter. When no candidate has a NaN similarity to the
    query, the chunks come in non-increasing order of similarity and each
    is at least as similar as every candidate that is not returned. *)
Theorem findSimilarChunks_ranking :
  forall (db : Database) (q : vector) (sessionIds : option (list jsstring))
         (limit : nat),
    let sim := fun c => cosineSimilarity q (embedding c) in
    let found := findSimilarChunks db q sessionIds limit in
    (List.length found <= limit)%nat /\
    (forall c, In c found -> In c (transcript_chunks db)) /\
    (forall s ids c, sessionIds = Some (s :: ids) -> In c found ->
                     In (sessionId c) (s :: ids)) /\
    ((forall c, In c (selectChunks db sessionIds) -> notNaN (sim c)) ->
     descending sim found /\
     exists notReturned,
       Permutation (found ++ notReturned) (selectChunks db sessionIds) /\
       forall c c', In c found -> In c' notReturned ->
                    (sim c' <=? sim c) = true).
Proof.
  intros db q sessionIds limit sim found.
  subst found. rewrite findSimilarChunks_scored.
  set (sorted := sort (fun a b : TranscriptChunk * float => snd b - snd a)
                      (map (fun chunk => (chunk, sim chunk))
                           (selectChunks db sessionIds))).
  assert (Hcand : forall c, In c (map fst (firstn limit sorted)) ->
                            In c (selectChunks db sessionIds)).
  { intros c Hc. apply in_map_iff in Hc. destruct Hc as [p [<- Hp]].
    apply firstn_In in Hp. apply (scored_In db q sessionIds p Hp). }
  split; [rewrite length_map; apply firstn_le_length|].
  split.
  { intros c Hc.
    destruct (selectChunks_stored db sessionIds c (Hcand c Hc)) as [Hin _].
    exact Hin. }
  split.
  { intros s ids c Hids Hc.
    destruct (selectChunks_stored db sessionIds c (Hcand c Hc)) as [_ Hfilter].
    apply Hfilter. exact Hids. }
  intros Hnan.
  assert (Hgood : Forall (fun p : TranscriptChunk * float => notNaN (snd p)) sorted).
  { rewrite Forall_forall. intros p Hp.
    destruct (scored_In db q sessionIds p Hp) as [Hin ->].
    apply Hnan. exact Hin. }
  assert (Hall : descending (@snd TranscriptChunk float) sorted).
  { apply (sort_descending_prefix
             (@snd TranscriptChunk float)
             (map (fun chunk => (chunk, sim chunk)) (selectChunks db sessionIds))
             sorted []);
      [rewrite app_nil_r; reflexivity | exact Hgood]. }
  rewrite <- (firstn_skipn limit sorted) in Hall.
  apply StronglySorted_app in Hall. destruct Hall as [Hfirst [_ Hcross]].
  split.
  - apply descending_map with (key := @snd TranscriptChunk float); [|exact Hfirst].
    intros p Hp. apply firstn_In in Hp.
    symmetry. apply (scored_In db q sessionIds p Hp).
  - exists (map fst (skipn limit sorted)). split.
    + rewrite <- map_app, firstn_skipn. apply scored_perm.
    + intros c c' Hc Hc'.
      apply in_map_iff in Hc, Hc'.
      destruct Hc as [p [<- Hp]], Hc' as [p' [<- Hp']].
      specialize (Hcross p p' Hp Hp').
      apply firstn_In in Hp. apply skipn_In in Hp'.
      destruct (scored_In db q sessionIds p Hp) as [_ Ep].
      destruct (scored_In db q sessionIds p' Hp') as [_ Ep'].
      unfold sim. rewrite <- Ep, <- Ep'. exact Hcross.
Qed.

Lemma findSimilarChunks_ranking_witness :
  findSimilarChunks plainDatabase sampleQuery None 1 = [chunkC] /\
  descending (fun c => cosineSimilarity sampleQuery (embedding c)) [chunkC] /\
  (cosineSimilarity sampleQuery (embedding chunkA)
   <=? cosineSimilarity sampleQuery (embedding chunkC)) = true.
Proof.
  split; [vm_compute; reflexivity|].
  destruct (findSimilarChunks_ranking plainDatabase sampleQuery None 1)
    as [_ [_ [_ Hranked]]].
  destruct Hranked as [Hdesc [rest [Hperm Hbest]]].
  - intros c Hc. vm_compute in Hc.
    destruct Hc as [<-|[<-|[]]]; vm_compute; reflexivity.
  - split; [exact Hdesc|].
    apply Hbest; [left; reflexivity|].
    assert (Hin : In chunkA (findSimilarChunks plainDatabase sampleQuery None 1 ++ rest)).
    { apply (Permutation_in _ (Permutation_sym Hperm)).
      vm_compute. left. reflexivity. }
    apply in_app_or in Hin. destruct Hin as [Hin|Hin]; [|exact Hin].
    vm_compute in Hin. destruct Hin as [Hin|[]]. discriminate Hin.
Defined.

(** C7 as stated fails: the chunk B has a NaN similarity, which the
    comparator takes for a tie with everything, so A (0.707...) stays in
    front of C (1); with [limit = 1] only A is returned although C is more
    similar. *)
Lemma findSimilarChunks_NaN_breaks_order :
  let sim := fun c => cosineSimilarity sampleQuery (embedding c) in
  findSimilarChunks sampleDatabase sampleQuery None 3 = [chunkA; chunkB; chunkC] /\
  findSimilarChunks sampleDatabase sampleQuery None 1 = [chunkA] /\
  sim chunkB = nan /\
  (sim chunkA <? sim chunkC) = true /\
  (sim chunkC <=? sim chunkA) = false.
Proof. vm_compute. repeat split. Qed.

(** C9. An empty array of session ids selects like no filter at all: the
    query is the same, every stored chunk is a candidate whatever its
    session, and with a limit that covers the store every stored chunk is
    returned. *)
Theorem findSimilarChunks_empty_filter :
  forall (db : Database) (q : vector) (limit : nat),
    findSimilarChunks db q (Some []) limit = findSimilarChunks db q None limit /\
    Permutation (selectChunks db (Some [])) (transcript_chunks db) /\
    ((List.length (transcript_chunks db) <= limit)%nat ->
     Permutation (findSimilarChunks db q (Some []) limit) (transcript_chunks db)).
Proof.
  intros db q limit. split; [reflexivity|].
  split; [apply orderByTimestampDesc_perm|].
  intros Hlimit. rewrite findSimilarChunks_scored.
  rewrite firstn_all2.
  - rewrite scored_perm. apply orderByTimestampDesc_perm.
  - rewrite (Permutation_length (sort_perm _ _)), length_map.
    unfold selectChunks.
    rewrite (Permutation_length (orderByTimestampDesc_perm _)).
    exact Hlimit.
Qed.

Lemma findSimilarChunks_empty_filter_witness :
  findSimilarChunks plainDatabase sampleQuery (Some []) 10 = [chunkC; chunkA] /\
  Permutation (findSimilarChunks plainDatabase sampleQuery (Some []) 10)
              (transcript_chunks plainDatabase) /\
  sessionId chunkC <> sessionId chunkA.
Proof.
  split; [vm_compute; reflexivity|]. split.
  - apply (findSimilarChunks_empty_filter plainDatabase sampleQuery 10).
    simpl. lia.
  - discriminate.
Defined.

(** A filter that names a session keeps only its chunks. *)
Example findSimilarChunks_filtered :
  findSimilarChunks plainDatabase sampleQuery (Some [lit "session-a"]) 10
  = [chunkA].
Proof. vm_compute. reflexivity. Qed.

End RepositoryClaims.

(* ================================================================== *)
(** * SessionService.searchSessions *)
(* ================================================================== *)

Section SearchFacts.
Import JS Entities Spec SessionService.
Local Open Scope float_scope.

Lemma bind_Ok {W A B : Type} (m : M W A) (k : A -> M W B) w b w' :
  bind m k w = (Ok b, w') ->
  exists a w1, m w = (Ok a, w1) /\ k a w1 = (Ok b, w').
Proof.
  unfold bind. destruct (m w) as [[a|e] w1]; [eauto | discriminate].
Qed.

Lemma mapGet_In {V : Type} (m : StringMap V) key v :
  mapGet m key = Some v -> In (key, v) m.
Proof.
  induction m as [|[k v'] rest IH]; simpl; [discriminate|].
  destruct (streq k key) eqn:E.
  - intros [= <-]. apply streq_eq in E. subst k. left. reflexivity.
  - intros H. right. apply IH. exact H.
Qed.

Lemma mapSet_Forall {V : Type} (P : V -> Prop) (m : StringMap V) key v :
  Forall (fun e => P (snd e)) m -> P v ->
  Forall (fun e => P (snd e)) (mapSet m key v).
Proof.
  intros Hm Hv. induction Hm as [|[k v'] rest Hk Hrest IH]; simpl.
  - constructor; [exact Hv | constructor].
  - destruct (streq k key); constructor; auto.
Qed.

(** Pushing a similarity and raising the maximum when the new one is
    greater keeps the maximum the greatest. *)
Lemma greatestOf_push m sims sim :
  greatestOf m sims \/ (sims = [] /\ m = sim) ->
  greatestOf (if m <? sim then sim else m) (sims ++ [sim]).
Proof.
  intros [[Hin Hall]|[-> ->]].
  - destruct (m <? sim) eqn:E; split.
    + apply in_or_app. right. left. reflexivity.
    + apply Forall_app. split.
      * rewrite Forall_forall in Hall |- *. intros s Hs.
        destruct (sim <? s) eqn:E'; [|reflexivity].
        rewrite <- (Hall s Hs). symmetry.
        apply (float_ltb_trans m sim s E E').
      * constructor; [apply float_ltb_irrefl | constructor].
    + apply in_or_app. left. exact Hin.
    + apply Forall_app. split; [exact Hall|].
      constructor; [exact E | constructor].
  - rewrite float_ltb_irrefl. split; [left; reflexivity|].
    constructor; [apply float_ltb_irrefl | constructor].
Qed.

Variable highlightText : jsstring -> list jsstring -> jsstring.

(** The similarity of a snippet is that of a chunk of the session. *)
Lemma buildSnippets_similarities terms data s :
  In s (buildSnippets highlightText terms data) ->
  In (snippetSimilarity s) (map snd (chunks data)).
Proof.
  unfold buildSnippets. change 3%Z with (Z.of_nat 3). rewrite slice_firstn.
  intros Hs. apply in_map_iff in Hs. destruct Hs as [[chunk sim] [<- Hp]].
  apply firstn_In in Hp. apply (Permutation_in _ (sort_perm _ _)) in Hp.
  simpl. apply in_map_iff. exists (chunk, sim). auto.
Qed.

Lemma buildSnippets_length terms data :
  (List.length (buildSnippets highlightText terms data) <= 3)%nat.
Proof.
  unfold buildSnippets. change 3%Z with (Z.of_nat 3).
  rewrite slice_firstn, length_map. apply firstn_le_length.
Qed.

Lemma buildSnippets_descending terms data :
  Forall (fun s => notNaN (snippetSimilarity s))
         (buildSnippets highlightText terms data) ->
  descending snippetSimilarity (buildSnippets highlightText terms data).
Proof.
  unfold buildSnippets. change 3%Z with (Z.of_nat 3). rewrite slice_firstn.
  set (sorted := sort (fun a b : TranscriptChunk * float => snd b - snd a)
                      (chunks data)).
  intros Hgood.
  apply descending_map with (key := @snd TranscriptChunk float).
  - intros [chunk sim] _. reflexivity.
  - apply (sort_descending_prefix (@snd TranscriptChunk float) (chunks data)
                                  (firstn 3 sorted) (skipn 3 sorted)).
    + symmetry. apply firstn_skipn.
    + rewrite Forall_forall in Hgood |- *. intros [chunk sim] Hp.
      apply (Hgood (mkSnippet (highlightText (chunkText chunk) terms)
                              (timestamp chunk) sim)).
      apply in_map_iff. exists (chunk, sim). auto.
Qed.

Context {W : Type}.
Variable sessionRepository : ISessionRepository W.
Variable chunkRepository : ITranscriptChunkRepository W.
Variable embeddingService : IEmbeddingService W.
Variable SEARCH_RESULTS_LIMIT : nat.

(** The loop that fills [sessionMap] keeps, for every session, the
    greatest similarity of the chunks pushed so far. *)
Lemma groupBySession_maximum q : forall fetched sessionMap grouped,
  groupBySession embeddingService q fetched sessionMap = Ok grouped ->
  Forall (fun e => groupedByMaximum (snd e)) sessionMap ->
  Forall (fun e => groupedByMaximum (snd e)) grouped.
Proof.
  induction fetched as [|chunk rest IH]; intros sessionMap grouped Hrun Hmap;
    simpl in Hrun.
  - injection Hrun as <-. exact Hmap.
  - destruct (cosineSimilarity embeddingService q (embedding chunk))
      as [sim|e]; [|discriminate].
    apply (IH _ _ Hrun). apply mapSet_Forall; [exact Hmap|].
    unfold groupedByMaximum. simpl. rewrite map_app. simpl.
    apply greatestOf_push.
    destruct (mapGet sessionMap (sessionId chunk)) as [data|] eqn:Hget.
    + left. apply mapGet_In in Hget. rewrite Forall_forall in Hmap.
      apply (Hmap _ Hget).
    + right. split; reflexivity.
Qed.

Lemma buildResults_built terms : forall entries acc w built w',
  buildResults sessionRepository highlightText terms entries acc w
  = (Ok built, w') ->
  Forall (fun e => groupedByMaximum (snd e)) entries ->
  Forall (builtFromSession highlightText terms) acc ->
  Forall (builtFromSession highlightText terms) built.
Proof.
  induction entries as [|[sid data] rest IH];
    intros acc w built w' Hrun Hentries Hacc; simpl in Hrun.
  - injection Hrun as <- _. exact Hacc.
  - inversion Hentries as [|e es Hdata Hrest' E]; subst.
    apply bind_Ok in Hrun. destruct Hrun as [session [w1 [_ Hrest]]].
    destruct session as [session|]; [|eapply IH; eauto].
    eapply IH; [exact Hrest | exact Hrest' |].
    apply Forall_app. split; [exact Hacc|]. constructor; [|constructor].
    exists data. split; [exact Hdata|]. split; [reflexivity|].
    intros sn Hsn. simpl in Hsn.
    destruct (0 <? List.length (buildSnippets highlightText terms data))%nat;
      [|discriminate].
    injection Hsn as <-. reflexivity.
Qed.

Lemma rankSessions_results query q terms ids w response w' :
  rankSessions sessionRepository chunkRepository embeddingService
               SEARCH_RESULTS_LIMIT highlightText query q terms ids w
  = (Ok response, w') ->
  exists built,
    Forall (builtFromSession highlightText terms) built /\
    results response
    = firstn SEARCH_RESULTS_LIMIT
             (sort (fun a b => similarity b - similarity a) built).
Proof.
  unfold rankSessions. intros Hrun.
  apply bind_Ok in Hrun. destruct Hrun as [fetched [w1 [_ Hrun]]].
  apply bind_Ok in Hrun. destruct Hrun as [sessionMap [w2 [Hgroup Hrun]]].
  apply bind_Ok in Hrun. destruct Hrun as [built [w3 [Hbuilt Hrun]]].
  injection Hrun as <- _. exists built. split.
  - eapply buildResults_built; [exact Hbuilt | | constructor].
    unfold lift in Hgroup. injection Hgroup as Hgroup _.
    apply (groupBySession_maximum _ _ _ _ Hgroup). constructor.
  - simpl. apply slice_firstn.
Qed.

Lemma searchSessions_results query therapist w response w' :
  searchSessions sessionRepository chunkRepository embeddingService
                 SEARCH_RESULTS_LIMIT highlightText query therapist w
  = (Ok response, w') ->
  exists terms built,
    Forall (builtFromSession highlightText terms) built /\
    results response
    = firstn SEARCH_RESULTS_LIMIT
             (sort (fun a b => similarity b - similarity a) built).
Proof.
  unfold searchSessions. destruct (strlen query =? 0)%Z; [discriminate|].
  intros Hrun. apply bind_Ok in Hrun. destruct Hrun as [q [w1 [_ Hrun]]].
  set (terms := filter (fun term => (2 <? strlen term)%Z) (splitWhiteSpace query))
    in *.
  exists terms.
  destruct therapist as [[|c tid]|];
    try (eapply rankSessions_results; exact Hrun).
  apply bind_Ok in Hrun. destruct Hrun as [sessions [w2 [_ Hrun]]].
  destruct (List.length (map id sessions) =? 0)%nat.
  - injection Hrun as <- _. exists []. split; [constructor|].
    simpl. rewrite firstn_nil. reflexivity.
  - eapply rankSessions_results; exact Hrun.
Qed.

End SearchFacts.

Section SearchClaims.
Import JS Entities Spec SessionService Samples.
Local Open Scope float_scope.



(** With an embedding service that forwards every text, the same query
    reaches the provider and the search returns results. *)
Example searchSessions_blank_query_forwarded :
  let run := searchSessions sessionRepository transcriptChunkRepository
                            forwardingEmbeddingService 10 plainText
                            (lit " ") None sampleWorld in
  providerRequests (snd run) = [lit " "] /\
  match fst run with
  | Ok response => List.length (results response) = 3%nat
  | Throw _ => False
  end.
Proof. vm_compute. split; reflexivity. Qed.

(** C8 as amended. When [searchSessions] returns, it returns at most
    [SEARCH_RESULTS_LIMIT] results, each with at most 3 snippets. When no
    returned session similarity is NaN the results are in non-increasing
    order of it, and the snippets of a result without a NaN similarity
    are in non-increasing order of theirs. The similarity of a result is
    the maximum of its session: no snippet of the result compares
    greater. *)
Theorem searchSessions_ranking :
  forall (W : Type) (sessionRepository : ISessionRepository W)
         (chunkRepository : ITranscriptChunkRepository W)
         (embeddingService : IEmbeddingService W)
         (limit : nat) (highlightText : jsstring -> list jsstring -> jsstring)
         (query : jsstring) (therapist : option jsstring)
         (w w' : W) (response : SearchResponse),
    searchSessions sessionRepository chunkRepository embeddingService
                   limit highlightText query therapist w
    = (Ok response, w') ->
    (List.length (results response) <= limit)%nat /\
    (forall r sn, In r (results response) -> snippets r = Some sn ->
                  (List.length sn <= 3)%nat) /\
    (Forall (fun r => notNaN (similarity r)) (results response) ->
     descending similarity (results response)) /\
    (forall r sn, In r (results response) -> snippets r = Some sn ->
                  Forall (fun s => notNaN (snippetSimilarity s)) sn ->
                  descending snippetSimilarity sn) /\
    (forall r sn s, In r (results response) -> snippets r = Some sn ->
                    In s sn ->
                    (similarity r <? snippetSimilarity s) = false).
Proof.
  intros W sessionRepository chunkRepository embeddingService limit
         highlightText query therapist w w' response Hrun.
  destruct (searchSessions_results highlightText _ _ _ _ _ _ _ _ _ Hrun)
    as [terms [built [Hbuilt Hres]]].
  assert (Hfrom : forall r, In r (results response) ->
                            builtFromSession highlightText terms r).
  { intros r Hr. rewrite Hres in Hr. apply firstn_In in Hr.
    apply (Permutation_in _ (sort_perm _ _)) in Hr.
    rewrite Forall_forall in Hbuilt. auto. }
  split; [rewrite Hres; apply firstn_le_length|].
  split.
  { intros r sn Hr Hsn. destruct (Hfrom r Hr) as [data [_ [_ Hsnip]]].
    rewrite (Hsnip sn Hsn). apply buildSnippets_length. }
  split.
  { intros Hgood. rewrite Hres in *.
    apply (sort_descending_prefix similarity built
             (firstn limit (sort (fun a b => similarity b - similarity a) built))
             (skipn limit (sort (fun a b => similarity b - similarity a) built)));
      [symmetry; apply firstn_skipn | exact Hgood]. }
  split.
  { intros r sn Hr Hsn Hgood. destruct (Hfrom r Hr) as [data [_ [_ Hsnip]]].
    rewrite (Hsnip sn Hsn) in *. apply buildSnippets_descending. exact Hgood. }
  intros r sn s Hr Hsn Hs.
  destruct (Hfrom r Hr) as [data [[_ Hmax] [-> Hsnip]]].
  rewrite (Hsnip sn Hsn) in Hs. apply buildSnippets_similarities in Hs.
  rewrite Forall_forall in Hmax. apply (Hmax _ Hs).
Qed.

Lemma searchSessions_ranking_witness :
  exists response,
    fst (wiredSearch sampleProvider 10 plainText (lit "anxiety")
                     None (mkWorld plainDatabase []))
    = Ok response /\
    map resultSessionId (results response) = [lit "session-c"; lit "session-a"] /\
    (List.length (results response) <= 10)%nat /\
    descending similarity (results response).
Proof.
  destruct (wiredSearch sampleProvider 10 plainText (lit "anxiety")
                        None (mkWorld plainDatabase []))
    as [[response|e] w'] eqn:Hrun; [|vm_compute in Hrun; discriminate Hrun].
  exists response. split; [reflexivity|].
  destruct (searchSessions_ranking _ _ _ _ _ _ _ _ _ _ _ Hrun)
    as [Hlimit [_ [Hdesc _]]].
  assert (Hresponse : Ok response
                      = fst (wiredSearch sampleProvider 10 plainText (lit "anxiety")
                                         None (mkWorld plainDatabase [])))
    by (rewrite Hrun; reflexivity).
  vm_compute in Hresponse. injection Hresponse as Hresponse.
  split; [rewrite Hresponse; reflexivity|].
  split; [exact Hlimit|].
  apply Hdesc. rewrite Hresponse.
  repeat constructor.
Defined.

(** C8 as stated fails: the session of the chunk B has a NaN similarity,
    the comparator takes it for a tie, and the session of A (0.707...)
    stays in front of the session of C (1). *)
Lemma searchSessions_NaN_breaks_order :
  exists response,
    fst (wiredSearch sampleProvider 10 plainText (lit "anxiety") None sampleWorld)
    = Ok response /\
    map resultSessionId (results response)
    = [lit "session-a"; lit "session-b"; lit "session-c"] /\
    map similarity (results response) = [0x1.6a09e667f3bccp-1; nan; 1] /\
    (0x1.6a09e667f3bccp-1 <? 1) = true.
Proof.
  eexists. split; [vm_compute; reflexivity|]. vm_compute. repeat split.
Qed.

End SearchClaims.

(* ================================================================== *)
(** * AIRetryHelper.retry: the outcome and the backoff schedule *)
(* ================================================================== *)

Section RetrySchedule.
Import JS AIRetryHelper Spec.
Context {W T : Type}.
Variable fn : W -> Outcome T * W.
Variable opts : RetryOptions.

Lemma worldAt_succ k w : worldAt fn (S k) w = worldAt fn k (snd (fn w)).
Proof. reflexivity. Qed.

(** A run whose first [k] invocations fail with a retryable error and
    whose invocation [k] decides, or uses up the turns. *)
Lemma attemptLoop_outcome k : forall left attempt w,
  (k <= left)%nat ->
  (forall j, (j < k)%nat -> retryableFailure opts (callAt fn j w) = true) ->
  (k = left \/ retryableFailure opts (callAt fn k w) = false) ->
  attemptLoop fn opts left attempt w
  = (callAt fn k w, worldAt fn (S k) w,
     Invoked :: flat_map (fun a => [Slept (backoffDelay opts a); Invoked])
                         (seq attempt k)).
Proof.
  induction k as [|k IH]; intros left attempt w Hk Hfail Hlast.
  - unfold callAt in *. rewrite worldAt_succ. simpl worldAt in *.
    destruct left as [|left]; cbn [attemptLoop];
      destruct (fn w) as [[v|e] w1]; simpl in *; try reflexivity.
    destruct Hlast as [Hl|Hl]; [discriminate|]. rewrite Hl. reflexivity.
  - destruct left as [|left]; [lia|]. cbn [attemptLoop].
    pose proof (Hfail 0%nat ltac:(lia)) as H0. unfold callAt in H0.
    simpl worldAt in H0.
    assert (Hfail' : forall j, (j < k)%nat ->
              retryableFailure opts (callAt fn j (snd (fn w))) = true).
    { intros j Hj. rewrite <- callAt_succ. apply Hfail. lia. }
    assert (Hlast' : k = left
                     \/ retryableFailure opts (callAt fn k (snd (fn w))) = false).
    { destruct Hlast as [Hl|Hl]; [left; lia | right].
      rewrite <- callAt_succ. exact Hl. }
    rewrite callAt_succ, worldAt_succ.
    pose proof (IH left (S attempt) (snd (fn w)) ltac:(lia) Hfail' Hlast') as Hrec.
    clear Hfail Hlast Hfail' Hlast' IH.
    destruct (fn w) as [[v|e] w1]; simpl in H0, Hrec; [discriminate|].
    rewrite H0, Hrec. reflexivity.
Qed.

(** Every run has this shape, with [k + 1] the invocations it makes. *)
Lemma retry_decisive w result w' trace :
  retry fn opts w = (result, w', trace) ->
  exists k,
    invocations trace = S k /\ (k <= maxRetries opts)%nat /\
    (forall j, (j < k)%nat -> retryableFailure opts (callAt fn j w) = true) /\
    (k = maxRetries opts \/ retryableFailure opts (callAt fn k w) = false).
Proof.
  intros Hrun. unfold retry in Hrun.
  destruct (attemptLoop_shape fn opts _ _ _ _ _ _ Hrun)
    as [Hn [Hfail [Hres Hlast]]].
  exists (invocations trace - 1)%nat.
  split; [lia|]. split; [lia|]. split.
  - intros j Hj. destruct (Hfail j ltac:(lia)) as [e [-> He]]. exact He.
  - rewrite <- Hres. destruct result as [v|e]; [right; reflexivity|].
    simpl. destruct (isRetryable opts e) eqn:He; [|right; reflexivity].
    left. specialize (Hlast e eq_refl He). lia.
Qed.

Lemma sleeps_retryTrace k :
  sleeps (retryTrace opts k) = map (backoffDelay opts) (seq 0 k).
Proof.
  unfold retryTrace, sleeps. simpl.
  induction (seq 0 k) as [|a l IH]; simpl; [reflexivity|].
  rewrite IH. reflexivity.
Qed.

Lemma invocations_retryTrace k : invocations (retryTrace opts k) = S k.
Proof.
  unfold retryTrace. rewrite invocations_cons_Invoked. f_equal.
  assert (H : forall l,
             invocations
               (flat_map (fun a => [Slept (backoffDelay opts a); Invoked]) l)
             = List.length l).
  { induction l as [|a l IH]; [reflexivity|].
    cbn [flat_map app]. cbn [List.length].
    rewrite invocations_cons_Slept, invocations_cons_Invoked, IH. reflexivity. }
  rewrite H. apply length_seq.
Qed.

End RetrySchedule.

Section RetryOutcome.
Import JS AIRetryHelper Spec Samples.

Lemma backoffDelay_le opts a b :
  0 <= initialDelay opts -> 1 <= backoffMultiplier opts -> (a <= b)%nat ->
  backoffDelay opts a <= backoffDelay opts b.
Proof.
  intros Hi Hm Hab. unfold backoffDelay.
  apply Z.min_le_compat_r. apply Z.mul_le_mono_nonneg_l; [exact Hi|].
  apply Z.pow_le_mono_r; lia.
Qed.

Lemma backoffDelay_sorted opts k : forall start,
  0 <= initialDelay opts -> 1 <= backoffMultiplier opts ->
  StronglySorted Z.le (map (backoffDelay opts) (seq start k)).
Proof.
  induction k as [|k IH]; intros start Hi Hm; simpl; constructor.
  - apply IH; assumption.
  - apply Forall_forall. intros d Hd. apply in_map_iff in Hd.
    destruct Hd as [j [<- Hj]]. apply in_seq in Hj.
    apply backoffDelay_le; auto; lia.
Qed.

(** [retry] runs the operation until an invocation succeeds, fails with
    an error that is not retryable, or is the one that follows
    [maxRetries] retries. The result of that invocation is the result of
    [retry], the operation has acted on the world once for each
    invocation, and before each invocation but the first [retry] has slept
    the backoff delay of the failed attempt. *)
Theorem retry_outcome :
  forall (W T : Type) (fn : W -> Outcome T * W) (opts : RetryOptions)
         (w : W) (k : nat),
    (k <= maxRetries opts)%nat ->
    (forall j, (j < k)%nat -> retryableFailure opts (callAt fn j w) = true) ->
    (k = maxRetries opts \/ retryableFailure opts (callAt fn k w) = false) ->
    retry fn opts w = (callAt fn k w, worldAt fn (S k) w, retryTrace opts k).
Proof.
  intros W T fn opts w k Hk Hfail Hlast. unfold retry, retryTrace.
  apply attemptLoop_outcome; assumption.
Qed.

Lemma retry_outcome_witness :
  retry flakyOperation defaultOptions 0%nat
  = (Ok 2%nat, 3%nat, [Invoked; Slept 1000; Invoked; Slept 2000; Invoked]).
Proof.
  apply (retry_outcome nat nat flakyOperation defaultOptions 0%nat 2%nat).
  - simpl. lia.
  - intros [|[|j]] Hj; [reflexivity | reflexivity | lia].
  - right. reflexivity.
Defined.

(** In every run of [retry] the sleeps are the backoff delays of the
    attempts 0, 1, ... in this order,
    [min(initialDelay * backoffMultiplier ^ attempt, maxDelay)] each (the
    jitter comes on top): one for each invocation but the last, at most
    [maxRetries] of them, none above [maxDelay], and none shorter than
    the one before when [initialDelay] is not negative and the multiplier
    is at least 1. *)
Theorem retry_backoff_schedule :
  forall (W T : Type) (fn : W -> Outcome T * W) (opts : RetryOptions)
         (w : W) result w' trace,
    retry fn opts w = (result, w', trace) ->
    sleeps trace
    = map (backoffDelay opts) (seq 0 (invocations trace - 1)) /\
    (List.length (sleeps trace) <= maxRetries opts)%nat /\
    Forall (fun d => d <= maxDelay opts) (sleeps trace) /\
    (0 <= initialDelay opts -> 1 <= backoffMultiplier opts ->
     StronglySorted Z.le (sleeps trace)).
Proof.
  intros W T fn opts w result w' trace Hrun.
  destruct (retry_decisive fn opts w result w' trace Hrun)
    as [k [Hn [Hk [Hfail Hlast]]]].
  unfold retry in Hrun.
  rewrite (attemptLoop_outcome fn opts k _ 0%nat w Hk Hfail Hlast) in Hrun.
  injection Hrun as _ _ <-. fold (retryTrace opts k).
  rewrite sleeps_retryTrace, invocations_retryTrace.
  replace (S k - 1)%nat with k by lia.
  split; [reflexivity|]. split; [rewrite length_map, length_seq; exact Hk|].
  split.
  - apply Forall_forall. intros d Hd. apply in_map_iff in Hd.
    destruct Hd as [a [<- _]]. unfold backoffDelay. apply Z.le_min_r.
  - intros Hi Hm. apply backoffDelay_sorted; assumption.
Qed.

Lemma retry_backoff_schedule_witness :
  sleeps [Invoked; Slept 1000; Invoked; Slept 2000; Invoked] = [1000; 2000] /\
  StronglySorted Z.le (sleeps [Invoked; Slept 1000; Invoked; Slept 2000; Invoked]).
Proof.
  destruct (retry_backoff_schedule nat nat flakyOperation defaultOptions 0%nat
              _ _ _ eq_refl) as [Hsleeps [_ [_ Hsorted]]].
  split; [exact Hsleeps|].
  apply Hsorted; simpl; lia.
Defined.

End RetryOutcome.

(* ================================================================== *)
(** * AIRateLimiter: what a caller can rely on *)
(* ================================================================== *)

Section RateLimiterUse.
Import JS AIRateLimiter Spec.

Lemma filter_idem {A : Type} (f : A -> bool) (l : list A) :
  filter f (filter f l) = filter f l.
Proof.
  induction l as [|x l IH]; simpl; [reflexivity|].
  destruct (f x) eqn:E; simpl; rewrite ?E, IH; reflexivity.
Qed.

Lemma filter_all {A : Type} (f : A -> bool) (l : list A) :
  (forall x, In x l -> f x = true) -> filter f l = l.
Proof.
  induction l as [|x l IH]; simpl; intros H; [reflexivity|].
  rewrite (H x (or_introl eq_refl)), IH; auto.
Qed.

Lemma prune_idem l now : prune (prune l now) now = prune l now.
Proof. unfold prune. simpl. rewrite filter_idem. reflexivity. Qed.

Lemma checkRateLimit_prune l now :
  checkRateLimit (prune l now) now = checkRateLimit l now.
Proof. unfold checkRateLimit. rewrite prune_idem. reflexivity. Qed.

(** The wait time of a rejection is enough. A call rejected at [now]
    reports [windowMs - (now - oldest)]; a call made that much later, or
    later still, is accepted. *)
Theorem checkRateLimit_wait_time_suffices :
  forall (limit : nat) (window : Z) (calls : list Call)
         (now waitTime later : Z),
    let before := run (create limit window) calls in
    fst (checkRateLimit before now) = RateLimited (Some waitTime) ->
    now + waitTime <= later ->
    fst (checkRateLimit (snd (checkRateLimit before now)) later) = Allowed.
Proof.
  intros limit window calls now waitTime later before Hrejected Hlater.
  destruct (run_invariant calls (create limit window) ltac:(simpl; lia))
    as [Hmax [Hwin Hbound]].
  fold before in Hmax, Hwin, Hbound. simpl in Hmax, Hwin.
  pose proof (filter_length_le (inWindow (windowMs before) now)
                               (requestTimes before)) as Hpruned.
  unfold checkRateLimit in *. simpl in *.
  destruct (Nat.leb_spec (maxRequests before)
              (List.length (filter (inWindow (windowMs before) now)
                                   (requestTimes before)))) as [Hfull|Hroom];
    simpl in *; [|discriminate].
  destruct (filter (inWindow (windowMs before) now) (requestTimes before))
    as [|oldest rest] eqn:Hkept; simpl in *; [discriminate|].
  injection Hrejected as <-.
  assert (Hout : inWindow (windowMs before) later oldest = false)
    by (unfold inWindow; apply Z.ltb_ge; lia).
  rewrite Hout.
  pose proof (filter_length_le (inWindow (windowMs before) later) rest).
  destruct (Nat.leb_spec (maxRequests before)
              (List.length (filter (inWindow (windowMs before) later) rest)));
    [lia | reflexivity].
Qed.

Lemma checkRateLimit_wait_time_suffices_witness :
  fst (checkRateLimit
         (run (create 2 60000) [CheckRateLimit 1000; CheckRateLimit 2000]) 3000)
  = RateLimited (Some 58000) /\
  fst (checkRateLimit
         (snd (checkRateLimit
                 (run (create 2 60000) [CheckRateLimit 1000; CheckRateLimit 2000])
                 3000))
         61000)
  = Allowed.
Proof.
  split; [reflexivity|].
  apply (checkRateLimit_wait_time_suffices
           2 60000 [CheckRateLimit 1000; CheckRateLimit 2000] 3000 58000 61000).
  - reflexivity.
  - lia.
Defined.

(** [getRemainingRequests] tells what [checkRateLimit] will do. The
    count is positive exactly when a call at the same instant is
    accepted, asking does not change what that call does, the count is
    [maxRequests] less the requests recorded in the window, and an
    accepted call lowers it by one (for a window of positive length). *)
Theorem getRemainingRequests_predicts_checkRateLimit :
  forall (limit : nat) (window : Z) (calls : list Call) (now : Z),
    let l := run (create limit window) calls in
    let remaining := fst (getRemainingRequests l now) in
    let asked := snd (getRemainingRequests l now) in
    (0 < remaining <-> fst (checkRateLimit l now) = Allowed) /\
    checkRateLimit asked now = checkRateLimit l now /\
    remaining = Z.of_nat limit - Z.of_nat (recordedInWindow l now) /\
    (0 < window -> 0 < remaining ->
     fst (getRemainingRequests (snd (checkRateLimit l now)) now)
     = remaining - 1).
Proof.
  intros limit window calls now l remaining asked.
  destruct (run_invariant calls (create limit window) ltac:(simpl; lia))
    as [Hmax [Hwin Hbound]].
  fold l in Hmax, Hwin, Hbound. simpl in Hmax, Hwin.
  pose proof (filter_length_le (inWindow (windowMs l) now) (requestTimes l))
    as Hpruned.
  subst remaining asked.
  change (snd (getRemainingRequests l now)) with (prune l now).
  rewrite checkRateLimit_prune.
  unfold getRemainingRequests, checkRateLimit, recordedInWindow.
  simpl. rewrite Hmax, Hwin in *.
  set (kept := filter (inWindow window now) (requestTimes l)) in *.
  split; [|split; [reflexivity|split; [lia|]]].
  - destruct (Nat.leb_spec limit (List.length kept)); simpl; split;
      intros; try lia; try discriminate; reflexivity.
  - intros Hwindow Hpos.
    destruct (Nat.leb_spec limit (List.length kept)); simpl; [lia|].
    assert (Hkept : filter (inWindow window now) kept = kept)
      by apply filter_idem.
    assert (Hnow : inWindow window now now = true)
      by (unfold inWindow; apply Z.ltb_lt; lia).
    rewrite filter_app, Hkept. simpl. rewrite Hnow, length_app. simpl. lia.
Qed.

(** Calls whose times lie closer together than the window, made one
    after the other with the limiter pruning nothing in between. *)
Lemma verdicts_within_window times : forall l,
  (forall r t, In r (requestTimes l) -> In t times -> t - r < windowMs l) ->
  (forall t t', In t times -> In t' times -> t' - t < windowMs l) ->
  map isAllowed (verdicts l times)
  = map (fun k => (List.length (requestTimes l) + k <? maxRequests l)%nat)
        (seq 0 (List.length times)).
Proof.
  induction times as [|now rest IH]; intros l Hold Hnew; [reflexivity|].
  cbn [verdicts map List.length seq].
  assert (Hkeep : filter (inWindow (windowMs l) now) (requestTimes l)
                  = requestTimes l).
  { apply filter_all. intros r Hr. unfold inWindow. apply Z.ltb_lt.
    apply Hold; [exact Hr | left; reflexivity]. }
  unfold checkRateLimit. simpl. rewrite Hkeep.
  rewrite Nat.add_0_r.
  destruct (Nat.leb_spec (maxRequests l) (List.length (requestTimes l)))
    as [Hfull|Hroom]; simpl.
  - destruct (Nat.ltb_spec (List.length (requestTimes l)) (maxRequests l));
      [lia|]. f_equal. unfold prune. rewrite ?Hkeep.
    rewrite (IH (mkLimiter (requestTimes l) (maxRequests l) (windowMs l))).
    + simpl. rewrite <- seq_shift, map_map.
      apply map_ext_in. intros k _.
      destruct (Nat.ltb_spec (List.length (requestTimes l) + k) (maxRequests l));
        destruct (Nat.ltb_spec (List.length (requestTimes l) + S k) (maxRequests l));
        try reflexivity; lia.
    + simpl. intros r t Hr Ht. apply Hold; [exact Hr | right; exact Ht].
    + simpl. intros t t' Ht Ht'. apply Hnew; right; assumption.
  - destruct (Nat.ltb_spec (List.length (requestTimes l)) (maxRequests l));
      [|lia]. f_equal. unfold prune. simpl. rewrite ?Hkeep.
    rewrite (IH (mkLimiter (requestTimes l ++ [now]) (maxRequests l) (windowMs l))).
    + simpl. rewrite <- seq_shift, map_map, length_app. simpl.
      apply map_ext_in. intros k _. f_equal. lia.
    + simpl. intros r t Hr Ht. apply in_app_or in Hr.
      destruct Hr as [Hr|[<-|[]]].
      * apply Hold; [exact Hr | right; exact Ht].
      * apply Hnew; [left; reflexivity | right; exact Ht].
    + simpl. intros t t' Ht Ht'. apply Hnew; right; assumption.
Qed.

(** A burst after [reset]. Of calls whose times lie closer together than
    the window, made on a limiter that was just reset (or is new), the
    first [maxRequests] are accepted and every later one is rejected. *)
Theorem checkRateLimit_burst_after_reset :
  forall (l : Limiter) (times : list Z),
    (forall t t', In t times -> In t' times -> t' - t < windowMs l) ->
    map isAllowed (verdicts (reset l) times)
    = map (fun k => (k <? maxRequests l)%nat) (seq 0 (List.length times)).
Proof.
  intros l times Hclose.
  rewrite (verdicts_within_window times (reset l)).
  - reflexivity.
  - simpl. intros r t [].
  - simpl. exact Hclose.
Qed.

Lemma checkRateLimit_burst_after_reset_witness :
  map isAllowed (verdicts (reset (create 2 1000)) [5; 5; 400; 7])
  = [true; true; false; false].
Proof.
  apply (checkRateLimit_burst_after_reset (create 2 1000) [5; 5; 400; 7]).
  simpl. intros t t' Ht Ht'.
  repeat (destruct Ht as [<-|Ht]; [|]); try contradiction;
    repeat (destruct Ht' as [<-|Ht']; [|]); try contradiction; lia.
Defined.

End RateLimiterUse.

(* ================================================================== *)
(** * TextChunker.chunkText: spans, texts and the tiling *)
(* ================================================================== *)

Section ChunkerWindows.
Import JS Spec TextChunker.

Variable txt : jsstring.
Variables chunkSize overlap : Z.

Lemma chunkLoop_step fuel start acc :
  chunkLoop (S fuel) txt chunkSize overlap start acc
  = if start <? strlen txt then
      let '(c, next) := window txt chunkSize overlap start in
      if 1000 <? Z.of_nat (List.length (acc ++ [c])) then Some (acc ++ [c])
      else chunkLoop fuel txt chunkSize overlap next (acc ++ [c])
    else Some acc.
Proof. reflexivity. Qed.

(** A property of every chunk pushed at an offset inside the text holds
    of every chunk held when the loop is left. *)
Lemma chunkLoop_Forall_inside (P : Chunk -> Prop) :
  (forall start c next,
      start < strlen txt ->
      window txt chunkSize overlap start = (c, next) -> P c) ->
  forall fuel start acc ws,
    chunkLoop fuel txt chunkSize overlap start acc = Some ws ->
    Forall P acc -> Forall P ws.
Proof.
  intros HP. induction fuel as [|fuel IH]; intros start acc ws;
    [discriminate|]. rewrite chunkLoop_step.
  destruct (Z.ltb_spec start (strlen txt)) as [Hlt|Hge].
  - destruct (window txt chunkSize overlap start) as [c next] eqn:Hw.
    assert (Hacc : Forall P acc -> Forall P (acc ++ [c])).
    { intros Ha. apply Forall_app. split; [exact Ha|].
      constructor; [eapply HP; eauto | constructor]. }
    destruct (1000 <? Z.of_nat (List.length (acc ++ [c]))).
    + intros [= <-] Ha. auto.
    + intros H Ha. eapply IH; eauto.
  - intros [= <-] Ha. exact Ha.
Qed.

(** The span of a window that starts inside the text holds at least one
    character. *)
Lemma window_not_empty start c next :
  window txt chunkSize overlap start = (c, next) ->
  0 <= start < strlen txt -> 0 < chunkSize ->
  start <= endIndex c /\
  (text c <> [] -> start < endIndex c).
Proof.
  intros Hw Hs Hcs.
  destruct (window_inside txt chunkSize overlap start c next Hw Hs Hcs)
    as [Hstart [Hend [Htext _]]].
  assert (Hle : start <= endIndex c).
  { unfold window in Hw. unfold strlen in *.
    set (e := Z.min (start + chunkSize) (Z.of_nat (List.length txt))) in *.
    pose proof (lastIndexOf_bounds space (slice txt start e)) as Hb.
    destruct (_ && _); [destruct (pastThreshold _ _)|];
      injection Hw as <- _; simpl; unfold e in *; lia. }
  split; [exact Hle|]. intros Hne.
  destruct (Z.eq_dec start (endIndex c)) as [E|]; [|lia].
  exfalso. apply Hne. rewrite Htext, <- E. unfold sub.
  rewrite Z.sub_diag. reflexivity.
Qed.

End ChunkerWindows.

Section ChunkerTiling.
Import JS Spec TextChunker.

Variable txt : jsstring.
Variables chunkSize overlap step : Z.
Hypothesis Hoverlap : 0 <= overlap.
Hypothesis Hadvances : advancesBy step chunkSize overlap = true.

(** One window inside the text: it ends the text, or the next window
    starts [overlap] characters before its end, at least [step]
    characters further on and still inside the text. *)
Lemma window_tile start c next :
  window txt chunkSize overlap start = (c, next) ->
  0 <= start < strlen txt ->
  startIndex c = start /\
  start < endIndex c <= strlen txt /\
  ((endIndex c = strlen txt /\ next = strlen txt) \/
   (endIndex c < strlen txt /\ next = endIndex c - overlap /\
    start + step <= next)).
Proof.
  intros Hw Hs.
  pose proof (advancesBy_step chunkSize overlap step Hadvances) as Hstep.
  unfold window in Hw. unfold strlen in *.
  set (e := Z.min (start + chunkSize) (Z.of_nat (List.length txt))) in *.
  assert (Hct : slice txt start e = sub txt start e)
    by (apply slice_sub; lia).
  rewrite Hct in Hw.
  assert (Hlen : Z.of_nat (List.length (sub txt start e)) = e - start)
    by (apply sub_length; lia).
  destruct (Z.ltb_spec e (Z.of_nat (List.length txt))) as [Hin|Hend];
    cbn [andb] in Hw.
  - destruct (Z.eqb_spec (Z.of_nat (List.length (sub txt start e))) chunkSize)
      as [Hfull|Hshort]; [|exfalso; apply Hshort; rewrite Hlen; unfold e; lia].
    pose proof (lastIndexOf_bounds space (sub txt start e)) as Hb.
    destruct (pastThreshold (lastIndexOf space (sub txt start e)) chunkSize)
      eqn:Hpast; injection Hw as <- <-; simpl.
    + assert (overlap + step <= lastIndexOf space (sub txt start e) + 1)
        by (apply (advancesBy_break chunkSize overlap step Hadvances);
            auto; lia).
      split; [reflexivity|]. split; [lia|]. right. lia.
    + split; [reflexivity|]. split; [unfold e in *; lia|]. right.
      unfold e in *. lia.
  - injection Hw as <- <-. simpl.
    split; [reflexivity|]. split; [unfold e in *; lia|]. left.
    unfold e in *. lia.
Qed.

Lemma chunkLoop_tiles fuel : forall start acc ws,
  chunkLoop fuel txt chunkSize overlap start acc = Some ws ->
  0 <= start < strlen txt ->
  (List.length ws <= 1000)%nat ->
  exists more, ws = acc ++ more /\ tilesFrom overlap (strlen txt) start more.
Proof.
  pose proof (advancesBy_step chunkSize overlap step Hadvances) as Hstep.
  induction fuel as [|fuel IH]; intros start acc ws Hrun Hs Hcap;
    [discriminate|]. rewrite chunkLoop_step in Hrun.
  destruct (Z.ltb_spec start (strlen txt)) as [_|]; [|lia].
  destruct (window txt chunkSize overlap start) as [c next] eqn:Hw.
  destruct (window_tile start c next Hw Hs) as [Hstart [Hend Hnext]].
  destruct (Z.ltb_spec 1000 (Z.of_nat (List.length (acc ++ [c]))))
    as [Hfull|Hroom].
  - injection Hrun as <-. lia.
  - destruct Hnext as [[Hlast ->]|[Hin [-> Hfar]]].
    + destruct fuel as [|fuel]; [discriminate|].
      rewrite chunkLoop_step in Hrun.
      destruct (Z.ltb_spec (strlen txt) (strlen txt)); [lia|].
      injection Hrun as <-. exists [c]. split; [reflexivity|].
      simpl. split; [exact Hstart|]. split; [exact Hend|]. left. auto.
    + destruct (IH _ _ _ Hrun ltac:(lia) Hcap) as [more [-> Htiles]].
      exists (c :: more). split; [rewrite <- app_assoc; reflexivity|].
      simpl. split; [exact Hstart|]. split; [exact Hend|]. right.
      split; [lia | exact Htiles].
Qed.

End ChunkerTiling.

Section ChunkerUse.
Import JS Spec TextChunker.

Lemma slice_all {A : Type} (s : list A) :
  slice s 0 (Z.of_nat (List.length s)) = s.
Proof.
  rewrite slice_sub by lia. unfold sub. simpl skipn.
  rewrite Z.sub_0_r, Nat2Z.id. apply firstn_all.
Qed.

(** A text that fits in one chunk. A text of at most [chunkSize]
    characters comes back as one chunk that spans all of it and holds its
    trimmed characters, and as no chunk at all when it is empty or holds
    white space only; the overlap plays no part. *)
Theorem chunkText_short_text :
  forall (txt : jsstring) (chunkSize overlap : Z),
    strlen txt <= chunkSize ->
    chunkText txt chunkSize overlap
    = Some (if 0 <? strlen (trim txt)
            then [mkChunk (trim txt) 0 (strlen txt)]
            else []).
Proof.
  intros txt chunkSize overlap Hshort.
  unfold chunkText, chunkTextFuel, chunkWindowsFuel.
  destruct (Z.eqb_spec (strlen txt) 0) as [Hz|Hnz].
  - unfold strlen in Hz. destruct txt; [reflexivity | simpl in Hz; lia].
  - change loopFuel with (S (S 999)). rewrite chunkLoop_step.
    assert (Hpos : 0 < strlen txt) by (unfold strlen in *; lia).
    destruct (Z.ltb_spec 0 (strlen txt)); [|lia].
    assert (Hw : window txt chunkSize overlap 0
                 = (mkChunk (trim txt) 0 (strlen txt), strlen txt)).
    { unfold window. rewrite Z.min_r by lia.
      rewrite Z.ltb_irrefl. cbn [andb]. unfold strlen. rewrite slice_all.
      reflexivity. }
    rewrite Hw. cbn [app List.length]. cbn [Z.of_nat Z.ltb Z.compare Pos.compare Pos.compare_cont Pos.of_succ_nat].
    rewrite chunkLoop_step, Z.ltb_irrefl. simpl.
    unfold nonEmptyText. simpl. reflexivity.
Qed.

Lemma chunkText_short_text_witness :
  chunkText (lit "  hello  ") 500 50 = Some [mkChunk (lit "hello") 0 9].
Proof.
  apply (chunkText_short_text (lit "  hello  ") 500 50).
  vm_compute. discriminate.
Defined.

(** The indices of a chunk point into the text. For a chunk that
    starts at an offset that is not negative, the span holds at least one
    character, lies inside the text, and the text of the chunk is what
    [text.slice(startIndex, endIndex).trim()] gives. *)
Theorem chunkText_text_at_span :
  forall (txt : jsstring) (chunkSize overlap : Z) (chunks : list Chunk)
         (c : Chunk),
    0 < chunkSize ->
    chunkText txt chunkSize overlap = Some chunks ->
    In c chunks ->
    0 <= startIndex c ->
    startIndex c < endIndex c <= strlen txt /\
    text c = trim (slice txt (startIndex c) (endIndex c)).
Proof.
  intros txt chunkSize overlap chunks c Hcs Hres Hin Hstart.
  destruct (chunkText_windows _ _ _ _ Hres) as [ws [Hws ->]].
  apply filter_In in Hin. destruct Hin as [Hin Hne].
  assert (Hall : Forall (fun c =>
            0 <= startIndex c ->
            (text c <> [] -> startIndex c < endIndex c) /\
            startIndex c <= endIndex c <= strlen txt /\
            text c = trim (sub txt (startIndex c) (endIndex c))) ws).
  { unfold chunkWindows, chunkWindowsFuel in Hws.
    destruct (strlen txt =? 0).
    - injection Hws as <-. constructor.
    - eapply (chunkLoop_Forall_inside txt chunkSize overlap);
        [|exact Hws|constructor].
      intros start c' next Hlt Hw H0.
      assert (Hstart' : startIndex c' = start).
      { unfold window in Hw.
        destruct (_ && _); [destruct (pastThreshold _ _)|];
          injection Hw as <- _; reflexivity. }
      rewrite Hstart' in *.
      destruct (window_inside txt chunkSize overlap start c' next Hw
                  ltac:(lia) Hcs) as [_ [Hend [Htext _]]].
      destruct (window_not_empty txt chunkSize overlap start c' next Hw
                  ltac:(lia) Hcs) as [Hle Hlt'].
      split; [exact Hlt'|]. split; [lia | exact Htext]. }
  rewrite Forall_forall in Hall.
  destruct (Hall c Hin Hstart) as [Hlt [Hspan Htext]].
  assert (Hfull : text c <> []).
  { unfold nonEmptyText, strlen in Hne. intros E. rewrite E in Hne.
    discriminate. }
  split; [specialize (Hlt Hfull); lia|].
  rewrite slice_sub by (unfold strlen in *; lia). exact Htext.
Qed.

Lemma chunkText_text_at_span_witness :
  chunkText (lit "The quick brown fox jumps") 10 2
  = Some [mkChunk (lit "The quick") 0 10; mkChunk (lit "k brown fo") 8 18;
          mkChunk (lit "fox jumps") 16 25] /\
  lit "fox jumps" = trim (slice (lit "The quick brown fox jumps") 16 25).
Proof.
  split; [vm_compute; reflexivity|].
  apply (chunkText_text_at_span
           (lit "The quick brown fox jumps") 10 2
           [mkChunk (lit "The quick") 0 10; mkChunk (lit "k brown fo") 8 18;
            mkChunk (lit "fox jumps") 16 25]
           (mkChunk (lit "fox jumps") 16 25)).
  - lia.
  - vm_compute. reflexivity.
  - right. right. left. reflexivity.
  - simpl. lia.
Defined.

(** The windows tile the text. When every window moves forward by at
    least [step] characters and the text has at most [1000 * step]
    characters, the chunks pushed by the loop (before the final filter)
    run from offset 0 to the end of the text: each one starts exactly
    [overlap] characters before the end of the one before it and ends
    further on, and the last one ends with the text. *)
Theorem chunkWindows_tile_the_text :
  forall (txt : jsstring) (chunkSize overlap step : Z) (windows : list Chunk),
    0 <= overlap ->
    advancesBy step chunkSize overlap = true ->
    strlen txt <= 1000 * step ->
    chunkWindows txt chunkSize overlap = Some windows ->
    tilesFrom overlap (strlen txt) 0 windows.
Proof.
  intros txt chunkSize overlap step windows Hov Hstep Hlen Hws.
  unfold chunkWindows, chunkWindowsFuel in Hws.
  destruct (Z.eqb_spec (strlen txt) 0) as [Hz|Hnz].
  - injection Hws as <-. simpl. lia.
  - pose proof (advancesBy_step chunkSize overlap step Hstep) as Hs.
    destruct (chunkLoop_advancing txt chunkSize overlap step Hov Hstep
                _ _ _ _ Hws ltac:(lia) ltac:(constructor))
      as [_ Hcount].
    simpl List.length in Hcount.
    assert (Hcap : (List.length windows <= 1000)%nat)
      by (unfold strlen in *; nia).
    destruct (chunkLoop_tiles txt chunkSize overlap step Hov Hstep
                _ _ _ _ Hws ltac:(unfold strlen in *; lia) Hcap)
      as [more [-> Htiles]].
    exact Htiles.
Qed.

Lemma chunkWindows_tile_the_text_witness :
  chunkWindows (lit "The quick brown fox jumps") 10 2
  = Some [mkChunk (lit "The quick") 0 10; mkChunk (lit "k brown fo") 8 18;
          mkChunk (lit "fox jumps") 16 25] /\
  tilesFrom 2 25 0
    [mkChunk (lit "The quick") 0 10; mkChunk (lit "k brown fo") 8 18;
     mkChunk (lit "fox jumps") 16 25].
Proof.
  split; [vm_compute; reflexivity|].
  apply (chunkWindows_tile_the_text (lit "The quick brown fox jumps") 10 2 7).
  - lia.
  - vm_compute. reflexivity.
  - vm_compute. discriminate.
  - vm_compute. reflexivity.
Defined.

End ChunkerUse.

(* ================================================================== *)
(** * OpenAIEmbeddingService.generateEmbedding *)
(* ================================================================== *)

Section EmbeddingRequests.
Import JS Entities AIRetryHelper Spec OpenAIEmbeddingService SessionService.

Lemma trim_nil_of_nil (text : jsstring) : strlen text = 0 -> strlen (trim text) = 0.
Proof.
  unfold strlen. destruct text; [reflexivity | simpl; lia].
Qed.


Variable provider : jsstring -> Outcome vector.

Lemma request_callAt text k w :
  callAt (request provider text) k w = provider text.
Proof.
  revert w. induction k as [|k IH]; intros w; [reflexivity|].
  rewrite callAt_succ. apply IH.
Qed.

Lemma request_worldAt text k w :
  worldAt (request provider text) k w
  = mkWorld (database w) (providerRequests w ++ repeat text k).
Proof.
  revert w. induction k as [|k IH]; intros w.
  - simpl. rewrite app_nil_r. destruct w; reflexivity.
  - rewrite worldAt_succ, IH. simpl. rewrite <- app_assoc. reflexivity.
Qed.

(** How often the provider is asked for one text. *)
Lemma retry_request text w :
  retry (request provider text) defaultOptions w
  = let n := if retryableFailure defaultOptions (provider text)
             then 4%nat else 1%nat in
    (provider text,
     mkWorld (database w) (providerRequests w ++ repeat text n),
     retryTrace defaultOptions (n - 1)).
Proof.
  destruct (retryableFailure defaultOptions (provider text)) eqn:Hr; cbv zeta.
  - rewrite <- (request_callAt text 3 w), <- (request_worldAt text 4 w).
    apply attemptLoop_outcome.
    + simpl. lia.
    + intros j _. rewrite request_callAt. exact Hr.
    + left. reflexivity.
  - rewrite <- (request_callAt text 0 w), <- (request_worldAt text 1 w).
    apply attemptLoop_outcome.
    + simpl. lia.
    + intros j Hj. lia.
    + right. rewrite request_callAt. exact Hr.
Qed.

Lemma generateEmbedding_wired text w :
  OpenAIEmbeddingService.generateEmbedding (request provider) text w
  = if strlen (trim text) =? 0 then
      (Throw (Error "Text is required for embedding generation"), w)
    else
      let sent := firstCharacters 8000 text in
      (provider sent,
       mkWorld (database w)
               (providerRequests w
                ++ repeat sent (if retryableFailure defaultOptions (provider sent)
                                then 4%nat else 1%nat))).
Proof.
  unfold OpenAIEmbeddingService.generateEmbedding.
  destruct (Z.eqb_spec (strlen text) 0) as [Hz|Hnz]; cbn [orb].
  - rewrite (trim_nil_of_nil text Hz). reflexivity.
  - destruct (strlen (trim text) =? 0); [reflexivity|].
    cbv zeta. fold (firstCharacters 8000 text).
    rewrite retry_request. reflexivity.
Qed.

End EmbeddingRequests.

Section EmbeddingClaims.
Import JS Entities AIRetryHelper Spec OpenAIEmbeddingService SessionService.
Import Samples.


(** An error answer of the provider is not retried. When [fetch]
    resolves with an answer that is not [ok], whatever its status (429
    and 503 included), or with a body without an embedding array,
    [generateEmbedding] throws a plain [Error] that carries no status,
    after that single [fetch]. *)
Theorem generateEmbedding_error_answer_not_retried :
  forall (W : Type) (fetch : jsstring -> W -> Outcome Response * W)
         (text : jsstring) (w w1 : W) (response : Response),
    strlen (trim text) <> 0 ->
    fetch (firstCharacters 8000 text) w = (Ok response, w1) ->
    ok response = false \/ embeddingField response = Ok None ->
    let thrown :=
      if ok response then Error "Invalid embedding response from OpenAI"
      else Error (apiErrorMessage response) in
    OpenAIEmbeddingService.generateEmbedding (requestEmbedding fetch) text w
    = (Throw thrown, w1) /\
    statusOf thrown = None /\
    isRetryable defaultOptions thrown = false.
Proof.
  intros W fetch text w w1 response Hne Hfetch Hbad thrown.
  assert (Hplain : statusOf thrown = None /\
                   isRetryable defaultOptions thrown = false)
    by (subst thrown; destruct (ok response); split; reflexivity).
  split; [|exact Hplain].
  unfold OpenAIEmbeddingService.generateEmbedding.
  assert (Hfull : (strlen text =? 0) = false).
  { apply Z.eqb_neq. intros Hz. apply Hne. apply trim_nil_of_nil. exact Hz. }
  apply Z.eqb_neq in Hne. rewrite Hfull, Hne. cbn [orb]. cbv zeta.
  fold (firstCharacters 8000 text).
  assert (Hcall : requestEmbedding fetch (firstCharacters 8000 text) w
                  = (Throw thrown, w1)).
  { unfold requestEmbedding. rewrite Hfetch. subst thrown.
    destruct (ok response); cbn [negb]; [|reflexivity].
    destruct Hbad as [Hbad|Hbad]; [discriminate | rewrite Hbad; reflexivity]. }
  unfold retry.
  rewrite (attemptLoop_outcome
             (requestEmbedding fetch (firstCharacters 8000 text))
             defaultOptions 0 _ 0%nat w).
  - unfold callAt. simpl worldAt. rewrite Hcall. reflexivity.
  - simpl. lia.
  - intros j Hj. lia.
  - right. unfold callAt. simpl worldAt. rewrite Hcall. simpl.
    apply Hplain.
Qed.

Lemma generateEmbedding_error_answer_not_retried_witness :
  let tooMany := mkResponse false 429 "{}" (Ok None) in
  let fetch := fun (_ : jsstring) (calls : nat) => (Ok tooMany, S calls) in
  OpenAIEmbeddingService.generateEmbedding (requestEmbedding fetch)
                                           (lit "anxiety") 0%nat
  = (Throw (Error "OpenAI API error: 429 - {}"), 1%nat).
Proof.
  intros tooMany fetch.
  apply (generateEmbedding_error_answer_not_retried
           nat fetch (lit "anxiety") 0%nat 1%nat tooMany).
  - vm_compute. discriminate.
  - reflexivity.
  - left. reflexivity.
Defined.

End EmbeddingClaims.

(* ================================================================== *)
(** * SessionService.searchSessions on the wired repositories *)
(* ================================================================== *)

Section SessionMapFacts.
Import JS Entities Spec SessionService.

Lemma mapSet_keys {V : Type} (m : StringMap V) key v x :
  In x (map fst (mapSet m key v)) -> x = key \/ In x (map fst m).
Proof.
  induction m as [|[k v'] rest IH]; simpl.
  - intros [<-|[]]. left. reflexivity.
  - destruct (streq k key); simpl; intros [<-|H]; auto.
    destruct (IH H); auto.
Qed.

Lemma mapSet_NoDup {V : Type} (m : StringMap V) key v :
  NoDup (map fst m) -> NoDup (map fst (mapSet m key v)).
Proof.
  induction m as [|[k v'] rest IH]; simpl; intros Hm.
  - constructor; [intros [] | constructor].
  - inversion Hm as [|k' ks Hk Hrest]; subst.
    destruct (streq k key) eqn:E; simpl.
    + constructor; assumption.
    + constructor; [|apply IH; exact Hrest].
      intros Hin. apply mapSet_keys in Hin. destruct Hin as [->|Hin].
      * assert (streq key key = true) by (apply streq_eq; reflexivity).
        congruence.
      * contradiction.
Qed.

Lemma mapSet_Forall_entries {V : Type} (P : jsstring * V -> Prop)
      (m : StringMap V) key v :
  Forall P m -> P (key, v) -> Forall P (mapSet m key v).
Proof.
  intros Hm Hv. induction Hm as [|[k v'] rest Hk Hrest IH]; simpl.
  - constructor; [exact Hv | constructor].
  - destruct (streq k key) eqn:E; constructor; auto.
    apply streq_eq in E. subst k. exact Hv.
Qed.

Context {W : Type}.
Variable embeddingService : IEmbeddingService W.
Variable queryEmbedding : vector.
Variable allFetched : list TranscriptChunk.

(** The loop that fills [sessionMap] keeps one entry for each session,
    made of fetched chunks of that session. *)
Lemma groupBySession_groups : forall fetched sessionMap grouped,
  groupBySession embeddingService queryEmbedding fetched sessionMap
  = Ok grouped ->
  incl fetched allFetched ->
  Forall (groupOf (fun c => cosineSimilarity embeddingService queryEmbedding
                                             (embedding c))
                  allFetched) sessionMap ->
  NoDup (map fst sessionMap) ->
  Forall (groupOf (fun c => cosineSimilarity embeddingService queryEmbedding
                                             (embedding c))
                  allFetched) grouped /\
  NoDup (map fst grouped).
Proof.
  induction fetched as [|chunk rest IH];
    intros sessionMap grouped Hrun Hincl Hmap Hkeys; simpl in Hrun.
  - injection Hrun as <-. auto.
  - destruct (cosineSimilarity embeddingService queryEmbedding (embedding chunk))
      as [sim|e] eqn:Hsim; [|discriminate].
    apply (IH _ _ Hrun).
    + intros c Hc. apply Hincl. right. exact Hc.
    + apply mapSet_Forall_entries; [exact Hmap|].
      assert (Hnew : In chunk allFetched /\
                     sessionId chunk = sessionId chunk /\
                     cosineSimilarity embeddingService queryEmbedding
                                      (embedding chunk) = Ok sim).
      { split; [apply Hincl; left; reflexivity | auto]. }
      destruct (mapGet sessionMap (sessionId chunk)) as [data|] eqn:Hget.
      * apply mapGet_In in Hget. rewrite Forall_forall in Hmap.
        destruct (Hmap _ Hget) as [Hchunks Hmax]. simpl in Hchunks, Hmax.
        split; simpl.
        -- apply Forall_app. split; [exact Hchunks|].
           constructor; [exact Hnew | constructor].
        -- rewrite map_app. apply in_or_app.
           destruct (PrimFloat.ltb (maxSimilarity data) sim);
             [right; left; reflexivity | left; exact Hmax].
      * split; simpl.
        -- constructor; [exact Hnew | constructor].
        -- destruct (PrimFloat.ltb sim sim); left; reflexivity.
    + apply mapSet_NoDup. exact Hkeys.
Qed.

End SessionMapFacts.

Section WiredSearchFacts.
Import JS Entities Spec SessionService.

Lemma findSimilarChunks_candidates db q ids n c :
  In c (TranscriptChunkRepository.findSimilarChunks db q ids n) ->
  In c (transcript_chunks db) /\
  (forall s rest, ids = Some (s :: rest) -> In (sessionId c) (s :: rest)).
Proof.
  rewrite findSimilarChunks_scored. intros Hc.
  apply in_map_iff in Hc. destruct Hc as [p [<- Hp]].
  apply firstn_In in Hp.
  destruct (scored_In db q ids p Hp) as [Hin _].
  apply (selectChunks_stored db ids (fst p) Hin).
Qed.

Variable provider : jsstring -> Outcome vector.
Variable limit : nat.
Variable highlightText : jsstring -> list jsstring -> jsstring.

Let storedResult := Spec.storedResult highlightText.

Lemma buildResults_wired terms : forall entries acc w,
  buildResults sessionRepository highlightText terms entries acc w
  = (Ok (acc ++ flat_map (storedResult terms (database w)) entries), w).
Proof.
  induction entries as [|[sid data] rest IH]; intros acc w; simpl.
  - rewrite app_nil_r. reflexivity.
  - unfold bind at 1. simpl. unfold storedResult, Spec.storedResult at 1. simpl.
    destruct (find (fun s => streq (id s) sid) (sessions (database w)))
      as [session|].
    + rewrite IH, <- app_assoc. reflexivity.
    + apply IH.
Qed.

Lemma rankSessions_wired query q terms ids w response w' :
  rankSessions sessionRepository transcriptChunkRepository
               (openAIEmbeddingService provider) limit highlightText
               query q terms ids w
  = (Ok response, w') ->
  w' = w /\
  exists sessionMap,
    groupBySession (openAIEmbeddingService provider) q
      (TranscriptChunkRepository.findSimilarChunks (database w) q ids (limit * 3))
      []
    = Ok sessionMap /\
    results response
    = firstn limit
        (sort (fun a b => PrimFloat.sub (similarity b) (similarity a))
              (flat_map (storedResult terms (database w)) sessionMap)).
Proof.
  unfold rankSessions. intros Hrun.
  unfold bind at 1 in Hrun. simpl in Hrun.
  destruct (groupBySession (openAIEmbeddingService provider) q
              (TranscriptChunkRepository.findSimilarChunks
                 (database w) q ids (limit * 3)) [])
    as [sessionMap|e] eqn:Hgroup;
    unfold bind at 1, lift in Hrun; [|discriminate].
  unfold bind in Hrun. rewrite buildResults_wired in Hrun.
  injection Hrun as <- <-. split; [reflexivity|].
  exists sessionMap. split; [reflexivity|].
  simpl. apply slice_firstn.
Qed.

(** What a search that returns has done: the provider has answered the
    query with [q], the stored data is as before, and the results are
    none, or the first [limit] of the sorted results of the sessions that
    the fetched chunks group into. *)
Lemma wiredSearch_results query therapist w response w' :
  wiredSearch provider limit highlightText query therapist w
  = (Ok response, w') ->
  exists q,
    provider (firstCharacters 8000 query) = Ok q /\
    database w' = database w /\
    (results response = [] \/
     exists ids sessionMap,
       ((ids = None /\ (therapist = None \/ therapist = Some [])) \/
        exists t s rest,
          therapist = Some t /\
          map id (filter (fun s => streq (therapistId s) t)
                         (sessions (database w))) = s :: rest /\
          ids = Some (s :: rest)) /\
       groupBySession (openAIEmbeddingService provider) q
         (TranscriptChunkRepository.findSimilarChunks
            (database w) q ids (limit * 3))
         []
       = Ok sessionMap /\
       results response
       = firstn limit
           (sort (fun a b => PrimFloat.sub (similarity b) (similarity a))
                 (flat_map (storedResult (queryTermsOf query) (database w))
                           sessionMap))).
Proof.
  unfold wiredSearch, searchSessions.
  destruct (strlen query =? 0); [discriminate|].
  unfold bind at 1.
  change (generateEmbedding (openAIEmbeddingService provider) query w)
    with (OpenAIEmbeddingService.generateEmbedding (request provider) query w).
  rewrite generateEmbedding_wired.
  destruct (strlen (trim query) =? 0); [discriminate|]. cbv zeta.
  destruct (provider (firstCharacters 8000 query)) as [q|e] eqn:Hq;
    [|discriminate].
  fold (queryTermsOf query).
  set (w1 := mkWorld (database w) _).
  intros Hrun. exists q. split; [reflexivity|].
  assert (Hrank : forall ids,
             rankSessions sessionRepository transcriptChunkRepository
               (openAIEmbeddingService provider) limit highlightText
               query q (queryTermsOf query) ids w1 = (Ok response, w') ->
             database w' = database w /\
             exists sessionMap,
               groupBySession (openAIEmbeddingService provider) q
                 (TranscriptChunkRepository.findSimilarChunks
                    (database w) q ids (limit * 3)) []
               = Ok sessionMap /\
               results response
               = firstn limit
                   (sort (fun a b => PrimFloat.sub (similarity b) (similarity a))
                         (flat_map (storedResult (queryTermsOf query) (database w))
                                   sessionMap))).
  { intros ids Hr. apply rankSessions_wired in Hr.
    destruct Hr as [-> Hr]. split; [reflexivity | exact Hr]. }
  destruct therapist as [[|c tid]|].
  - destruct (Hrank None Hrun) as [Hdb [sessionMap [Hg Hres]]].
    split; [exact Hdb|]. right. exists None, sessionMap. auto.
  - unfold bind at 1 in Hrun. simpl in Hrun.
    destruct (map id (filter (fun s => streq (therapistId s) (c :: tid))
                             (sessions (database w))))
      as [|s rest] eqn:Hids; simpl in Hrun.
    + injection Hrun as <- <-. split; [reflexivity|]. left. reflexivity.
    + destruct (Hrank _ Hrun) as [Hdb [sessionMap [Hg Hres]]].
      split; [exact Hdb|]. right. exists (Some (s :: rest)), sessionMap.
      split; [right; exists (c :: tid), s, rest; auto|]. auto.
  - destruct (Hrank None Hrun) as [Hdb [sessionMap [Hg Hres]]].
    split; [exact Hdb|]. right. exists None, sessionMap. auto.
Qed.

End WiredSearchFacts.

Section WiredSearchResults.
Import JS Entities Spec SessionService.

Variable provider : jsstring -> Outcome vector.
Variable limit : nat.
Variable highlightText : jsstring -> list jsstring -> jsstring.

Lemma NoDup_firstn {A : Type} (n : nat) (l : list A) :
  NoDup l -> NoDup (firstn n l).
Proof.
  intros H. rewrite <- (firstn_skipn n l) in H.
  apply NoDup_app_remove_r in H. exact H.
Qed.

Lemma NoDup_map_eq {A B : Type} (f : A -> B) (l : list A) a b :
  NoDup (map f l) -> In a l -> In b l -> f a = f b -> a = b.
Proof.
  induction l as [|x l IH]; simpl; intros Hl Ha Hb Hf; [contradiction|].
  inversion Hl as [|y ys Hx Hrest]; subst.
  destruct Ha as [->|Ha], Hb as [->|Hb]; auto.
  - exfalso. apply Hx. rewrite Hf. apply in_map. exact Hb.
  - exfalso. apply Hx. rewrite <- Hf. apply in_map. exact Ha.
Qed.

(** A snippet is made of one of the chunks of the entry. *)
Lemma buildSnippets_In terms data s :
  In s (buildSnippets highlightText terms data) ->
  exists chunk sim,
    In (chunk, sim) (chunks data) /\
    s = mkSnippet (highlightText (chunkText chunk) terms) (timestamp chunk) sim.
Proof.
  unfold buildSnippets. change 3%Z with (Z.of_nat 3). rewrite slice_firstn.
  intros Hs. apply in_map_iff in Hs. destruct Hs as [[chunk sim] [<- Hp]].
  apply firstn_In in Hp. apply (Permutation_in _ (sort_perm _ _)) in Hp.
  exists chunk, sim. auto.
Qed.

(** A result of the search comes from an entry of [sessionMap] and from
    the stored session of its key. *)
Lemma storedResult_In terms db sessionMap r :
  In r (flat_map (storedResult highlightText terms db) sessionMap) ->
  exists e session,
    In e sessionMap /\ In session (sessions db) /\ id session = fst e /\
    r = resultFor highlightText terms session (snd e).
Proof.
  intros Hr. apply in_flat_map in Hr. destruct Hr as [e [He Hr]].
  unfold storedResult in Hr.
  destruct (find (fun s => streq (id s) (fst e)) (sessions db))
    as [session|] eqn:Hfind; [|destruct Hr].
  destruct Hr as [<-|[]]. apply find_some in Hfind.
  destruct Hfind as [Hin Heq]. apply streq_eq in Heq.
  exists e, session. auto.
Qed.

Lemma storedResult_ids terms db sessionMap :
  NoDup (map fst sessionMap) ->
  NoDup (map resultSessionId
             (flat_map (storedResult highlightText terms db) sessionMap)).
Proof.
  induction sessionMap as [|e rest IH]; simpl; intros Hkeys; [constructor|].
  inversion Hkeys as [|k ks Hk Hrest]; subst.
  rewrite map_app. unfold storedResult at 1.
  destruct (find (fun s => streq (id s) (fst e)) (sessions db))
    as [session|] eqn:Hfind; simpl; [|apply IH; exact Hrest].
  apply find_some in Hfind. destruct Hfind as [_ Heq].
  apply streq_eq in Heq.
  constructor; [|apply IH; exact Hrest].
  intros Hin. apply in_map_iff in Hin. destruct Hin as [r [Hid Hr]].
  apply storedResult_In in Hr.
  destruct Hr as [e' [session' [He' [_ [Hkey ->]]]]]. simpl in Hid.
  apply Hk. rewrite <- Heq, <- Hid, Hkey. apply in_map. exact He'.
Qed.

(** The results of a search that returns, traced back to the entries of
    [sessionMap]. *)
Lemma wiredSearch_entries query therapist w response w' :
  wiredSearch provider limit highlightText query therapist w
  = (Ok response, w') ->
  exists q,
    provider (firstCharacters 8000 query) = Ok q /\
    database w' = database w /\
    (results response = [] \/
     exists ids fetched sessionMap,
       fetched = TranscriptChunkRepository.findSimilarChunks
                   (database w) q ids (limit * 3) /\
       ((ids = None /\ (therapist = None \/ therapist = Some [])) \/
        exists t s rest,
          therapist = Some t /\
          map id (filter (fun s => streq (therapistId s) t)
                         (sessions (database w))) = s :: rest /\
          ids = Some (s :: rest)) /\
       Forall (groupOf (fun c => OpenAIEmbeddingService.cosineSimilarity
                                   q (embedding c)) fetched) sessionMap /\
       NoDup (map fst sessionMap) /\
       results response
       = firstn limit
           (sort (fun a b => PrimFloat.sub (similarity b) (similarity a))
                 (flat_map (storedResult highlightText (queryTermsOf query)
                                         (database w))
                           sessionMap))).
Proof.
  intros Hrun. apply wiredSearch_results in Hrun.
  destruct Hrun as [q [Hq [Hdb [Hnone|[ids [sessionMap [Hids [Hgroup Hres]]]]]]]];
    exists q; (split; [exact Hq|]); (split; [exact Hdb|]);
    [left; exact Hnone | right].
  destruct (groupBySession_groups
              (openAIEmbeddingService provider) q
              (TranscriptChunkRepository.findSimilarChunks
                 (database w) q ids (limit * 3))
              _ _ _ Hgroup (incl_refl _) ltac:(constructor) ltac:(constructor))
    as [Hgroups Hkeys].
  exists ids, (TranscriptChunkRepository.findSimilarChunks
                 (database w) q ids (limit * 3)), sessionMap.
  repeat split; auto.
Qed.

(** A result of such a search: its entry and its stored session. *)
Lemma wiredSearch_result_In q ids sessionMap terms db r :
  Forall (groupOf (fun c => OpenAIEmbeddingService.cosineSimilarity
                              q (embedding c))
                  (TranscriptChunkRepository.findSimilarChunks
                     db q ids (limit * 3))) sessionMap ->
  In r (firstn limit
          (sort (fun a b => PrimFloat.sub (similarity b) (similarity a))
                (flat_map (storedResult highlightText terms db) sessionMap))) ->
  exists e session,
    In session (sessions db) /\ id session = fst e /\
    r = resultFor highlightText terms session (snd e) /\
    groupOf (fun c => OpenAIEmbeddingService.cosineSimilarity q (embedding c))
            (TranscriptChunkRepository.findSimilarChunks db q ids (limit * 3))
            e.
Proof.
  intros Hgroups Hr. apply firstn_In in Hr.
  apply (Permutation_in _ (sort_perm _ _)) in Hr.
  apply storedResult_In in Hr.
  destruct Hr as [e [session [He [Hsession [Hkey ->]]]]].
  rewrite Forall_forall in Hgroups.
  exists e, session. auto.
Qed.

End WiredSearchResults.

Section WiredSearchClaims.
Import JS Entities Spec SessionService Samples.

(** The results of a search come from the store. When the wired
    [searchSessions] returns, the stored data is as it was, the provider
    has answered the (truncated) query with a vector [q], and every
    result carries the fields of a stored session, has as similarity the
    cosine similarity between [q] and a stored chunk of that session, and
    has only snippets made of stored chunks of that session: their
    highlighted text, their time stamp, and their similarity to [q]. *)
Theorem searchSessions_results_from_store :
  forall (provider : jsstring -> Outcome vector) (limit : nat)
         (highlightText : jsstring -> list jsstring -> jsstring)
         (query : jsstring) (therapist : option jsstring)
         (w w' : World) (response : SearchResponse),
    wiredSearch provider limit highlightText query therapist w
    = (Ok response, w') ->
    database w' = database w /\
    exists q,
      provider (firstCharacters 8000 query) = Ok q /\
      forall r, In r (results response) ->
        (exists session,
            In session (sessions (database w)) /\
            resultSessionId r = id session /\
            resultTherapistId r = therapistId session /\
            resultClientId r = clientId session /\
            resultStartTime r = startTime session /\
            resultSummary r = summary session) /\
        (exists chunk,
            In chunk (transcript_chunks (database w)) /\
            sessionId chunk = resultSessionId r /\
            OpenAIEmbeddingService.cosineSimilarity q (embedding chunk)
            = Ok (similarity r)) /\
        (forall sn s,
            snippets r = Some sn -> In s sn ->
            exists chunk,
              In chunk (transcript_chunks (database w)) /\
              sessionId chunk = resultSessionId r /\
              snippetText s
              = highlightText (chunkText chunk) (queryTermsOf query) /\
              snippetTimestamp s = timestamp chunk /\
              OpenAIEmbeddingService.cosineSimilarity q (embedding chunk)
              = Ok (snippetSimilarity s)).
Proof.
  intros provider limit highlightText query therapist w w' response Hrun.
  destruct (wiredSearch_entries provider limit highlightText
              query therapist w response w' Hrun)
    as [q [Hq [Hdb Hres]]].
  split; [exact Hdb|]. exists q. split; [exact Hq|].
  intros r Hr.
  destruct Hres as [Hnone|[ids [fetched [sessionMap
                     [-> [_ [Hgroups [_ Hres]]]]]]]];
    [rewrite Hnone in Hr; destruct Hr|].
  rewrite Hres in Hr.
  destruct (wiredSearch_result_In limit highlightText q ids sessionMap
              _ _ r Hgroups Hr)
    as [[sid data] [session [Hsession [Hkey [-> [Hchunks Hmax]]]]]].
  simpl in Hkey, Hchunks, Hmax. rewrite Forall_forall in Hchunks.
  assert (Hstored : forall chunk sim,
             In (chunk, sim) (chunks data) ->
             In chunk (transcript_chunks (database w)) /\
             sessionId chunk = id session /\
             OpenAIEmbeddingService.cosineSimilarity q (embedding chunk)
             = Ok sim).
  { intros chunk sim Hp. destruct (Hchunks _ Hp) as [Hf [Hs Hc]].
    simpl in Hf, Hs, Hc. split; [|split; [congruence | exact Hc]].
    apply (findSimilarChunks_candidates _ _ _ _ _ Hf). }
  split; [exists session; simpl; auto 10|]. split.
  - apply in_map_iff in Hmax. destruct Hmax as [[chunk sim] [Hsim Hp]].
    simpl in Hsim. subst sim. exists chunk. simpl.
    apply (Hstored _ _ Hp).
  - intros sn s Hsn Hs. simpl in Hsn.
    destruct (0 <? List.length (buildSnippets highlightText
                                              (queryTermsOf query) data))%nat;
      [|discriminate].
    injection Hsn as <-. apply buildSnippets_In in Hs.
    destruct Hs as [chunk [sim [Hp ->]]]. exists chunk. simpl.
    destruct (Hstored _ _ Hp) as [H1 [H2 H3]]. auto.
Qed.

Lemma searchSessions_results_from_store_witness :
  exists response w',
    wiredSearch sampleProvider 10 plainText (lit "anxiety") None
                (mkWorld plainDatabase [])
    = (Ok response, w') /\
    database w' = plainDatabase /\
    map resultSessionId (results response) = [lit "session-c"; lit "session-a"].
Proof.
  destruct (wiredSearch sampleProvider 10 plainText (lit "anxiety") None
                        (mkWorld plainDatabase []))
    as [[response|e] w'] eqn:Hrun; [|vm_compute in Hrun; discriminate Hrun].
  exists response, w'. split; [reflexivity|].
  destruct (searchSessions_results_from_store _ _ _ _ _ _ _ _ Hrun)
    as [Hdb _].
  split; [exact Hdb|].
  vm_compute in Hrun. injection Hrun as <- _. reflexivity.
Defined.

(** One result for each session. The results of a search that returns
    name pairwise different sessions. *)
Theorem searchSessions_one_result_per_session :
  forall (provider : jsstring -> Outcome vector) (limit : nat)
         (highlightText : jsstring -> list jsstring -> jsstring)
         (query : jsstring) (therapist : option jsstring)
         (w w' : World) (response : SearchResponse),
    wiredSearch provider limit highlightText query therapist w
    = (Ok response, w') ->
    NoDup (map resultSessionId (results response)).
Proof.
  intros provider limit highlightText query therapist w w' response Hrun.
  destruct (wiredSearch_entries provider limit highlightText
              query therapist w response w' Hrun)
    as [q [_ [_ [->|[ids [fetched [sessionMap [_ [_ [_ [Hkeys ->]]]]]]]]]]];
    [constructor|].
  rewrite <- firstn_map. apply NoDup_firstn.
  eapply Permutation_NoDup;
    [apply Permutation_sym, Permutation_map, sort_perm|].
  apply storedResult_ids. exact Hkeys.
Qed.

Lemma searchSessions_one_result_per_session_witness :
  exists response,
    fst (wiredSearch sampleProvider 10 plainText (lit "anxiety") None sampleWorld)
    = Ok response /\
    NoDup (map resultSessionId (results response)) /\
    List.length (results response) = 3%nat.
Proof.
  destruct (wiredSearch sampleProvider 10 plainText (lit "anxiety") None
                        sampleWorld)
    as [[response|e] w'] eqn:Hrun; [|vm_compute in Hrun; discriminate Hrun].
  exists response. split; [reflexivity|].
  split; [apply (searchSessions_one_result_per_session _ _ _ _ _ _ _ _ Hrun)|].
  vm_compute in Hrun. injection Hrun as <- _. reflexivity.
Defined.

(** A search for a therapist returns only that therapist's sessions. When
    the session ids are pairwise different (the primary key), every
    result of a search with a therapist id carries that id. *)
Theorem searchSessions_only_the_therapist :
  forall (provider : jsstring -> Outcome vector) (limit : nat)
         (highlightText : jsstring -> list jsstring -> jsstring)
         (query therapist : jsstring)
         (w w' : World) (response : SearchResponse),
    therapist <> [] ->
    NoDup (map id (sessions (database w))) ->
    wiredSearch provider limit highlightText query (Some therapist) w
    = (Ok response, w') ->
    forall r, In r (results response) -> resultTherapistId r = therapist.
Proof.
  intros provider limit highlightText query therapist w w' response
         Hgiven Hids Hrun r Hr.
  destruct (wiredSearch_entries provider limit highlightText
              query (Some therapist) w response w' Hrun)
    as [q [_ [_ [Hnone|[ids [fetched [sessionMap
                         [-> [Hfilter [Hgroups [_ Hres]]]]]]]]]]];
    [rewrite Hnone in Hr; destruct Hr|].
  destruct Hfilter as [[_ [Hno|Hno]]|[t [s [rest [Ht [Hsessions ->]]]]]];
    [discriminate | congruence |].
  assert (t = therapist) by congruence. subst t. clear Ht.
  rewrite Hres in Hr.
  destruct (wiredSearch_result_In limit highlightText q _ sessionMap
              _ _ r Hgroups Hr)
    as [[sid data] [session [Hsession [Hkey [-> [Hchunks Hmax]]]]]].
  simpl in Hkey, Hchunks, Hmax. simpl.
  apply in_map_iff in Hmax. destruct Hmax as [p [_ Hp]].
  rewrite Forall_forall in Hchunks.
  destruct (Hchunks p Hp) as [Hfetched [Hsid _]]. simpl in Hsid.
  destruct (findSimilarChunks_candidates _ _ _ _ _ Hfetched) as [_ Hin].
  specialize (Hin s rest eq_refl). rewrite <- Hsessions, Hsid in Hin.
  apply in_map_iff in Hin. destruct Hin as [owned [Hid Howned]].
  apply filter_In in Howned. destruct Howned as [Hstored Htherapist].
  apply streq_eq in Htherapist.
  assert (owned = session).
  { apply (NoDup_map_eq id (sessions (database w))); auto. congruence. }
  subst owned. exact Htherapist.
Qed.

Lemma searchSessions_only_the_therapist_witness :
  exists response,
    fst (wiredSearch sampleProvider 10 plainText (lit "anxiety")
                     (Some (lit "therapist-1")) sampleWorld)
    = Ok response /\
    Forall (fun r => resultTherapistId r = lit "therapist-1") (results response) /\
    List.length (results response) = 3%nat.
Proof.
  destruct (wiredSearch sampleProvider 10 plainText (lit "anxiety")
                        (Some (lit "therapist-1")) sampleWorld)
    as [[response|e] w'] eqn:Hrun; [|vm_compute in Hrun; discriminate Hrun].
  exists response. split; [reflexivity|]. split.
  - apply Forall_forall.
    apply (searchSessions_only_the_therapist
             sampleProvider 10 plainText (lit "anxiety") (lit "therapist-1")
             sampleWorld w' response).
    + discriminate.
    + repeat constructor; simpl; intuition discriminate.
    + exact Hrun.
  - vm_compute in Hrun. injection Hrun as <- _. reflexivity.
Defined.

End WiredSearchClaims.

Section SearchDimensions.
Import JS Entities Spec SessionService Samples.

Lemma service_cosine_returns (a b : vector) :
  List.length a = List.length b ->
  exists sim, OpenAIEmbeddingService.cosineSimilarity a b = Ok sim.
Proof.
  intros Hlen. unfold OpenAIEmbeddingService.cosineSimilarity.
  apply Nat.eqb_eq in Hlen. rewrite Hlen. cbn [negb].
  destruct (OpenAIEmbeddingService.sumLoop _ _ _ _ _ _ _) as [[d na] nb].
  eexists. reflexivity.
Qed.

Lemma service_cosine_throws (a b : vector) :
  List.length a <> List.length b ->
  OpenAIEmbeddingService.cosineSimilarity a b
  = Throw (Error "Vectors must have the same length").
Proof.
  intros Hlen. unfold OpenAIEmbeddingService.cosineSimilarity.
  apply Nat.eqb_neq in Hlen. rewrite Hlen. reflexivity.
Qed.

Variable provider : jsstring -> Outcome vector.

(** The loop that fills [sessionMap] stops at the first fetched chunk
    whose embedding has another length than the query's. *)
Lemma groupBySession_mismatch q : forall fetched sessionMap,
  (exists c, In c fetched /\ List.length (embedding c) <> List.length q) ->
  groupBySession (openAIEmbeddingService provider) q fetched sessionMap
  = Throw (Error "Vectors must have the same length").
Proof.
  induction fetched as [|chunk rest IH]; intros sessionMap [c [Hin Hlen]];
    [destruct Hin|].
  cbn [groupBySession cosineSimilarity openAIEmbeddingService].
  destruct (Nat.eq_dec (List.length q) (List.length (embedding chunk)))
    as [Heq|Hne].
  - destruct (service_cosine_returns q (embedding chunk) Heq) as [sim ->].
    apply IH. destruct Hin as [->|Hin]; [congruence|]. exists c. auto.
  - rewrite (service_cosine_throws q (embedding chunk) Hne). reflexivity.
Qed.

End SearchDimensions.

Section SearchDimensionsClaims.
Import JS Entities Spec SessionService Samples.

(** One stored embedding of another dimension fails the search. When a
    chunk that the repository fetches for the query has an embedding of
    another length than the query's (the repository itself ranks it with
    similarity 0), [searchSessions] throws the embedding service's
    [Vectors must have the same length] and returns no result at all. *)
Theorem searchSessions_dimension_mismatch :
  forall (provider : jsstring -> Outcome vector) (limit : nat)
         (highlightText : jsstring -> list jsstring -> jsstring)
         (query : jsstring) (w : World) (q : vector) (c : TranscriptChunk),
    strlen (trim query) <> 0 ->
    provider (firstCharacters 8000 query) = Ok q ->
    In c (TranscriptChunkRepository.findSimilarChunks
            (database w) q None (limit * 3)) ->
    List.length (embedding c) <> List.length q ->
    fst (wiredSearch provider limit highlightText query None w)
    = Throw (Error "Vectors must have the same length") /\
    TranscriptChunkRepository.cosineSimilarity q (embedding c) = 0%float.
Proof.
  intros provider limit highlightText query w q c Hne Hq Hin Hlen.
  split.
  - unfold wiredSearch, searchSessions.
    assert (Hfull : (strlen query =? 0) = false).
    { apply Z.eqb_neq. intros Hz. apply Hne. apply trim_nil_of_nil. exact Hz. }
    rewrite Hfull. unfold bind at 1.
    change (generateEmbedding (openAIEmbeddingService provider) query w)
      with (OpenAIEmbeddingService.generateEmbedding (request provider) query w).
    rewrite generateEmbedding_wired.
    apply Z.eqb_neq in Hne. rewrite Hne. cbv zeta. rewrite Hq.
    unfold rankSessions, bind at 1. simpl.
    rewrite (groupBySession_mismatch provider q).
    + reflexivity.
    + exists c. auto.
  - unfold TranscriptChunkRepository.cosineSimilarity.
    assert (Hn : (List.length q =? List.length (embedding c))%nat = false)
      by (apply Nat.eqb_neq; congruence).
    rewrite Hn. reflexivity.
Qed.

Lemma searchSessions_dimension_mismatch_witness :
  let oddChunk :=
    mkTranscriptChunk (lit "chunk-d") (lit "session-a") None (lit "old model")
                      [1; 0; 0]%float 0 9 (lit "2023-01-01T10:00:00Z") None in
  let w := mkWorld (mkDatabase [chunkC; oddChunk] [sessionOf "session-a"]) [] in
  fst (wiredSearch sampleProvider 10 plainText (lit "anxiety") None w)
  = Throw (Error "Vectors must have the same length").
Proof.
  intros oddChunk w.
  apply (searchSessions_dimension_mismatch
           sampleProvider 10 plainText (lit "anxiety") w sampleQuery oddChunk).
  - vm_compute. discriminate.
  - reflexivity.
  - vm_compute. right. left. reflexivity.
  - simpl. discriminate.
Defined.

End SearchDimensionsClaims.

(* ================================================================== *)
(** * TextChunker: escapeRegex, highlightText and extractSnippet *)
(* ================================================================== *)

Section EscapeFacts.
Import JS Spec TextChunker.

Lemma unescape_escapeRegex str :
  wellEscaped (escapeRegex str) = true /\ unescape (escapeRegex str) = str.
Proof.
  induction str as [|c str [IHw IHu]]; [split; reflexivity|].
  unfold escapeRegex in *. cbn [flat_map].
  destruct (isSyntaxCharacter c) eqn:Hc; cbn [app wellEscaped unescape].
  - change (N.eqb backslash backslash) with true. cbv iota.
    rewrite Hc, IHw, IHu. split; reflexivity.
  - assert (Hb : N.eqb c backslash = false).
    { destruct (N.eqb_spec c backslash) as [->|]; [|reflexivity].
      discriminate Hc. }
    rewrite Hb, Hc, IHw, IHu. split; reflexivity.
Qed.

End EscapeFacts.

Section HighlightFacts.
Import JS Spec TextChunker.

Variable toLowerCase : jsstring -> jsstring.
Variable canonicalize : code_unit -> code_unit.

Lemma matchesAt_length literal : forall s,
  matchesAt canonicalize literal s = true ->
  (List.length literal <= List.length s)%nat.
Proof.
  induction literal as [|p literal IH]; intros [|c s]; simpl; try lia;
    try discriminate.
  intros H. apply andb_true_iff in H. destruct H as [_ H].
  apply IH in H. lia.
Qed.

Lemma matchesAt_firstn literal : forall s,
  matchesAt canonicalize literal s = true ->
  matchesAt canonicalize literal (firstn (List.length literal) s) = true.
Proof.
  induction literal as [|p literal IH]; intros [|c s]; simpl; try reflexivity;
    try discriminate.
  intros H. apply andb_true_iff in H. destruct H as [H1 H2].
  rewrite H1. apply IH. exact H2.
Qed.

Lemma marked_refl (P : jsstring -> Prop) s : marked P s s.
Proof. induction s; constructor; assumption. Qed.

Variable literal : jsstring.
Variable replacer : jsstring -> Z -> jsstring.

(** The characters of a match are passed over. *)
Lemma replaceFrom_skip u : forall rest offset,
  replaceFrom canonicalize literal replacer (u ++ rest) offset (List.length u)
  = replaceFrom canonicalize literal replacer rest
                (offset + Z.of_nat (List.length u)) 0.
Proof.
  induction u as [|c u IH]; intros rest offset.
  - simpl. rewrite Z.add_0_r. reflexivity.
  - cbn [app List.length replaceFrom]. rewrite IH. f_equal. lia.
Qed.

End HighlightFacts.

Section HighlightOnce.
Import JS Spec TextChunker.

Variable canonicalize : code_unit -> code_unit.
Variable literal : jsstring.
Variable text : jsstring.

Lemma slice_middle (prefix m rest : jsstring) :
  text = prefix ++ m ++ rest ->
  slice text (Z.of_nat (List.length prefix))
        (Z.of_nat (List.length prefix) + strlen m) = m.
Proof.
  intros ->. unfold strlen. rewrite slice_sub.
  - unfold sub. rewrite Nat2Z.id, skipn_app, Nat.sub_diag, skipn_all.
    simpl.
    replace (Z.to_nat _) with (List.length m) by lia.
    rewrite firstn_app, Nat.sub_diag, firstn_all. simpl.
    apply app_nil_r.
  - rewrite !length_app. lia.
  - rewrite !length_app. lia.
Qed.

Lemma marked_wrapped (P : jsstring -> Prop) m rest h whole out :
  P m -> marked P rest h ->
  whole = m ++ rest ->
  out = (lit "<mark>" ++ m ++ lit "</mark>") ++ h ->
  marked P whole out.
Proof.
  intros Hm Hh -> ->. rewrite <- !app_assoc. constructor; assumption.
Qed.

(** The first pass over a text: every match is put between the tags,
    with the characters the text has there. *)
Lemma replaceFrom_marked n : forall prefix s,
  (List.length s <= n)%nat ->
  text = prefix ++ s ->
  marked (fun m => matchesAt canonicalize literal m = true /\
                   List.length m = List.length literal)
         s
         (replaceFrom canonicalize literal
            (fun match_ offset =>
               lit "<mark>" ++ slice text offset (offset + strlen match_)
                            ++ lit "</mark>")
            s (Z.of_nat (List.length prefix)) 0).
Proof.
  induction n as [|n IH]; intros prefix s Hn Htext.
  - destruct s as [|c t]; [|simpl in Hn; lia]. cbn [replaceFrom].
    destruct literal as [|p more] eqn:Hl; [|constructor].
    rewrite (slice_middle prefix [] []) by (rewrite Htext; reflexivity).
    apply (marked_wrapped _ [] [] []);
      [split; reflexivity | constructor | reflexivity
       | rewrite app_nil_r; reflexivity].
  - destruct s as [|c t].
    + cbn [replaceFrom].
      destruct literal as [|p more] eqn:Hl; [|constructor].
      rewrite (slice_middle prefix [] []) by (rewrite Htext; reflexivity).
      apply (marked_wrapped _ [] [] []);
        [split; reflexivity | constructor | reflexivity
         | rewrite app_nil_r; reflexivity].
    + assert (Htail :
                marked (fun m => matchesAt canonicalize literal m = true /\
                                 List.length m = List.length literal)
                  t
                  (replaceFrom canonicalize literal
                     (fun match_ offset =>
                        lit "<mark>"
                          ++ slice text offset (offset + strlen match_)
                          ++ lit "</mark>")
                     t (Z.of_nat (List.length prefix) + 1) 0)).
      { replace (Z.of_nat (List.length prefix) + 1)
          with (Z.of_nat (List.length (prefix ++ [c])))
          by (rewrite length_app; simpl; lia).
        apply IH; [simpl in Hn; lia|].
        rewrite <- app_assoc. exact Htext. }
      cbn [replaceFrom].
      destruct (matchesAt canonicalize literal (c :: t)) eqn:Hm;
        [|constructor; exact Htail].
      pose proof (matchesAt_length canonicalize literal _ Hm) as Hlen.
      pose proof (matchesAt_firstn canonicalize literal _ Hm) as Hfirst.
      destruct literal as [|p more] eqn:Hl.
      * cbn [List.length firstn].
        rewrite (slice_middle prefix [] (c :: t)) by exact Htext.
        eapply (marked_wrapped _ [] (c :: t));
          [split; reflexivity | constructor; exact Htail
           | reflexivity | reflexivity].
      * cbn [List.length firstn] in *.
        remember (firstn (List.length more) t) as m' eqn:Em'.
        remember (skipn (List.length more) t) as rest eqn:Erest.
        assert (Ht : t = m' ++ rest)
          by (subst m' rest; symmetry; apply firstn_skipn).
        assert (Hm' : List.length m' = List.length more)
          by (subst m'; rewrite length_firstn; simpl in Hlen; lia).
        rewrite (slice_middle prefix (c :: m') rest)
          by (rewrite Htext, Ht; reflexivity).
        assert (Hskip :
                  replaceFrom canonicalize (p :: more)
                     (fun match_ offset =>
                        lit "<mark>"
                          ++ slice text offset (offset + strlen match_)
                          ++ lit "</mark>")
                     t (Z.of_nat (List.length prefix) + 1) (List.length more)
                  = replaceFrom canonicalize (p :: more)
                     (fun match_ offset =>
                        lit "<mark>"
                          ++ slice text offset (offset + strlen match_)
                          ++ lit "</mark>")
                     rest (Z.of_nat (List.length (prefix ++ c :: m'))) 0).
        { rewrite Ht, <- Hm', replaceFrom_skip. f_equal.
          rewrite length_app. simpl. lia. }
        rewrite Hskip.
        eapply (marked_wrapped _ (c :: m') rest);
          [split; [exact Hfirst | simpl; lia] | | rewrite Ht; reflexivity
           | reflexivity].
        apply IH.
        -- rewrite Ht in Hn. simpl in Hn. rewrite length_app in Hn. lia.
        -- rewrite <- app_assoc. rewrite Htext, Ht. reflexivity.
Qed.

End HighlightOnce.

Section HighlightClaims.
Import JS Spec TextChunker Samples.

Lemma highlightTerm_blank toLowerCase canonicalize text terms : forall highlighted,
  Forall (fun term => blankTerm term = true) terms ->
  fold_left (highlightTerm toLowerCase canonicalize text) terms highlighted
  = highlighted.
Proof.
  induction terms as [|term terms IH]; intros highlighted Hblank;
    [reflexivity|].
  inversion Hblank as [|t ts Hterm Hterms]; subst. simpl.
  unfold highlightTerm at 2. unfold blankTerm in Hterm. rewrite Hterm.
  apply IH. exact Hterms.
Qed.

(** [escapeRegex] makes a pattern that matches its argument. In the
    escaped string every syntax character of a pattern, and nothing else,
    follows a backslash, and taking the backslashes away gives the
    argument back: the regex that [highlightText] builds from a term
    matches the characters of the term and has no operator in it. *)
Theorem escapeRegex_matches_literally :
  forall str : jsstring,
    wellEscaped (escapeRegex str) = true /\
    unescape (escapeRegex str) = str /\
    (Forall (fun c => isSyntaxCharacter c = false) str ->
     escapeRegex str = str).
Proof.
  intros str. destruct (unescape_escapeRegex str) as [Hw Hu].
  split; [exact Hw|]. split; [exact Hu|]. clear Hw Hu.
  intros Hplain. unfold escapeRegex.
  induction str as [|c rest IH]; [reflexivity|].
  inversion Hplain as [|c' rest' Hc Hrest]; subst.
  cbn [flat_map]. rewrite Hc, (IH Hrest). reflexivity.
Qed.

(** [highlightText] with one term. The result is the text with some of
    its substrings put between [<mark>] and [</mark>], each of them a
    match of the lower-cased term up to case, in the casing the text has;
    without a term that is not blank the text comes back as it is. *)
Theorem highlightText_one_term :
  forall (toLowerCase : jsstring -> jsstring)
         (canonicalize : code_unit -> code_unit)
         (text term : jsstring) (terms : list jsstring),
    marked (fun m => matchesAt canonicalize (toLowerCase term) m = true /\
                     List.length m = List.length (toLowerCase term))
           text
           (highlightText toLowerCase canonicalize text [term]) /\
    (Forall (fun t => blankTerm t = true) terms ->
     highlightText toLowerCase canonicalize text terms = text).
Proof.
  intros toLowerCase canonicalize text term terms. split.
  - unfold highlightText. cbn [List.length Nat.eqb sort fold_right insertBy fold_left].
    unfold highlightTerm.
    destruct ((strlen term =? 0) || (strlen (trim term) =? 0));
      [apply marked_refl|].
    cbv zeta. destruct (unescape_escapeRegex (toLowerCase term)) as [_ ->].
    unfold replaceAll.
    apply (replaceFrom_marked canonicalize (toLowerCase term) text
             (List.length text) [] text); [lia | reflexivity].
  - intros Hblank. unfold highlightText.
    destruct (List.length terms =? 0)%nat; [reflexivity|]. cbv zeta.
    apply highlightTerm_blank.
    apply Forall_forall. intros t Ht.
    apply (Permutation_in _ (sort_perm _ _)) in Ht.
    rewrite Forall_forall in Hblank. auto.
Qed.

(** With two terms the second pass reads the original text at offsets
    of the text that already holds the tags of the first pass: here the
    match "cd" stands at offset 16 of the highlighted text, where the
    original text has nothing, and its characters are lost. *)
Example highlightText_two_terms :
  highlightText asciiLowerCase asciiCanonical (lit "ab cd") [lit "ab"; lit "cd"]
  = lit "<mark>ab</mark> <mark></mark>".
Proof. vm_compute. reflexivity. Qed.

Example highlightText_keeps_casing :
  highlightText asciiLowerCase asciiCanonical
                (lit "Anxiety at work; anxiety at home") [lit "ANXIETY"]
  = lit "<mark>Anxiety</mark> at work; <mark>anxiety</mark> at home".
Proof. vm_compute. reflexivity. Qed.

End HighlightClaims.

Section SnippetFacts.
Import JS Spec TextChunker.

(** [indexOf] finds the first occurrence. *)
Lemma indexOf_from_spec needle : forall s i,
  (indexOf_from needle s i = -1 /\
   forall j, (j <= List.length s)%nat ->
             startsWith needle (skipn j s) = false) \/
  (exists k,
      indexOf_from needle s i = i + Z.of_nat k /\
      (k <= List.length s)%nat /\
      startsWith needle (skipn k s) = true /\
      forall j, (j < k)%nat -> startsWith needle (skipn j s) = false).
Proof.
  induction s as [|c t IH]; intros i; cbn [indexOf_from].
  - destruct (startsWith needle []) eqn:E.
    + right. exists 0%nat. rewrite Z.add_0_r.
      repeat split; auto; intros; lia.
    + left. split; [reflexivity|]. intros [|j] Hj; [exact E | simpl in Hj; lia].
  - destruct (startsWith needle (c :: t)) eqn:E.
    + right. exists 0%nat. rewrite Z.add_0_r.
      repeat split; auto; [simpl; lia | intros; lia].
    + destruct (IH (i + 1)) as [[Hr Hnone]|[k [Hr [Hk [Hat Hbefore]]]]].
      * left. split; [exact Hr|]. intros [|j] Hj; [exact E|].
        simpl. apply Hnone. simpl in Hj. lia.
      * right. exists (S k). split; [rewrite Hr; lia|].
        split; [simpl; lia|]. split; [exact Hat|].
        intros [|j] Hj; [exact E|]. simpl. apply Hbefore. lia.
Qed.

Lemma indexOf_spec needle s :
  (indexOf needle s = -1 /\ forall j, ~ occursAt needle s j) \/
  (occursAt needle s (indexOf needle s) /\
   forall j, occursAt needle s j -> indexOf needle s <= j).
Proof.
  unfold indexOf, occursAt, strlen.
  destruct (indexOf_from_spec needle s 0)
    as [[Hr Hnone]|[k [Hr [Hk [Hat Hbefore]]]]].
  - left. split; [exact Hr|]. intros j [Hj Hocc].
    rewrite Hnone in Hocc by lia. discriminate.
  - right. rewrite Hr, Z.add_0_l. split.
    + split; [lia|]. rewrite Nat2Z.id. exact Hat.
    + intros j [Hj Hocc].
      destruct (Z.lt_ge_cases j (Z.of_nat k)) as [Hlt|]; [|lia].
      rewrite Hbefore in Hocc by lia. discriminate.
Qed.

Variable toLowerCase : jsstring -> jsstring.
Variable lowerText : jsstring.

(** The loop over the terms keeps the least offset at which a term that
    is not blank occurs. *)
Lemma firstMatch_fold terms : forall seen matchIndex,
  ((matchIndex = -1 /\
    forall term j, In term seen -> blankTerm term = false ->
                   ~ occursAt (toLowerCase term) lowerText j) \/
   ((exists term, In term seen /\ blankTerm term = false /\
                  occursAt (toLowerCase term) lowerText matchIndex) /\
    forall term j, In term seen -> blankTerm term = false ->
                   occursAt (toLowerCase term) lowerText j ->
                   matchIndex <= j)) ->
  let result :=
    fold_left
      (fun matchIndex term =>
         if (strlen term =? 0) || (strlen (trim term) =? 0) then matchIndex
         else
           let index := indexOf (toLowerCase term) lowerText in
           if negb (index =? -1)
              && ((matchIndex =? -1) || (index <? matchIndex))
           then index else matchIndex)
      terms matchIndex in
  (result = -1 /\
   forall term j, In term (seen ++ terms) -> blankTerm term = false ->
                  ~ occursAt (toLowerCase term) lowerText j) \/
  ((exists term, In term (seen ++ terms) /\ blankTerm term = false /\
                 occursAt (toLowerCase term) lowerText result) /\
   forall term j, In term (seen ++ terms) -> blankTerm term = false ->
                  occursAt (toLowerCase term) lowerText j ->
                  result <= j).
Proof.
  induction terms as [|term terms IH]; intros seen matchIndex Hinv;
    cbv zeta; cbn [fold_left].
  - rewrite app_nil_r. exact Hinv.
  - replace (seen ++ term :: terms) with ((seen ++ [term]) ++ terms)
      by (rewrite <- app_assoc; reflexivity).
    apply IH. clear IH.
    fold (blankTerm term).
    assert (Hseen : forall t, In t (seen ++ [term]) -> In t seen \/ t = term).
    { intros t Ht. apply in_app_or in Ht.
      destruct Ht as [Ht|[<-|[]]]; auto. }
    destruct (blankTerm term) eqn:Hblank.
    { destruct Hinv as [[Hm Hnone]|[[t [Ht [Hb Hocc]]] Hleast]].
      - left. split; [exact Hm|]. intros t j Ht Hb.
        destruct (Hseen t Ht) as [Hold| ->]; [eauto | congruence].
      - right. split.
        + exists t. split; [apply in_or_app; left; exact Ht | auto].
        + intros t' j Ht' Hb'.
          destruct (Hseen t' Ht') as [Hold| ->]; [eauto | congruence]. }
    cbv zeta.
    destruct (indexOf_spec (toLowerCase term) lowerText)
      as [[Hidx Hnever]|[Hocc Hfirst]].
    { rewrite Hidx. cbn [Z.eqb negb andb].
      destruct Hinv as [[Hm Hnone]|[[t [Ht [Hb Hocc]]] Hleast]].
      - left. split; [exact Hm|]. intros t j Ht Hb.
        destruct (Hseen t Ht) as [Hold| ->]; [eauto | apply Hnever].
      - right. split.
        + exists t. split; [apply in_or_app; left; exact Ht | auto].
        + intros t' j Ht' Hb' Hj.
          destruct (Hseen t' Ht') as [Hold| ->]; [eauto|].
          exfalso. exact (Hnever j Hj). }
    assert (Hpos : 0 <= indexOf (toLowerCase term) lowerText)
      by (destruct Hocc as [Hr _]; lia).
    destruct (Z.eqb_spec (indexOf (toLowerCase term) lowerText) (-1));
      [lia|]. cbn [negb andb].
    assert (Hterm : In term (seen ++ [term]))
      by (apply in_or_app; right; left; reflexivity).
    destruct Hinv as [[Hm Hnone]|[[t [Ht [Hb Hocc']]] Hleast]].
    + rewrite Hm. cbn [Z.eqb orb]. right. split.
      * exists term. auto.
      * intros t j Ht Hb Hj.
        destruct (Hseen t Ht) as [Hold| ->]; [|apply Hfirst; exact Hj].
        exfalso. exact (Hnone t j Hold Hb Hj).
    + assert (Hm : 0 <= matchIndex) by (destruct Hocc' as [Hr _]; lia).
      destruct (Z.eqb_spec matchIndex (-1)); [lia|]. cbn [orb].
      destruct (Z.ltb_spec (indexOf (toLowerCase term) lowerText) matchIndex)
        as [Hless|Hmore]; right; split.
      * exists term. auto.
      * intros t' j Ht' Hb' Hj.
        destruct (Hseen t' Ht') as [Hold| ->]; [|apply Hfirst; exact Hj].
        specialize (Hleast t' j Hold Hb' Hj). lia.
      * exists t. split; [apply in_or_app; left; exact Ht | auto].
      * intros t' j Ht' Hb' Hj.
        destruct (Hseen t' Ht') as [Hold| ->]; [eauto|].
        specialize (Hfirst j Hj). lia.
Qed.

Lemma firstMatch_spec terms :
  (firstMatch toLowerCase lowerText terms = -1 /\
   forall term j, In term terms -> blankTerm term = false ->
                  ~ occursAt (toLowerCase term) lowerText j) \/
  ((exists term, In term terms /\ blankTerm term = false /\
                 occursAt (toLowerCase term) lowerText
                          (firstMatch toLowerCase lowerText terms)) /\
   forall term j, In term terms -> blankTerm term = false ->
                  occursAt (toLowerCase term) lowerText j ->
                  firstMatch toLowerCase lowerText terms <= j).
Proof.
  apply (firstMatch_fold terms [] (-1)).
  left. split; [reflexivity|]. intros term j [].
Qed.

End SnippetFacts.

Section SnippetClaims.
Import JS Spec TextChunker Samples.

(** [extractSnippet] cuts around the first match. For a text that is
    not empty, whose lower-case form is no longer than itself, at least
    one term and a snippet length that is not negative, the result is not
    [null]; its span lies inside the text and is at most [snippetLength]
    wide. When no term that is not blank occurs in the lower-cased text,
    the span starts at 0; otherwise it is cut [snippetLength / 2] before
    and behind the least offset at which such a term occurs. *)
Theorem extractSnippet_span :
  forall (toLowerCase : jsstring -> jsstring)
         (canonicalize : code_unit -> code_unit)
         (text : jsstring) (queryTerms : list jsstring) (snippetLength : Z),
    0 <= snippetLength ->
    strlen (toLowerCase text) <= strlen text ->
    text <> [] -> queryTerms <> [] ->
    exists e,
      extractSnippet toLowerCase canonicalize text queryTerms snippetLength
      = Some e /\
      0 <= snippetStartIndex e <= snippetEndIndex e /\
      snippetEndIndex e <= strlen text /\
      snippetEndIndex e - snippetStartIndex e <= snippetLength /\
      (((forall term j, In term queryTerms -> blankTerm term = false ->
                        ~ occursAt (toLowerCase term) (toLowerCase text) j) /\
        snippetStartIndex e = 0 /\
        snippetEndIndex e = Z.min snippetLength (strlen text)) \/
       (exists first term,
           In term queryTerms /\ blankTerm term = false /\
           occursAt (toLowerCase term) (toLowerCase text) first /\
           (forall term' j, In term' queryTerms -> blankTerm term' = false ->
                            occursAt (toLowerCase term') (toLowerCase text) j ->
                            first <= j) /\
           snippetStartIndex e = Z.max 0 (first - snippetLength / 2) /\
           snippetEndIndex e = Z.min (strlen text) (first + snippetLength / 2) /\
           snippetStartIndex e <= first <= snippetEndIndex e)).
Proof.
  intros toLowerCase canonicalize text queryTerms snippetLength
         Hlen Hlower Htext Hterms.
  unfold extractSnippet.
  assert (Hfull : (strlen text =? 0) = false).
  { apply Z.eqb_neq. unfold strlen. destruct text; [congruence | simpl; lia]. }
  assert (Hsome : (List.length queryTerms =? 0)%nat = false)
    by (destruct queryTerms; [congruence | reflexivity]).
  rewrite Hfull, Hsome. cbn [orb]. cbv zeta.
  assert (Hpos : 0 < strlen text)
    by (apply Z.eqb_neq in Hfull; unfold strlen in *; lia).
  assert (Hhalf : 0 <= snippetLength / 2 /\ 2 * (snippetLength / 2) <= snippetLength).
  { split; [apply Z.div_pos; lia|]. apply Z.mul_div_le. lia. }
  destruct (firstMatch_spec toLowerCase (toLowerCase text) queryTerms)
    as [[Hm Hnone]|[[term [Hin [Hblank Hocc]]] Hleast]].
  - rewrite Hm. cbn [Z.eqb]. eexists. split; [reflexivity|]. simpl.
    split; [lia|]. split; [lia|]. split; [lia|]. left. auto.
  - set (first := firstMatch toLowerCase (toLowerCase text) queryTerms) in *.
    assert (Hfirst : 0 <= first <= strlen text)
      by (destruct Hocc as [Hr _]; lia).
    destruct (Z.eqb_spec first (-1)); [lia|].
    eexists. split; [reflexivity|]. simpl.
    split; [lia|]. split; [lia|]. split; [lia|]. right.
    exists first, term.
    split; [exact Hin|]. split; [exact Hblank|]. split; [exact Hocc|].
    split; [exact Hleast|]. split; [reflexivity|]. split; [reflexivity|]. lia.
Qed.

Lemma extractSnippet_span_witness :
  extractSnippet asciiLowerCase asciiCanonical
                 (lit "We talked about Anxiety at work and at home")
                 [lit "anxiety"] 20
  = Some (mkExtract (lit "...ked about <mark>Anxiety</mark> at...") 6 26) /\
  occursAt (asciiLowerCase (lit "anxiety"))
           (asciiLowerCase (lit "We talked about Anxiety at work and at home"))
           16.
Proof.
  split; [vm_compute; reflexivity|].
  destruct (extractSnippet_span
              asciiLowerCase asciiCanonical
              (lit "We talked about Anxiety at work and at home")
              [lit "anxiety"] 20)
    as [e [He [_ [_ [_ [[Hnone _]|[first [term [Hin [_ [Hocc [_ [Hs _]]]]]]]]]]]]].
  - lia.
  - vm_compute. discriminate.
  - discriminate.
  - discriminate.
  - exfalso. apply (Hnone (lit "anxiety") 16).
    + left. reflexivity.
    + reflexivity.
    + split; [vm_compute; split; discriminate | vm_compute; reflexivity].
  - split; [vm_compute; split; discriminate | vm_compute; reflexivity].
Defined.

End SnippetClaims.


(* ================================================================== *)
(** * SessionService: embedSession *)
(* ================================================================== *)

Section EmbedSessionFacts.
Import JS Entities SessionService SessionServiceMethods Recorder ServiceSpec.

(** The texts of chunks are trimmed and not empty, whatever the size
    and the overlap. *)
Lemma chunksOf_texts transcript chunkSize overlap c :
  In c (chunksOf transcript chunkSize overlap) ->
  TextChunker.text c <> [] /\ trim (TextChunker.text c) = TextChunker.text c.
Proof.
  unfold chunksOf. intros Hin.
  destruct (TextChunker.chunkText transcript chunkSize overlap)
    as [chunks|] eqn:Hres; [|destruct Hin].
  destruct (chunkText_windows _ _ _ _ Hres) as [ws [Hws ->]].
  apply filter_In in Hin. destruct Hin as [Hin Hne]. split.
  - unfold TextChunker.nonEmptyText, strlen in Hne. intros E.
    rewrite E in Hne. discriminate.
  - assert (Hall : Forall (fun c => exists s, TextChunker.text c = trim s) ws).
    { unfold TextChunker.chunkWindows, TextChunker.chunkWindowsFuel in Hws.
      destruct (strlen transcript =? 0).
      - injection Hws as <-. constructor.
      - eapply chunkLoop_Forall; [|exact Hws|constructor].
        intros start c' next Hw.
        apply (window_span _ _ _ _ _ _ Hw). }
    rewrite Forall_forall in Hall. destruct (Hall c Hin) as [s ->].
    apply trim_idem.
Qed.

Variable answers : Answers.
Variables CHUNK_SIZE CHUNK_OVERLAP : Z.
Variable sessionId : jsstring.

(** The inner loop only adds to the log, and fails exactly when the
    provider fails on the text of a chunk. *)
Lemma embedChunks_extends entry : forall chunks chunkCount log,
  exists r extra,
    embedChunks (chunkRepository answers) (embeddingService answers)
                sessionId entry chunks chunkCount log
    = (r, log ++ extra) /\
    (forall e, r = Throw e ->
       exists c, In c chunks /\
                 embeddingOf answers (TextChunker.text c) = Throw e) /\
    ((exists c e, In c chunks /\
                  embeddingOf answers (TextChunker.text c) = Throw e) ->
     exists e, r = Throw e).
Proof.
  intros chunks.
  induction chunks as [|chunk rest IH]; intros chunkCount log.
  - exists (Ok chunkCount), []. rewrite app_nil_r. split; [reflexivity|].
    split; [discriminate|]. intros [c [e [[] _]]].
  - cbn [embedChunks]. unfold bind at 1.
    cbn [generateEmbedding embeddingService]. unfold record at 1.
    destruct (embeddingOf answers (TextChunker.text chunk)) as [v|e] eqn:Hv.
    + unfold bind at 1.
      cbn [ITranscriptChunkRepository.create chunkRepository].
      destruct (IH (S chunkCount)
                   ((log ++ [GenerateEmbedding (TextChunker.text chunk)]) ++
                    [ChunkCreate
                       (CreateTranscriptChunkDto.mk
                          sessionId (Some (SessionEntry.id entry))
                          (TextChunker.text chunk) v
                          (TextChunker.startIndex chunk)
                          (TextChunker.endIndex chunk)
                          (SessionEntry.timestamp entry))]))
        as [r [extra [Hrun [Hfrom Hto]]]].
      exists r. eexists. rewrite Hrun, <- !app_assoc.
      split; [reflexivity|]. split.
      * intros e He. destruct (Hfrom e He) as [c [Hc Hce]].
        exists c. split; [right; exact Hc | exact Hce].
      * intros [c [e [[<-|Hc] Hce]]]; [congruence|].
        apply Hto. exists c, e. split; assumption.
    + exists (Throw e), [GenerateEmbedding (TextChunker.text chunk)].
      split; [reflexivity|]. split.
      * intros e' He'. injection He' as <-. exists chunk.
        split; [left; reflexivity | exact Hv].
      * intros _. exists e. reflexivity.
Qed.

Lemma embedEntries_extends : forall entries chunkCount log,
  exists r extra,
    embedEntries (chunkRepository answers) (embeddingService answers)
                 CHUNK_SIZE CHUNK_OVERLAP sessionId entries chunkCount log
    = (r, log ++ extra) /\
    (forall e, r = Throw e ->
       exists t, In t (chunkTexts CHUNK_SIZE CHUNK_OVERLAP entries) /\
                 embeddingOf answers t = Throw e) /\
    ((exists t e, In t (chunkTexts CHUNK_SIZE CHUNK_OVERLAP entries) /\
                  embeddingOf answers t = Throw e) ->
     exists e, r = Throw e).
Proof.
  induction entries as [|entry rest IH]; intros chunkCount log.
  - exists (Ok chunkCount), []. rewrite app_nil_r. split; [reflexivity|].
    split; [discriminate|]. intros [t [e [[] _]]].
  - cbn [embedEntries]. unfold chunkTexts. cbn [flat_map].
    fold (chunkTexts CHUNK_SIZE CHUNK_OVERLAP rest).
    unfold transcriptOf.
    destruct (orElse (SessionEntry.transcript entry) (SessionEntry.content entry))
      as [[|c t]|]; try (cbn [app]; apply IH).
    unfold bind at 1.
    destruct (embedChunks_extends entry
                (chunksOf (c :: t) CHUNK_SIZE CHUNK_OVERLAP) chunkCount log)
      as [r1 [extra1 [Hrun1 [Hfrom1 Hto1]]]].
    rewrite Hrun1. destruct r1 as [count|e1].
    + destruct (IH count (log ++ extra1)) as [r [extra [Hrun [Hfrom Hto]]]].
      exists r. eexists. rewrite Hrun, <- app_assoc.
      split; [reflexivity|]. split.
      * intros e He. destruct (Hfrom e He) as [t' [Ht' Hte]].
        exists t'. split; [apply in_or_app; right; exact Ht' | exact Hte].
      * intros [t' [e [Ht' Hte]]]. apply in_app_or in Ht'.
        destruct Ht' as [Ht'|Ht'].
        -- apply in_map_iff in Ht'. destruct Ht' as [ch [<- Hch]].
           destruct Hto1 as [e' He']; [exists ch, e; split; assumption|].
           discriminate.
        -- apply Hto. exists t', e. split; assumption.
    + exists (Throw e1), extra1. split; [reflexivity|]. split.
      * intros e He. injection He as <-.
        destruct (Hfrom1 e1 eq_refl) as [ch [Hch Hce]].
        exists (TextChunker.text ch). split; [|exact Hce].
        apply in_or_app. left. apply in_map. exact Hch.
      * intros _. exists e1. reflexivity.
Qed.

Variable embed : jsstring -> vector.
Hypothesis Hembed : forall text, embeddingOf answers text = Ok (embed text).

Lemma embedChunks_recorded entry : forall chunks chunkCount log,
  embedChunks (chunkRepository answers) (embeddingService answers)
              sessionId entry chunks chunkCount log
  = (Ok (chunkCount + List.length chunks)%nat,
     log ++ flat_map storeCalls
              (map (fun chunk =>
                      CreateTranscriptChunkDto.mk
                        sessionId (Some (SessionEntry.id entry))
                        (TextChunker.text chunk) (embed (TextChunker.text chunk))
                        (TextChunker.startIndex chunk)
                        (TextChunker.endIndex chunk)
                        (SessionEntry.timestamp entry))
                   chunks)).
Proof.
  intros chunks.
  induction chunks as [|chunk rest IH]; intros chunkCount log.
  - simpl. unfold ret. rewrite Nat.add_0_r, app_nil_r. reflexivity.
  - cbn [embedChunks]. unfold bind at 1.
    cbn [generateEmbedding embeddingService]. unfold record at 1.
    rewrite Hembed. unfold bind at 1.
    cbn [ITranscriptChunkRepository.create chunkRepository].
    rewrite IH. cbn [map flat_map List.length storeCalls
                         CreateTranscriptChunkDto.chunkText app].
    rewrite <- !app_assoc. cbn [app]. f_equal. f_equal. lia.
Qed.

Lemma embedEntries_recorded : forall entries chunkCount log,
  embedEntries (chunkRepository answers) (embeddingService answers)
               CHUNK_SIZE CHUNK_OVERLAP sessionId entries chunkCount log
  = (Ok (chunkCount
         + List.length (chunkRows embed CHUNK_SIZE CHUNK_OVERLAP
                                  sessionId entries))%nat,
     log ++ flat_map storeCalls
              (chunkRows embed CHUNK_SIZE CHUNK_OVERLAP sessionId entries)).
Proof.
  induction entries as [|entry rest IH]; intros chunkCount log.
  - simpl. unfold ret. rewrite Nat.add_0_r, app_nil_r. reflexivity.
  - cbn [embedEntries]. unfold chunkRows. cbn [flat_map].
    fold (chunkRows embed CHUNK_SIZE CHUNK_OVERLAP sessionId rest).
    unfold transcriptOf.
    destruct (orElse (SessionEntry.transcript entry) (SessionEntry.content entry))
      as [[|c t]|]; try (rewrite IH; reflexivity).
    unfold bind at 1. rewrite embedChunks_recorded, IH.
    rewrite flat_map_app, length_app, length_map, app_assoc.
    f_equal. f_equal. lia.
Qed.

(** What a row of [chunkRows] holds. *)
Lemma chunkRows_In entries dto :
  In dto (chunkRows embed CHUNK_SIZE CHUNK_OVERLAP sessionId entries) ->
  CreateTranscriptChunkDto.sessionId dto = sessionId /\
  CreateTranscriptChunkDto.chunkText dto <> [] /\
  trim (CreateTranscriptChunkDto.chunkText dto)
  = CreateTranscriptChunkDto.chunkText dto /\
  CreateTranscriptChunkDto.embedding dto
  = embed (CreateTranscriptChunkDto.chunkText dto) /\
  exists entry transcript,
    In entry entries /\
    transcriptOf entry = Some transcript /\
    CreateTranscriptChunkDto.entryId dto = Some (SessionEntry.id entry) /\
    CreateTranscriptChunkDto.timestamp dto = SessionEntry.timestamp entry /\
    In (TextChunker.mkChunk (CreateTranscriptChunkDto.chunkText dto)
                            (CreateTranscriptChunkDto.startIndex dto)
                            (CreateTranscriptChunkDto.endIndex dto))
       (chunksOf transcript CHUNK_SIZE CHUNK_OVERLAP).
Proof.
  unfold chunkRows. intros Hin. apply in_flat_map in Hin.
  destruct Hin as [entry [Hentry Hin]].
  destruct (transcriptOf entry) as [transcript|] eqn:Ht; [|destruct Hin].
  apply in_map_iff in Hin. destruct Hin as [chunk [<- Hchunk]].
  cbn [CreateTranscriptChunkDto.sessionId CreateTranscriptChunkDto.chunkText
       CreateTranscriptChunkDto.embedding CreateTranscriptChunkDto.entryId
       CreateTranscriptChunkDto.timestamp CreateTranscriptChunkDto.startIndex
       CreateTranscriptChunkDto.endIndex].
  destruct (chunksOf_texts _ _ _ _ Hchunk) as [Hne Htrim].
  split; [reflexivity|]. split; [exact Hne|]. split; [exact Htrim|].
  split; [reflexivity|]. exists entry, transcript.
  split; [exact Hentry|]. split; [exact Ht|].
  split; [reflexivity|]. split; [reflexivity|].
  destruct chunk. exact Hchunk.
Qed.

Lemma storeCalls_In rows dto :
  In (ChunkCreate dto) (flat_map storeCalls rows) -> In dto rows.
Proof.
  intros Hin. apply in_flat_map in Hin. destruct Hin as [row [Hrow Hin]].
  destruct Hin as [E|[E|[]]]; [discriminate|]. injection E as <-. exact Hrow.
Qed.

(** [embedSession] once the summary is there. *)
Lemma embedSession_recorded text log log' :
  RecordedService.getSessionSummary answers sessionId log = (Ok text, log') ->
  let rows := chunkRows embed CHUNK_SIZE CHUNK_OVERLAP sessionId
                        (entriesOf answers sessionId) in
  RecordedService.embedSession answers CHUNK_SIZE CHUNK_OVERLAP sessionId log
  = (Ok (mkEmbedResult
           (lit "Embedding generated and stored successfully. "
              ++ decimal (List.length rows)
              ++ lit " transcript chunks embedded.")
           (Z.of_nat (List.length (embed text)))),
     log' ++ [GenerateEmbedding text;
              SessionUpdateEmbedding sessionId (embed text);
              EntryFindBySessionId sessionId;
              ChunkDeleteBySessionId sessionId]
          ++ flat_map storeCalls rows).
Proof.
  intros Hsum rows.
  unfold RecordedService.getSessionSummary, getSessionSummary in Hsum.
  unfold RecordedService.embedSession, embedSession.
  unfold bind at 1 in Hsum. unfold bind at 1.
  cbn [ISessionRepository.findById sessionRepository] in *.
  unfold record at 1 in Hsum. unfold record at 1.
  destruct (sessionOf answers sessionId) as [session|]; [|discriminate].
  unfold bind at 1.
  match goal with
  | H : ?m ?w = (Ok text, log') |- context [match ?m' ?w with _ => _ end] =>
      change (m' w) with (m w); rewrite H
  end.
  unfold bind at 1. cbn [generateEmbedding embeddingService].
  unfold record at 1. rewrite Hembed.
  unfold bind at 1. cbn [ISessionRepository.updateEmbedding sessionRepository].
  unfold record at 1.
  unfold bind at 1. cbn [ISessionEntryRepository.findBySessionId entryRepository].
  unfold record at 1.
  unfold bind at 1.
  cbn [ITranscriptChunkRepository.deleteBySessionId chunkRepository].
  unfold record at 1.
  unfold bind at 1. rewrite embedEntries_recorded. fold rows.
  unfold ret. cbn [Nat.add]. rewrite <- !app_assoc. reflexivity.
Qed.

End EmbedSessionFacts.

Section EmbedSessionSteps.
Import JS Entities SessionService SessionServiceMethods Recorder ServiceSpec.

Variable answers : Answers.
Variables CHUNK_SIZE CHUNK_OVERLAP : Z.
Variable sessionId : jsstring.

Let rowOf := storedRow answers CHUNK_SIZE CHUNK_OVERLAP sessionId.

Lemma embedChunks_creates entry : forall chunks chunkCount log r log',
  embedChunks (chunkRepository answers) (embeddingService answers)
              sessionId entry chunks chunkCount log = (r, log') ->
  forall dto, In (ChunkCreate dto) log' ->
    In (ChunkCreate dto) log \/
    (CreateTranscriptChunkDto.sessionId dto = sessionId /\
     embeddingOf answers (CreateTranscriptChunkDto.chunkText dto)
     = Ok (CreateTranscriptChunkDto.embedding dto) /\
     CreateTranscriptChunkDto.entryId dto = Some (SessionEntry.id entry) /\
     CreateTranscriptChunkDto.timestamp dto = SessionEntry.timestamp entry /\
     In (TextChunker.mkChunk (CreateTranscriptChunkDto.chunkText dto)
                             (CreateTranscriptChunkDto.startIndex dto)
                             (CreateTranscriptChunkDto.endIndex dto))
        chunks).
Proof.
  intros chunks.
  induction chunks as [|chunk rest IH]; intros chunkCount log r log' Hrun dto Hin.
  - injection Hrun as _ <-. left. exact Hin.
  - cbn [embedChunks] in Hrun. unfold bind at 1 in Hrun.
    cbn [generateEmbedding embeddingService] in Hrun.
    unfold record at 1 in Hrun.
    destruct (embeddingOf answers (TextChunker.text chunk)) as [v|e] eqn:Hv.
    + unfold bind at 1 in Hrun.
      cbn [ITranscriptChunkRepository.create chunkRepository] in Hrun.
      destruct (IH _ _ _ _ Hrun dto Hin) as [Hold|Hnew].
      * apply in_app_or in Hold. destruct Hold as [Hold|[E|[]]].
        -- apply in_app_or in Hold. destruct Hold as [Hold|[E|[]]];
             [left; exact Hold | discriminate].
        -- injection E as <-. right.
           cbn [CreateTranscriptChunkDto.sessionId
                CreateTranscriptChunkDto.chunkText
                CreateTranscriptChunkDto.embedding
                CreateTranscriptChunkDto.entryId
                CreateTranscriptChunkDto.timestamp
                CreateTranscriptChunkDto.startIndex
                CreateTranscriptChunkDto.endIndex].
           repeat (split; [reflexivity || exact Hv|]).
           left. destruct chunk. reflexivity.
      * right. destruct Hnew as [H1 [H2 [H3 [H4 H5]]]].
        repeat (split; [assumption|]). right. exact H5.
    + injection Hrun as _ <-. apply in_app_or in Hin.
      destruct Hin as [Hin|[E|[]]]; [left; exact Hin | discriminate].
Qed.

Lemma embedEntries_creates : forall entries chunkCount log r log',
  embedEntries (chunkRepository answers) (embeddingService answers)
               CHUNK_SIZE CHUNK_OVERLAP sessionId entries chunkCount log
  = (r, log') ->
  forall dto, In (ChunkCreate dto) log' ->
    In (ChunkCreate dto) log \/ rowOf entries dto.
Proof.
  induction entries as [|entry rest IH];
    intros chunkCount log r log' Hrun dto Hin.
  - injection Hrun as _ <-. left. exact Hin.
  - assert (Hrest : forall dto, rowOf rest dto -> rowOf (entry :: rest) dto).
    { intros d [H1 [H2 [H3 [H4 [en [tr [H5 H6]]]]]]].
      repeat (split; [assumption|]). exists en, tr.
      split; [right; exact H5 | exact H6]. }
    cbn [embedEntries] in Hrun.
    destruct (orElse (SessionEntry.transcript entry) (SessionEntry.content entry))
      as [[|c t]|] eqn:Ht;
      try (destruct (IH _ _ _ _ Hrun dto Hin) as [Hold|Hnew];
           [left; exact Hold | right; apply Hrest; exact Hnew]).
    unfold bind at 1 in Hrun.
    destruct (embedChunks (chunkRepository answers) (embeddingService answers)
                sessionId entry (chunksOf (c :: t) CHUNK_SIZE CHUNK_OVERLAP)
                chunkCount log) as [r1 log1] eqn:Hrun1.
    assert (Hfirst : forall dto, In (ChunkCreate dto) log1 ->
                       In (ChunkCreate dto) log \/ rowOf (entry :: rest) dto).
    { intros d Hd.
      destruct (embedChunks_creates _ _ _ _ _ _ Hrun1 d Hd)
        as [Hold|[H1 [H2 [H3 [H4 H5]]]]]; [left; exact Hold|].
      right. destruct (chunksOf_texts _ _ _ _ H5) as [Hne Htrim].
      cbn [TextChunker.text] in Hne, Htrim.
      repeat (split; [assumption|]). exists entry, (c :: t).
      split; [left; reflexivity|]. split; [unfold transcriptOf; rewrite Ht;
                                           reflexivity|].
      repeat (split; [assumption|]). exact H5. }
    destruct r1 as [count|e1].
    + destruct (IH _ _ _ _ Hrun dto Hin) as [Hold|Hnew].
      * apply Hfirst. exact Hold.
      * right. apply Hrest. exact Hnew.
    + injection Hrun as _ <-. apply Hfirst. exact Hin.
Qed.

(** [getSessionSummary] only adds to the log, and creates no chunk. *)
Lemma getSessionSummary_extends log :
  exists r extra,
    RecordedService.getSessionSummary answers sessionId log
    = (r, log ++ extra) /\
    forall dto, ~ In (ChunkCreate dto) extra.
Proof.
  unfold RecordedService.getSessionSummary, getSessionSummary.
  unfold bind at 1. cbn [ISessionRepository.findById sessionRepository].
  unfold record at 1.
  destruct (sessionOf answers sessionId) as [session|].
  - destruct (truthy (summary session)).
    + destruct (summary session); unfold ret; do 2 eexists;
        (split; [reflexivity|]); intros dto [E|[]]; discriminate.
    + unfold bind at 1.
      cbn [ISessionEntryRepository.findBySessionId entryRepository].
      unfold record at 1. unfold bind at 1.
      cbn [ISummaryService.generateSummary summaryService].
      unfold record at 1.
      destruct (summaryOf answers (entriesOf answers sessionId)) as [g|e].
      * unfold bind at 1.
        cbn [ISessionRepository.updateSummary sessionRepository].
        unfold record at 1. unfold ret. do 2 eexists.
        rewrite <- !app_assoc. split; [reflexivity|].
        cbn [app]. intros dto [E|[E|[E|[E|[]]]]]; discriminate.
      * do 2 eexists. rewrite <- !app_assoc. split; [reflexivity|].
        cbn [app]. intros dto [E|[E|[E|[]]]]; discriminate.
  - unfold throw. do 2 eexists. split; [reflexivity|].
    intros dto [E|[]]; discriminate.
Qed.

(** [embedSession] starts as [getSessionSummary] does, and goes on only
    when that returns. *)
Lemma embedSession_summary log :
  RecordedService.embedSession answers CHUNK_SIZE CHUNK_OVERLAP sessionId log
  = match RecordedService.getSessionSummary answers sessionId log with
    | (Throw e, log') => (Throw e, log')
    | (Ok text, log') =>
        match embeddingOf answers text with
        | Throw e => (Throw e, log' ++ [GenerateEmbedding text])
        | Ok embedding =>
            match embedEntries (chunkRepository answers)
                               (embeddingService answers)
                               CHUNK_SIZE CHUNK_OVERLAP sessionId
                               (entriesOf answers sessionId) 0
                               (log' ++ [GenerateEmbedding text;
                                         SessionUpdateEmbedding sessionId embedding;
                                         EntryFindBySessionId sessionId;
                                         ChunkDeleteBySessionId sessionId]) with
            | (Throw e, log'') => (Throw e, log'')
            | (Ok chunkCount, log'') =>
                (Ok (mkEmbedResult
                       (lit "Embedding generated and stored successfully. "
                          ++ decimal chunkCount
                          ++ lit " transcript chunks embedded.")
                       (Z.of_nat (List.length embedding))),
                 log'')
            end
        end
    end.
Proof.
  unfold RecordedService.getSessionSummary, getSessionSummary.
  unfold RecordedService.embedSession, embedSession.
  unfold bind, record, ret, throw.
  cbn [ISessionRepository.findById ISessionRepository.updateEmbedding
       ISessionRepository.updateSummary sessionRepository
       ISessionEntryRepository.findBySessionId entryRepository
       ITranscriptChunkRepository.deleteBySessionId chunkRepository
       ISummaryService.generateSummary summaryService
       generateEmbedding embeddingService].
  unfold record.
  destruct (sessionOf answers sessionId) as [session|]; [|reflexivity].
  assert (Htail : forall text l,
    match embeddingOf answers text with
    | Ok a =>
        let (o, w') :=
          embedEntries (chunkRepository answers) (embeddingService answers)
            CHUNK_SIZE CHUNK_OVERLAP sessionId (entriesOf answers sessionId) 0
            ((((l ++ [GenerateEmbedding text]) ++
               [SessionUpdateEmbedding sessionId a]) ++
              [EntryFindBySessionId sessionId]) ++
             [ChunkDeleteBySessionId sessionId]) in
        match o with
        | Ok a0 =>
            (Ok (mkEmbedResult
                   (lit "Embedding generated and stored successfully. "
                      ++ decimal a0 ++ lit " transcript chunks embedded.")
                   (Z.of_nat (List.length a))), w')
        | Throw e => (Throw e, w')
        end
    | Throw e => (@Throw EmbedResult e, l ++ [GenerateEmbedding text])
    end
    = match embeddingOf answers text with
      | Throw e => (Throw e, l ++ [GenerateEmbedding text])
      | Ok embedding =>
          match embedEntries (chunkRepository answers)
                             (embeddingService answers)
                             CHUNK_SIZE CHUNK_OVERLAP sessionId
                             (entriesOf answers sessionId) 0
                             (l ++ [GenerateEmbedding text;
                                    SessionUpdateEmbedding sessionId embedding;
                                    EntryFindBySessionId sessionId;
                                    ChunkDeleteBySessionId sessionId]) with
          | (Throw e, log'') => (Throw e, log'')
          | (Ok chunkCount, log'') =>
              (Ok (mkEmbedResult
                     (lit "Embedding generated and stored successfully. "
                        ++ decimal chunkCount
                        ++ lit " transcript chunks embedded.")
                     (Z.of_nat (List.length embedding))),
               log'')
          end
      end).
  { intros text l. destruct (embeddingOf answers text) as [v|e]; [|reflexivity].
    rewrite <- !app_assoc. cbn [app].
    destruct (embedEntries _ _ _ _ _ _ _ _) as [[n|e] l'']; reflexivity. }
  destruct (truthy (summary session)).
  - destruct (summary session); apply Htail.
  - destruct (summaryOf answers (entriesOf answers sessionId)) as [g|e];
      [apply Htail | reflexivity].
Qed.

End EmbedSessionSteps.

Section EmbedSessionClaims.
Import JS Entities SessionService SessionServiceMethods Recorder ServiceSpec.
Import ServiceSamples.

(** When every embedding is answered, [embedSession] asks for the
    summary as [getSessionSummary] does, embeds it and stores the vector,
    reads the entries, deletes the chunks of the session, and then, for
    each chunk of each transcript in order, asks for the embedding of the
    chunk text and creates the row. The message counts the rows, and the
    dimensions are the length of the summary's embedding. *)
Theorem embedSession_stores_chunk_rows :
  forall (answers : Answers) (embed : jsstring -> vector)
         (chunkSize overlap : Z) (sessionId text : jsstring) (log log' : Log),
    (forall t, embeddingOf answers t = Ok (embed t)) ->
    RecordedService.getSessionSummary answers sessionId log = (Ok text, log') ->
    RecordedService.embedSession answers chunkSize overlap sessionId log
    = (Ok (mkEmbedResult
             (lit "Embedding generated and stored successfully. "
                ++ decimal (List.length
                              (chunkRows embed chunkSize overlap sessionId
                                         (entriesOf answers sessionId)))
                ++ lit " transcript chunks embedded.")
             (Z.of_nat (List.length (embed text)))),
       log' ++ embeddingCalls sessionId text (embed text)
            ++ flat_map storeCalls
                 (chunkRows embed chunkSize overlap sessionId
                            (entriesOf answers sessionId))).
Proof.
  intros answers embed chunkSize overlap sessionId text log log' Hembed Hsum.
  exact (embedSession_recorded answers chunkSize overlap sessionId embed
                               Hembed text log log' Hsum).
Qed.

Lemma embedSession_stores_chunk_rows_witness :
  RecordedService.embedSession sampleAnswers 10 2 (lit "session-1") []
  = (Ok (mkEmbedResult
           (lit "Embedding generated and stored successfully. "
              ++ decimal (List.length
                            (chunkRows lengthEmbedding 10 2 (lit "session-1")
                               (entriesOf sampleAnswers (lit "session-1"))))
              ++ lit " transcript chunks embedded.")
           (Z.of_nat (List.length (lengthEmbedding (lit "Talked about sleep."))))),
     [SessionFindById (lit "session-1")]
       ++ embeddingCalls (lit "session-1") (lit "Talked about sleep.")
            (lengthEmbedding (lit "Talked about sleep."))
       ++ flat_map storeCalls
            (chunkRows lengthEmbedding 10 2 (lit "session-1")
                       (entriesOf sampleAnswers (lit "session-1")))).
Proof.
  apply (embedSession_stores_chunk_rows
           sampleAnswers lengthEmbedding 10 2 (lit "session-1")
           (lit "Talked about sleep.") [] [SessionFindById (lit "session-1")]).
  - intros t. reflexivity.
  - vm_compute. reflexivity.
Defined.

(** [embedSession] begins as [getSessionSummary]: where that fails,
    [embedSession] fails with the same error after the same calls; where
    it returns a summary, stored or just generated and saved,
    [embedSession] makes the same calls and next asks for the embedding
    of that summary. *)
Theorem embedSession_begins_as_getSessionSummary :
  forall (answers : Answers) (chunkSize overlap : Z) (sessionId : jsstring)
         (log : Log),
    match RecordedService.getSessionSummary answers sessionId log with
    | (Throw e, log') =>
        RecordedService.embedSession answers chunkSize overlap sessionId log
        = (Throw e, log')
    | (Ok text, log') =>
        exists r rest,
          RecordedService.embedSession answers chunkSize overlap sessionId log
          = (r, log' ++ GenerateEmbedding text :: rest)
    end.
Proof.
  intros answers chunkSize overlap sessionId log.
  rewrite embedSession_summary.
  destruct (RecordedService.getSessionSummary answers sessionId log)
    as [[text|e] log']; [|reflexivity].
  destruct (embeddingOf answers text) as [v|e].
  - destruct (embedEntries_extends answers chunkSize overlap sessionId
                (entriesOf answers sessionId) 0%nat
                (log' ++ [GenerateEmbedding text;
                          SessionUpdateEmbedding sessionId v;
                          EntryFindBySessionId sessionId;
                          ChunkDeleteBySessionId sessionId]))
      as [r [extra [Hrun _]]].
    rewrite Hrun. rewrite <- app_assoc. cbn [app].
    destruct r as [n|e]; do 2 eexists; reflexivity.
  - exists (Throw e), []. reflexivity.
Qed.

(** [embedSession] is not atomic. When the provider fails on the text
    of a chunk, [embedSession] fails with the error of such a text, and by
    then it has stored the summary's embedding and deleted the chunks the
    session had. *)
Theorem embedSession_fails_after_deleting :
  forall (answers : Answers) (chunkSize overlap : Z)
         (sessionId text t : jsstring) (embedding : vector) (e : JsError)
         (log log' : Log),
    RecordedService.getSessionSummary answers sessionId log = (Ok text, log') ->
    embeddingOf answers text = Ok embedding ->
    In t (chunkTexts chunkSize overlap (entriesOf answers sessionId)) ->
    embeddingOf answers t = Throw e ->
    exists t' e' rest,
      In t' (chunkTexts chunkSize overlap (entriesOf answers sessionId)) /\
      embeddingOf answers t' = Throw e' /\
      RecordedService.embedSession answers chunkSize overlap sessionId log
      = (Throw e',
         log' ++ embeddingCalls sessionId text embedding ++ rest).
Proof.
  intros answers chunkSize overlap sessionId text t embedding e log log'
         Hsum Hv Ht Hte.
  rewrite embedSession_summary, Hsum, Hv.
  destruct (embedEntries_extends answers chunkSize overlap sessionId
              (entriesOf answers sessionId) 0%nat
              (log' ++ [GenerateEmbedding text;
                        SessionUpdateEmbedding sessionId embedding;
                        EntryFindBySessionId sessionId;
                        ChunkDeleteBySessionId sessionId]))
    as [r [extra [Hrun [Hfrom Hto]]]].
  rewrite Hrun.
  destruct Hto as [e' He']; [exists t, e; split; assumption|]. subst r.
  destruct (Hfrom e' eq_refl) as [t' [Ht' Hte']].
  exists t', e', extra. split; [exact Ht'|]. split; [exact Hte'|].
  unfold embeddingCalls. rewrite <- app_assoc. reflexivity.
Qed.

Lemma embedSession_fails_after_deleting_witness :
  exists t' e' rest,
    In t' (chunkTexts 10 2 (entriesOf failingAnswers (lit "session-1"))) /\
    embeddingOf failingAnswers t' = Throw e' /\
    RecordedService.embedSession failingAnswers 10 2 (lit "session-1") []
    = (Throw e',
       [SessionFindById (lit "session-1")]
         ++ embeddingCalls (lit "session-1") (lit "Talked about sleep.")
              (lengthEmbedding (lit "Talked about sleep."))
         ++ rest).
Proof.
  apply (embedSession_fails_after_deleting
           failingAnswers 10 2 (lit "session-1") (lit "Talked about sleep.")
           (lit "k brown fo") (lengthEmbedding (lit "Talked about sleep."))
           (Error "OpenAI API error: 500") []
           [SessionFindById (lit "session-1")]).
  - vm_compute. reflexivity.
  - vm_compute. reflexivity.
  - vm_compute. right. left. reflexivity.
  - vm_compute. reflexivity.
Defined.

(** Whatever the collaborators answer, every chunk row [embedSession]
    creates is a row of this session: it names the session and one of its
    entries, its text is a chunk of that entry's transcript, trimmed and
    not empty, with the chunk's span and the entry's timestamp, and its
    embedding is the one the provider answered for that text. *)
Theorem embedSession_creates_rows_of_the_session :
  forall (answers : Answers) (chunkSize overlap : Z) (sessionId : jsstring)
         (dto : CreateTranscriptChunkDto.t),
    In (ChunkCreate dto)
       (snd (RecordedService.embedSession answers chunkSize overlap
                                          sessionId [])) ->
    storedRow answers chunkSize overlap sessionId
              (entriesOf answers sessionId) dto.
Proof.
  intros answers chunkSize overlap sessionId dto.
  rewrite embedSession_summary.
  destruct (getSessionSummary_extends answers sessionId [])
    as [r [extra [Hsum Hnone]]].
  rewrite Hsum. cbn [app].
  destruct r as [text|e]; [|intros Hin; destruct (Hnone dto Hin)].
  destruct (embeddingOf answers text) as [v|e].
  - destruct (embedEntries _ _ _ _ _ _ _ _) as [r log''] eqn:Hrun.
    intros Hin.
    assert (Hin' : In (ChunkCreate dto) log'')
      by (destruct r; exact Hin).
    destruct (embedEntries_creates answers chunkSize overlap sessionId
                _ _ _ _ _ Hrun dto Hin') as [Hold|Hrow]; [|exact Hrow].
    apply in_app_or in Hold. destruct Hold as [Hold|Hold].
    + destruct (Hnone dto Hold).
    + destruct Hold as [E|[E|[E|[E|[]]]]]; discriminate.
  - cbn [snd]. intros Hin. apply in_app_or in Hin.
    destruct Hin as [Hin|[E|[]]]; [destruct (Hnone dto Hin) | discriminate].
Qed.

Lemma embedSession_creates_rows_of_the_session_witness :
  storedRow sampleAnswers 10 2 (lit "session-1")
            (entriesOf sampleAnswers (lit "session-1"))
            (CreateTranscriptChunkDto.mk
               (lit "session-1") (Some (lit "entry-1")) (lit "k brown fo")
               (lengthEmbedding (lit "k brown fo")) 8 18
               (lit "2024-01-01T09:05:00Z")).
Proof.
  apply (embedSession_creates_rows_of_the_session sampleAnswers 10 2).
  vm_compute. do 8 right. left. reflexivity.
Defined.

End EmbedSessionClaims.

(* ================================================================== *)
(** * SessionService: addSessionEntry, transcribeSession, missing sessions *)
(* ================================================================== *)

Section EntryFacts.
Import JS Entities SessionService SessionServiceMethods Recorder ServiceSpec.

Variable answers : Answers.
Variable sessionId : jsstring.

Lemma createTranscribed_recorded : forall entries created log,
  createTranscribed (entryRepository answers) sessionId entries created log
  = (Ok (created ++ createdIds answers (List.length log) (List.length entries)),
     log ++ map (fun entry => EntryCreate (transcribedEntry entry) sessionId)
                entries).
Proof.
  induction entries as [|entry rest IH]; intros created log.
  - unfold createdIds. simpl. unfold ret. rewrite !app_nil_r. reflexivity.
  - cbn [createTranscribed]. unfold bind at 1.
    cbn [ISessionEntryRepository.create entryRepository].
    rewrite IH. unfold createdIds, transcribedEntry.
    rewrite length_app. cbn [List.length map seq].
    rewrite <- !app_assoc. cbn [app].
    replace (List.length log + 1)%nat with (S (List.length log)) by lia.
    reflexivity.
Qed.

End EntryFacts.

Section EntryClaims.
Import JS Entities SessionService SessionServiceMethods Recorder ServiceSpec.
Import ServiceSamples.

(** The validation of [addSessionEntry]. An entry is created exactly
    for a DTO with a speaker, a timestamp, one of the two known speakers
    and some content, audio reference or transcript, on a session that
    exists; the session is looked up once before. Every other request
    fails with an [AppError] and creates nothing: with status 404 when
    only the session is missing, whatever the content, and with status
    400 otherwise; a request without speaker or timestamp, or with an
    unknown speaker, fails before the session is looked up. *)
Theorem addSessionEntry_validation :
  forall (answers : Answers) (sessionId : jsstring)
         (dto : CreateSessionEntryDto.t) (log : Log),
    if acceptedEntry answers sessionId dto
    then
      RecordedService.addSessionEntry answers sessionId dto log
      = (Ok (idOf answers (S (List.length log))),
         log ++ [SessionFindById sessionId; EntryCreate dto sessionId])
    else
      exists msg code,
        RecordedService.addSessionEntry answers sessionId dto log
        = (Throw (AppError msg code),
           if speakerGiven dto && speakerKnown dto
           then log ++ [SessionFindById sessionId]
           else log) /\
        code = (if speakerGiven dto && speakerKnown dto
                then match sessionOf answers sessionId with
                     | None => 404
                     | Some _ => 400
                     end
                else 400).
Proof.
  intros answers sessionId dto log.
  unfold acceptedEntry, RecordedService.addSessionEntry, addSessionEntry,
    speakerGiven, speakerKnown, contentGiven.
  destruct (truthy (CreateSessionEntryDto.speaker dto)) eqn:Hs;
    [|cbn; do 2 eexists; split; reflexivity].
  destruct (truthy (CreateSessionEntryDto.timestamp dto));
    [|cbn; do 2 eexists; split; reflexivity].
  cbn [negb orb andb].
  destruct (CreateSessionEntryDto.speaker dto) as [s|]; [|discriminate].
  destruct (streq s (lit "therapist")), (streq s (lit "client"));
    cbn [negb orb andb];
    try (do 2 eexists; split; reflexivity);
    (unfold bind at 1; cbn [ISessionRepository.findById sessionRepository];
     unfold record at 1;
     destruct (sessionOf answers sessionId);
     [|do 2 eexists; split; reflexivity];
     destruct (truthy (CreateSessionEntryDto.content dto)),
              (truthy (CreateSessionEntryDto.audioReference dto)),
              (truthy (CreateSessionEntryDto.transcript dto));
     cbn [negb orb andb];
     try (do 2 eexists; split; reflexivity);
     cbn [ISessionEntryRepository.create entryRepository];
     rewrite length_app, <- app_assoc; cbn [List.length app];
     rewrite Nat.add_1_r; reflexivity).
Qed.

(** [transcribeSession] on a session that exists, with a transcription
    that succeeds: one entry is created for each entry of the
    transcription, in order, with the entry's content as content and as
    transcript and without audio reference; the speaker is stored as the
    transcription gives it, unchecked. The ids of the created entries
    come back in the same order with the full transcript. *)
Theorem transcribeSession_creates_entries :
  forall (answers : Answers) (sessionId : jsstring)
         (audioBuffer : option (list N)) (session : Session)
         (transcription : TranscriptionResult.t) (log : Log),
    sessionOf answers sessionId = Some session ->
    transcriptionOf answers audioBuffer = Ok transcription ->
    RecordedService.transcribeSession answers sessionId audioBuffer log
    = (Ok (mkTranscribeResult
             (lit "Audio transcribed successfully")
             (createdIds answers (List.length log + 2)
                (List.length (TranscriptionResult.entries transcription)))
             (TranscriptionResult.fullTranscript transcription)),
       log ++ [SessionFindById sessionId; TranscribeAudio audioBuffer]
           ++ map (fun entry => EntryCreate (transcribedEntry entry) sessionId)
                  (TranscriptionResult.entries transcription)).
Proof.
  intros answers sessionId audioBuffer session transcription log Hs Ht.
  unfold RecordedService.transcribeSession, transcribeSession.
  unfold bind at 1. cbn [ISessionRepository.findById sessionRepository].
  unfold record at 1. rewrite Hs.
  unfold bind at 1.
  cbn [ITranscriptionService.transcribeAudio transcriptionService].
  unfold record at 1. rewrite Ht.
  unfold bind at 1. rewrite createTranscribed_recorded.
  unfold ret. rewrite !length_app. cbn [List.length app].
  rewrite <- !app_assoc. cbn [app].
  replace (List.length log + 1 + 1)%nat with (List.length log + 2)%nat by lia.
  reflexivity.
Qed.

Lemma transcribeSession_creates_entries_witness :
  RecordedService.transcribeSession sampleAnswers (lit "session-2") None []
  = (Ok (mkTranscribeResult
           (lit "Audio transcribed successfully")
           (createdIds sampleAnswers 2 2)
           (lit "How did you sleep? Badly.")),
     [SessionFindById (lit "session-2"); TranscribeAudio None]
       ++ map (fun entry => EntryCreate (transcribedEntry entry)
                                        (lit "session-2"))
              (TranscriptionResult.entries sampleTranscription)).
Proof.
  apply (transcribeSession_creates_entries
           sampleAnswers (lit "session-2") None newSession
           sampleTranscription []).
  - vm_compute. reflexivity.
  - reflexivity.
Defined.

(** A session that is missing. With any collaborators, when the lookup
    of the session finds nothing, [getSession], [getSessionSummary],
    [transcribeSession] and [embedSession] fail with
    [AppError("Session not found", 404)] and leave the world as the
    lookup left it: no entry is read, nothing is transcribed, summarised,
    embedded, stored or deleted. *)
Theorem missing_session_not_found :
  forall (W : Type)
         (sessionRepository : ISessionRepository.t W)
         (entryRepository : ISessionEntryRepository.t W)
         (chunkRepository : ITranscriptChunkRepository.t W)
         (summaryService : ISummaryService.t W)
         (embeddingService : IEmbeddingService W)
         (transcriptionService : ITranscriptionService.t W)
         (chunkSize overlap : Z) (sessionId : jsstring)
         (audioBuffer : option (list N)) (w w' : W),
    ISessionRepository.findById sessionRepository sessionId w = (Ok None, w') ->
    getSession sessionRepository entryRepository sessionId w
    = (Throw (AppError "Session not found" 404), w') /\
    getSessionSummary sessionRepository entryRepository summaryService
                      sessionId w
    = (Throw (AppError "Session not found" 404), w') /\
    transcribeSession sessionRepository entryRepository transcriptionService
                      sessionId audioBuffer w
    = (Throw (AppError "Session not found" 404), w') /\
    embedSession sessionRepository entryRepository chunkRepository
                 summaryService embeddingService chunkSize overlap sessionId w
    = (Throw (AppError "Session not found" 404), w').
Proof.
  intros W sessionRepository entryRepository chunkRepository summaryService
         embeddingService transcriptionService chunkSize overlap sessionId
         audioBuffer w w' Hfind.
  repeat split;
    [unfold getSession | unfold getSessionSummary
     | unfold transcribeSession | unfold embedSession];
    unfold bind at 1; rewrite Hfind; reflexivity.
Qed.

Lemma missing_session_not_found_witness :
  RecordedService.getSession sampleAnswers (lit "session-9") []
  = (Throw (AppError "Session not found" 404),
     [SessionFindById (lit "session-9")]) /\
  RecordedService.getSessionSummary sampleAnswers (lit "session-9") []
  = (Throw (AppError "Session not found" 404),
     [SessionFindById (lit "session-9")]) /\
  RecordedService.transcribeSession sampleAnswers (lit "session-9") None []
  = (Throw (AppError "Session not found" 404),
     [SessionFindById (lit "session-9")]) /\
  RecordedService.embedSession sampleAnswers 500 50 (lit "session-9") []
  = (Throw (AppError "Session not found" 404),
     [SessionFindById (lit "session-9")]).
Proof.
  apply (missing_session_not_found
           Log (sessionRepository sampleAnswers) (entryRepository sampleAnswers)
           (chunkRepository sampleAnswers) (summaryService sampleAnswers)
           (embeddingService sampleAnswers) (transcriptionService sampleAnswers)
           500 50 (lit "session-9") None [] [SessionFindById (lit "session-9")]).
  vm_compute. reflexivity.
Defined.

End EntryClaims.

(* ================================================================== *)
(** * cosineSimilarity: the order of the arguments *)
(* ================================================================== *)

Section CosineSymmetry.
Import JS Entities Spec.

(** The product of binary64 does not depend on the order of its
    factors. *)
Lemma float_mul_comm (x y : float) : (x * y = y * x)%float.
Proof.
  apply Prim2SF_inj. rewrite !FloatAxioms.mul_spec.
  unfold SF64mul, SFmul.
  destruct (Prim2SF x) as [sx|sx| |sx mx ex], (Prim2SF y) as [sy|sy| |sy my ey];
    try reflexivity; try (rewrite xorb_comm; reflexivity).
  rewrite xorb_comm, Pos.mul_comm, Z.add_comm. reflexivity.
Qed.

Lemma dot_comm (a b : vector) : dot a b = dot b a.
Proof.
  unfold dot. generalize 0%float as acc. revert b.
  induction a as [|x a IH]; intros [|y b] acc; try reflexivity.
  cbn [combine fold_left fst snd]. rewrite (float_mul_comm x y). apply IH.
Qed.

Lemma cosine_comm (a b : vector) : cosine a b = cosine b a.
Proof.
  unfold cosine. rewrite (float_mul_comm (norm a) (norm b)), (dot_comm a b).
  reflexivity.
Qed.

(** Both [cosineSimilarity] functions are symmetric, bit for bit: the
    result, or the error of the service for vectors of different lengths,
    does not depend on the order of the two vectors. *)
Theorem cosineSimilarity_symmetric :
  forall a b : vector,
    OpenAIEmbeddingService.cosineSimilarity a b
    = OpenAIEmbeddingService.cosineSimilarity b a /\
    TranscriptChunkRepository.cosineSimilarity a b
    = TranscriptChunkRepository.cosineSimilarity b a.
Proof.
  intros a b.
  destruct (Nat.eq_dec (List.length a) (List.length b)) as [Hlen|Hlen].
  - rewrite (service_cosine a b Hlen), (service_cosine b a (eq_sym Hlen)),
      (repository_cosine a b Hlen), (repository_cosine b a (eq_sym Hlen)),
      (cosine_comm a b).
    split; reflexivity.
  - unfold OpenAIEmbeddingService.cosineSimilarity,
      TranscriptChunkRepository.cosineSimilarity.
    assert (E1 : (List.length a =? List.length b)%nat = false)
      by (apply Nat.eqb_neq; exact Hlen).
    assert (E2 : (List.length b =? List.length a)%nat = false)
      by (apply Nat.eqb_neq; intros E; apply Hlen; symmetry; exact E).
    rewrite E1, E2. split; reflexivity.
Qed.

End CosineSymmetry.

(* ================================================================== *)
(** * Placeholders: Database.convertPlaceholders and findSimilarChunks *)
(* ================================================================== *)

Section StatementFacts.
Import JS DatabaseConfig StatementSpec.

Lemma pieces_cons (sql : jsstring) :
  exists piece others, pieces sql = piece :: others.
Proof.
  induction sql as [|c rest [piece [others IH]]]; simpl.
  - exists [], []. reflexivity.
  - destruct (N.eqb c questionMark); [exists [], (pieces rest); reflexivity|].
    rewrite IH. exists (c :: piece), others. reflexivity.
Qed.

Lemma join_pieces (sql : jsstring) : join [questionMark] (pieces sql) = sql.
Proof.
  induction sql as [|c rest IH]; [reflexivity|]. cbn [pieces].
  destruct (N.eqb_spec c questionMark) as [->|Hc].
  - destruct (pieces_cons rest) as [piece [others E]].
    rewrite E in *. cbn [join app] in *. rewrite IH. reflexivity.
  - destruct (pieces_cons rest) as [piece [others E]]. rewrite E in *.
    cbn [join] in *. destruct others; rewrite <- IH; reflexivity.
Qed.

Lemma pieces_plain (sql : jsstring) :
  Forall (fun piece => ~ In questionMark piece) (pieces sql).
Proof.
  induction sql as [|c rest IH]; cbn [pieces].
  - constructor; [intros []|constructor].
  - destruct (N.eqb_spec c questionMark) as [->|Hc].
    + constructor; [intros []|exact IH].
    + destruct (pieces rest) as [|piece others];
        [constructor; [intros [E|[]]; congruence | constructor]|].
      inversion IH as [|? ? Hpiece Hothers]; subst.
      constructor; [|exact Hothers].
      intros [E|Hin]; [congruence | exact (Hpiece Hin)].
Qed.

Lemma replaceQuestionMarks_pieces : forall sql k,
  replaceQuestionMarks sql k
  = (numbered (pieces sql) k, (k + (List.length (pieces sql) - 1))%nat).
Proof.
  induction sql as [|c rest IH]; intros k.
  - simpl. rewrite Nat.add_0_r. reflexivity.
  - cbn [replaceQuestionMarks pieces].
    destruct (N.eqb c questionMark).
    + rewrite IH. destruct (pieces_cons rest) as [piece [others E]].
      rewrite E. cbn [numbered app List.length]. f_equal. lia.
    + rewrite IH. destruct (pieces rest) as [|piece others].
      * simpl. reflexivity.
      * cbn [numbered List.length]. destruct others; reflexivity.
Qed.

(** A decimal numeral holds no question mark. *)
Lemma decimal_plain (n : nat) : ~ In questionMark (decimal n).
Proof.
  assert (Hdigits : forall d,
            ~ In questionMark (lit (NilEmpty.string_of_uint d))).
  { induction d; simpl; intros H;
      try (destruct H as [H|H]; [discriminate | exact (IHd H)]).
    exact H. }
  unfold decimal, NilZero.string_of_uint.
  destruct (Nat.to_uint n) eqn:E; try (rewrite <- E; apply Hdigits).
  intros [H|[]]. discriminate.
Qed.

Lemma numbered_plain : forall parts k,
  Forall (fun piece => ~ In questionMark piece) parts ->
  ~ In questionMark (numbered parts k).
Proof.
  induction parts as [|part rest IH]; intros k Hall; [intros []|].
  inversion Hall as [|? ? Hpart Hrest]; subst. cbn [numbered].
  destruct rest as [|next rest]; [exact Hpart|].
  intros Hin. apply in_app_or in Hin. destruct Hin as [Hin|[E|Hin]].
  - exact (Hpart Hin).
  - discriminate.
  - apply in_app_or in Hin. destruct Hin as [Hin|Hin].
    + exact (decimal_plain k Hin).
    + exact (IH (S k) Hrest Hin).
Qed.

(** Text without question marks is copied. *)
Lemma replaceQuestionMarks_plain : forall plain sql k,
  forallb (fun c => negb (N.eqb c questionMark)) plain = true ->
  replaceQuestionMarks (plain ++ sql) k
  = (plain ++ fst (replaceQuestionMarks sql k),
     snd (replaceQuestionMarks sql k)).
Proof.
  induction plain as [|c plain IH]; intros sql k Hplain.
  - simpl. destruct (replaceQuestionMarks sql k). reflexivity.
  - cbn [forallb] in Hplain. apply andb_true_iff in Hplain.
    destruct Hplain as [Hc Hplain]. cbn [app replaceQuestionMarks].
    destruct (N.eqb c questionMark); [discriminate|].
    rewrite (IH sql k Hplain). reflexivity.
Qed.

(** A list of question marks between commas becomes the list of the
    placeholders. *)
Lemma replaceQuestionMarks_list {A : Type} : forall (others : list A) (first : A)
    (plain : jsstring) (k : nat),
  forallb (fun c => negb (N.eqb c questionMark)) plain = true ->
  replaceQuestionMarks
    (join (lit ",") (map (fun _ => lit "?") (first :: others)) ++ plain) k
  = (join (lit ",") (placeholders k (S (List.length others))) ++ plain,
     (k + S (List.length others))%nat).
Proof.
  induction others as [|second others IH]; intros first plain k Hplain.
  - assert (E : join (lit ",") (map (fun _ : A => lit "?") [first])
                = [questionMark]) by reflexivity.
    rewrite E. cbn [app replaceQuestionMarks List.length].
    rewrite N.eqb_refl.
    pose proof (replaceQuestionMarks_plain plain [] (S k) Hplain) as Hrest.
    rewrite app_nil_r in Hrest. rewrite Hrest.
    cbn [replaceQuestionMarks fst snd].
    rewrite app_nil_r. unfold placeholders. cbn [seq map join app].
    f_equal. lia.
  - assert (E : join (lit ",")
                  (map (fun _ : A => lit "?") (first :: second :: others))
                = questionMark
                  :: (lit ","
                      ++ join (lit ",")
                           (map (fun _ : A => lit "?") (second :: others))))
      by reflexivity.
    rewrite E. cbn [app replaceQuestionMarks]. rewrite N.eqb_refl.
    rewrite <- app_assoc.
    rewrite replaceQuestionMarks_plain by reflexivity.
    rewrite (IH second plain (S k) Hplain). cbn [fst snd].
    assert (E' : join (lit ",") (placeholders k (S (List.length (second :: others))))
                 = (dollar :: decimal k)
                   ++ lit ","
                   ++ join (lit ",")
                        (placeholders (S k) (S (List.length others))))
      by reflexivity.
    rewrite E'. rewrite <- !app_assoc. cbn [app List.length].
    f_equal. lia.
Qed.

End StatementFacts.

Section StatementClaims.
Import JS DatabaseConfig StatementSpec.

(** [convertPlaceholders] for PostgreSQL replaces every question mark
    of the statement, wherever it stands, by [$1], [$2], ... from the
    left and leaves the rest of the text as it is; [paramIndex] is the
    number of question marks, and no question mark is left. For another
    engine the statement comes back unchanged with [paramIndex] 0. *)
Theorem convertPlaceholders_numbers_the_marks :
  forall (dbType : string) (sql : jsstring),
    join [questionMark] (pieces sql) = sql /\
    Forall (fun piece => ~ In questionMark piece) (pieces sql) /\
    convertPlaceholders dbType sql
    = (if String.eqb dbType "postgres"
       then (numbered (pieces sql) 1,
             count_occ N.eq_dec sql questionMark)
       else (sql, 0%nat)) /\
    (String.eqb dbType "postgres" = true ->
     ~ In questionMark (fst (convertPlaceholders dbType sql))).
Proof.
  intros dbType sql.
  assert (Hcount : forall s, count_occ N.eq_dec s questionMark
                             = (List.length (pieces s) - 1)%nat).
  { induction s as [|c rest IH]; [reflexivity|]. cbn [count_occ pieces].
    destruct (N.eq_dec c questionMark) as [->|Hc].
    - rewrite N.eqb_refl. destruct (pieces_cons rest) as [p [o E]].
      rewrite IH, E. cbn [List.length]. lia.
    - destruct (N.eqb_spec c questionMark); [contradiction|].
      rewrite IH. destruct (pieces rest); reflexivity. }
  assert (Hconv : convertPlaceholders dbType sql
                  = (if String.eqb dbType "postgres"
                     then (numbered (pieces sql) 1,
                           count_occ N.eq_dec sql questionMark)
                     else (sql, 0%nat))).
  { unfold convertPlaceholders.
    destruct (String.eqb dbType "postgres"); [|reflexivity].
    cbn [negb]. rewrite replaceQuestionMarks_pieces, Hcount. f_equal. lia. }
  split; [apply join_pieces|]. split; [apply pieces_plain|].
  split; [exact Hconv|].
  intros Hpg. rewrite Hconv, Hpg. cbn [fst].
  apply numbered_plain, pieces_plain.
Qed.

(** The statement of [findSimilarChunks] on PostgreSQL. For session
    ids, the statement names the placeholders [$1] to [$n] in its [IN]
    list, one for each id, and the ids are the parameters in the same
    order; without session ids, or with an empty list of them, it has no
    [WHERE] clause and no parameter. In each case the statement takes as
    many parameters as it is given. *)
Theorem findSimilarChunks_statement :
  forall sessionIds : option (list jsstring),
    let params := match sessionIds with
                  | Some ids => ids
                  | None => []
                  end in
    snd (ChunkStatements.findSimilarChunks sessionIds) = params /\
    convertPlaceholders "postgres"
                        (fst (ChunkStatements.findSimilarChunks sessionIds))
    = (match params with
       | [] => lit "SELECT * FROM transcript_chunks ORDER BY timestamp DESC"
       | _ :: _ =>
           lit "SELECT * FROM transcript_chunks WHERE "
             ++ ChunkStatements.quoted "sessionId" ++ lit " IN ("
             ++ join (lit ",") (placeholders 1 (List.length params))
             ++ lit ") ORDER BY timestamp DESC"
       end,
       List.length params).
Proof.
  intros [[|first others]|]; cbv zeta;
    try (split; reflexivity).
  split; [reflexivity|].
  unfold ChunkStatements.findSimilarChunks, convertPlaceholders.
  change (String.eqb "postgres" "postgres") with true.
  cbn [negb fst snd].
  rewrite <- !app_assoc.
  rewrite replaceQuestionMarks_plain by reflexivity.
  rewrite replaceQuestionMarks_plain by reflexivity.
  rewrite replaceQuestionMarks_plain by reflexivity.
  rewrite replaceQuestionMarks_plain by reflexivity.
  rewrite (replaceQuestionMarks_list others first) by reflexivity.
  cbn [fst snd List.length].
  assert (E1 : lit "SELECT * FROM transcript_chunks WHERE "
               = lit "SELECT * FROM transcript_chunks" ++ lit " WHERE ")
    by reflexivity.
  assert (E2 : lit ") ORDER BY timestamp DESC"
               = lit ")" ++ lit " ORDER BY timestamp DESC")
    by reflexivity.
  rewrite E1, E2, <- !app_assoc. f_equal.
Qed.

End StatementClaims.

(* ================================================================== *)
(** * Chunks and OpenAIEmbeddingService.generateEmbedding *)
(* ================================================================== *)

Section ChunkLengths.
Import JS TextChunker Spec.





End ChunkLengths.

Section ChunkEmbedding.
Import JS Entities AIRetryHelper Spec TextChunker SessionService.
Import Samples.




End ChunkEmbedding.

(* ================================================================== *)
(** * OpenAISummaryService.generateSummary: the summary is never empty *)
(* ================================================================== *)

Section SummaryFacts.
Import JS AIRetryHelper.


End SummaryFacts.

Section SummaryClaims.
Import JS AIRetryHelper OpenAISummaryService.
Import SummarySamples.



End SummaryClaims.
